(** * Real-time order distribution layer: cache, optimistic tracker,
      reconnecting subscriber and broadcaster.

    Shallow embedding of
      - order-ui/src/hooks/useAdvancedFeatures.ts, lines 1-495
        ([AdvancedCache], [useOptimisticUpdates]),
      - the [useWebSocket] hook stored in the same file, lines 496-809,
      - order-service/src/services/websocketService.ts ([WebSocketService]).

    JavaScript numbers that hold millisecond clocks, sizes and counters are
    integers ([Z]).  A JS [Map] is an insertion-ordered association list
    with unique keys, a JS [Set] an insertion-ordered duplicate-free list,
    the object built by [export()] the list of its own properties in
    enumeration order, a React state map a [gmap], the room index of
    socket.io a [gset] of (socket, room) pairs.  Every method of the cache
    reads the clock once.  A promise is represented by the way it settles,
    a closure by the render state it captured. *)

From Stdlib Require Import ZArith Ascii String List Permutation.
From stdpp Require Import base gmap sets list strings sorting.

Local Open Scope Z_scope.
Set Warnings "-clear-no-such-hyp".

(** ** JavaScript containers *)

Module JsMap.
Section JsMap.
Context {V : Type}.

(** [Map.prototype.get]. *)
Fixpoint get (k : string) (m : list (string * V)) : option V :=
  match m with
  | [] => None
  | (k', v) :: m' => if decide (k = k') then Some v else get k m'
  end.

(** [Map.prototype.set]: an existing key keeps its position, a new key goes
    last. *)
Fixpoint set (k : string) (v : V) (m : list (string * V)) : list (string * V) :=
  match m with
  | [] => [(k, v)]
  | (k', v') :: m' =>
      if decide (k = k') then (k, v) :: m' else (k', v') :: set k v m'
  end.

(** [Map.prototype.delete]. *)
Definition delete (k : string) (m : list (string * V)) : list (string * V) :=
  filter (λ p, p.1 ≠ k) m.

(** [Map.prototype.keys], in iteration order. *)
Definition keys (m : list (string * V)) : list string := m.*1.

(** [Map.prototype.size]. *)
Definition size (m : list (string * V)) : Z := Z.of_nat (length m).
End JsMap.
End JsMap.

Module JsSet.
(** [Set.prototype.delete]. *)
Definition delete (k : string) (s : list string) : list string :=
  filter (λ x, x ≠ k) s.

(** [Set.prototype.add]: a member keeps its position, a new value goes
    last. *)
Definition add (k : string) (s : list string) : list string :=
  if decide (k ∈ s) then s else s ++ [k].

(** [set.values().next().value]: the oldest member, [undefined] when the
    set is empty. *)
Definition first (s : list string) : option string := head s.
End JsSet.

(** An ordinary object used as a record ([const data = {}], [data[key] = v],
    [Object.entries(data)]): the list of its own enumerable string-keyed
    properties in the order [Object.entries] lists them, array-index keys
    first in ascending numeric order, then the other keys in the order of
    their creation. *)
Module JsObject.

(** The value of a decimal digit. *)
Definition digit (a : ascii) : option N :=
  let n := N_of_ascii a in
  if decide (48 ≤ n ≤ 57)%N then Some (n - 48)%N else None.

(** The number written by a string of decimal digits. *)
Fixpoint decimal (s : string) (acc : N) : option N :=
  match s with
  | EmptyString => Some acc
  | String a s' =>
      match digit a with
      | Some d => decimal s' (10 * acc + d)%N
      | None => None
      end
  end.

(** A property key is an array index when it is the canonical decimal
    numeral (no leading zero) of an integer from 0 to 2^32 - 2. *)
Definition arrayIndex (k : string) : option N :=
  match k with
  | EmptyString => None
  | String a rest =>
      if decide (a = "0"%char ∧ rest ≠ EmptyString) then None
      else match decimal k 0 with
           | Some n => if decide (n ≤ 4294967294)%N then Some n else None
           | None => None
           end
  end.

(** The order in which an object lists its own string keys: array indices
    first, by numeric value, then every other name (those in the order of
    their creation). *)
Definition before (k1 k2 : string) : Prop :=
  match arrayIndex k1, arrayIndex k2 with
  | Some i, Some j => (i ≤ j)%N
  | Some _, None => True
  | None, Some _ => False
  | None, None => True
  end.

Section JsObject.
Context {V : Type}.

(** A new array-index property takes its place among the array-index
    properties, before the first one that is not smaller and before all
    other properties. *)
Fixpoint insertIndex (i : N) (k : string) (v : V) (o : list (string * V))
    : list (string * V) :=
  match o with
  | [] => [(k, v)]
  | (k', v') :: o' =>
      match arrayIndex k' with
      | Some j => if decide (j < i)%N then (k', v') :: insertIndex i k v o'
                  else (k, v) :: o
      | None => (k, v) :: o
      end
  end.

(** [o[k] = v] on an object whose prototype is [Object.prototype]: the key
    ["__proto__"] runs the inherited setter, which changes the prototype and
    creates no own property; an existing own property keeps its place; a new
    one is created in enumeration order. *)
Definition assign (k : string) (v : V) (o : list (string * V)) : list (string * V) :=
  if decide (k = "__proto__") then o
  else if decide (k ∈ o.*1) then JsMap.set k v o
  else match arrayIndex k with
       | Some i => insertIndex i k v o
       | None => o ++ [(k, v)]
       end.
End JsObject.
End JsObject.

(** ** AdvancedCache (useAdvancedFeatures.ts, lines 3-148) *)

Module Cache.

Record CacheConfig := { maxAge : Z; maxSize : Z }.

Record CacheItem (T : Type) := {
data : T;
timestamp : Z;
expiresAt : Z;
key : string
}.
Arguments data {T} _.
Arguments timestamp {T} _.
Arguments expiresAt {T} _.
Arguments key {T} _.

(** One property of the object built by [export()]. *)
Record Exported (T : Type) := {
x_data : T;
x_timestamp : Z;
x_expiresAt : Z
}.
Arguments x_data {T} _.
Arguments x_timestamp {T} _.
Arguments x_expiresAt {T} _.

Record AdvancedCache (T : Type) := {
cache : list (string * CacheItem T);
accessOrder : list string;
config : CacheConfig
}.
Arguments cache {T} _.
Arguments accessOrder {T} _.
Arguments config {T} _.

(** The default configuration of the constructor. *)
Definition default_config : CacheConfig := {| maxAge := 300000; maxSize := 100 |}.

Section Ops.
Context {T : Type}.
Implicit Types (c : AdvancedCache T) (k : string) (now : Z).

(** [new AdvancedCache(config)]. *)
Definition create (cfg : CacheConfig) : AdvancedCache T :=
  {| cache := []; accessOrder := []; config := cfg |}.

Definition size c : Z := JsMap.size (cache c).

(** [delete(key)]. *)
Definition delete k c : AdvancedCache T :=
  {| cache := JsMap.delete k (cache c);
     accessOrder := JsSet.delete k (accessOrder c);
     config := config c |}.

(** [clear()]. *)
Definition clear c : AdvancedCache T :=
  {| cache := []; accessOrder := []; config := config c |}.

(** [updateAccessOrder(key)]. *)
Definition updateAccessOrder k c : AdvancedCache T :=
  {| cache := cache c;
     accessOrder := JsSet.add k (JsSet.delete k (accessOrder c));
     config := config c |}.

(** The keys collected by the loop of [cleanup()]. *)
Definition expiredKeys now c : list string :=
  (filter (λ p, expiresAt p.2 < now) (cache c)).*1.

(** [cleanup()]: every collected key is passed to [delete]. *)
Definition cleanup now c : AdvancedCache T :=
  foldl (λ acc k, delete k acc) c (expiredKeys now c).

(** [customMaxAge || this.config.maxAge]: a missing or zero override falls
    back to the configured age. *)
Definition effectiveMaxAge (customMaxAge : option Z) c : Z :=
  match customMaxAge with
  | Some a => if decide (a = 0) then maxAge (config c) else a
  | None => maxAge (config c)
  end.

(** The eviction step of [set]: [if (lruKey) this.delete(lruKey)] runs only
    for a truthy key, that is a defined and non-empty string. *)
Definition evict c : AdvancedCache T :=
  if decide (maxSize (config c) <= size c) then
    match JsSet.first (accessOrder c) with
    | Some lruKey => if decide (lruKey = "") then c else delete lruKey c
    | None => c
    end
  else c.

(** [set(key, data, customMaxAge)]. *)
Definition set now k (d : T) (customMaxAge : option Z) c : AdvancedCache T :=
  let age := effectiveMaxAge customMaxAge c in
  let c1 := evict (cleanup now c) in
  let item := {| data := d; timestamp := now; expiresAt := now + age; key := k |} in
  updateAccessOrder k
    {| cache := JsMap.set k item (cache c1);
       accessOrder := accessOrder c1;
       config := config c1 |}.

(** [get(key)]: the returned value and the cache afterwards. *)
Definition get now k c : option T * AdvancedCache T :=
  match JsMap.get k (cache c) with
  | None => (None, c)
  | Some item =>
      if decide (expiresAt item < now) then (None, delete k c)
      else (Some (data item), updateAccessOrder k c)
  end.

(** [has(key)]. *)
Definition has now k c : bool * AdvancedCache T :=
  match JsMap.get k (cache c) with
  | None => (false, c)
  | Some item =>
      if decide (expiresAt item < now) then (false, delete k c)
      else (true, c)
  end.

(** [getAllKeys()]. *)
Definition getAllKeys now c : list string * AdvancedCache T :=
  let c1 := cleanup now c in (JsMap.keys (cache c1), c1).

(** [export()]: the record is an object filled by property assignment in
    the iteration order of the map. *)
Definition export now c : list (string * Exported T) :=
  foldl (λ rec p,
           if decide (now <= expiresAt p.2) then
             JsObject.assign p.1 {| x_data := data p.2;
                                    x_timestamp := timestamp p.2;
                                    x_expiresAt := expiresAt p.2 |} rec
           else rec)
        [] (cache c).

(** One iteration of the loop of [import(data)] over [Object.entries(data)],
    given as the list of the entries:
    [item.expiresAt && now <= item.expiresAt] skips a zero expiry. *)
Definition import_entry now c (p : string * Exported T) : AdvancedCache T :=
  if decide (x_expiresAt p.2 ≠ 0 ∧ now <= x_expiresAt p.2) then
    updateAccessOrder p.1
      {| cache := JsMap.set p.1 {| data := x_data p.2;
                                   timestamp := x_timestamp p.2;
                                   expiresAt := x_expiresAt p.2;
                                   key := p.1 |} (cache c);
         accessOrder := accessOrder c;
         config := config c |}
  else c.

(** [import(data)]. *)
Definition import now (rec : list (string * Exported T)) c : AdvancedCache T :=
  foldl (import_entry now) c rec.

(** The public operations, each run at one reading of the clock. *)
Inductive op :=
| OpSet (k : string) (d : T) (customMaxAge : option Z)
| OpGet (k : string)
| OpHas (k : string)
| OpDelete (k : string)
| OpClear
| OpKeys
| OpExport
| OpImport (rec : list (string * Exported T)).

Definition step (c : AdvancedCache T) (e : Z * op) : AdvancedCache T :=
  match e.2 with
  | OpSet k d a => set e.1 k d a c
  | OpGet k => (get e.1 k c).2
  | OpHas k => (has e.1 k c).2
  | OpDelete k => delete k c
  | OpClear => clear c
  | OpKeys => (getAllKeys e.1 c).2
  | OpExport => c
  | OpImport rec => import e.1 rec c
  end.

(** The cache after a sequence of timed operations on a new cache. *)
Definition run (cfg : CacheConfig) (tr : list (Z * op)) : AdvancedCache T :=
  foldl step (create cfg) tr.
End Ops.

End Cache.

(** ** useOptimisticUpdates (useAdvancedFeatures.ts, lines 337-487) *)

Module Tracker.

Inductive OpType := create | update | delete.

(** A tracked operation: the value type of [optimisticOperations]. *)
Record Operation (T : Type) := {
  type : OpType;
  originalData : option T;
  newData : option T;
  timestamp : Z
}.
Arguments type {T} _.
Arguments originalData {T} _.
Arguments newData {T} _.
Arguments timestamp {T} _.

(** The two pieces of React state of the hook.  The callbacks are run on the
    render that shows this state, so the [data] they close over is the
    current one. *)
Record State (T : Type) := {
  data : list T;
  optimisticOperations : gmap string (Operation T)
}.
Arguments data {T} _.
Arguments optimisticOperations {T} _.

(** How a promise settles. *)
Inductive Settle (R E : Type) :=
| Resolves (r : R)
| Rejects (e : E).
Arguments Resolves {R E} _.
Arguments Rejects {R E} _.

(** How a function body ends: by returning, or by [throw e]. *)
Inductive Completion (E : Type) :=
| Returns
| Throws (e : E).
Arguments Returns {E}.
Arguments Throws {E} _.

(** What one call of a hook callback leaves behind: the React state once the
    promise chain has settled, how often [serverOperation] was invoked, how
    the call itself ended for its caller, and the promise produced by
    [serverOperation().then(..).catch(..)] if the call got that far. *)
Record Outcome (T E : Type) := {
  final : State T;
  serverCalls : nat;
  caller : Completion E;
  chain : option (Settle unit E)
}.
Arguments final {T E} _.
Arguments serverCalls {T E} _.
Arguments caller {T E} _.
Arguments chain {T E} _.

Section Hook.
(** [truthy] is the boolean a condition makes of an item ([!originalItem]
    tests it): [true] for every object, [false] for [0], [""], [false],
    [null], [undefined] and [NaN]. *)
Context {T E : Type} (keyExtractor : T → string) (truthy : T → bool).
Implicit Types (st : State T) (k : string).

(** A [then] or [catch] handler: its effect on the state and how it ends. *)
Definition Handler (A : Type) : Type := A → State T → State T * Completion E.

(** The promise a handler gives rise to. *)
Definition settled (r : State T * Completion E) : State T * Settle unit E :=
  match r.2 with
  | Returns => (r.1, Resolves ())
  | Throws e => (r.1, Rejects e)
  end.

(** [p.then(onFulfilled)]: the handler runs on fulfilment, a rejection is
    passed on. *)
Definition then_ {A : Type} (p : Settle A E) (onFulfilled : Handler A) st
    : State T * Settle unit E :=
  match p with
  | Resolves r => settled (onFulfilled r st)
  | Rejects e => (st, Rejects e)
  end.

(** [p.catch(onRejected)]: the handler runs on rejection; the new promise is
    fulfilled when the handler returns and rejected when it throws. *)
Definition catch_ (p : Settle unit E) (onRejected : Handler E) st
    : State T * Settle unit E :=
  match p with
  | Resolves _ => (st, Resolves ())
  | Rejects e => settled (onRejected e st)
  end.

(** [data.find(item => keyExtractor(item) === key)]: the first match. *)
Fixpoint findItem k (l : list T) : option T :=
  match l with
  | [] => None
  | item :: l' => if decide (keyExtractor item = k) then Some item else findItem k l'
  end.

(** [prev.map(item => keyExtractor(item) === key ? x : item)]. *)
Definition replaceItem k (x : T) (l : list T) : list T :=
  (λ item, if decide (keyExtractor item = k) then x else item) <$> l.

(** [prev.filter(item => keyExtractor(item) !== key)]. *)
Definition removeItem k (l : list T) : list T :=
  filter (λ item, keyExtractor item ≠ k) l.

Definition setData (f : list T → list T) st : State T :=
  {| data := f (data st); optimisticOperations := optimisticOperations st |}.

Definition setOptimisticOperations
    (f : gmap string (Operation T) → gmap string (Operation T)) st : State T :=
  {| data := data st; optimisticOperations := f (optimisticOperations st) |}.

(** The updater shared by every handler: copy the map, delete the key. *)
Definition untrack k st : State T :=
  setOptimisticOperations (base.delete k) st.

(** The body shared by the three callbacks once the optimistic change is
    made: [serverOperation().then(onFulfilled).catch(onRejected);] is an
    expression statement, so the promise it yields is kept by nobody, and
    the callback then falls off its end and returns [undefined]. *)
Definition dispatch {A : Type} (server : Settle A E)
    (onFulfilled : Handler A) (onRejected : Handler E) st : Outcome T E :=
  let r1 := then_ server onFulfilled st in
  let r2 := catch_ r1.2 onRejected r1.1 in
  {| final := r2.1; serverCalls := 1; caller := Returns; chain := Some r2.2 |}.

(** The early [return;] of a callback. *)
Definition bail st : Outcome T E :=
  {| final := st; serverCalls := 0; caller := Returns; chain := None |}.

(** [optimisticCreate(newItem, serverOperation)]. *)
Definition optimisticCreate (now : Z) (newItem : T) (server : Settle T E) st
    : Outcome T E :=
  let k := keyExtractor newItem in
  let st1 := setData (λ prev, prev ++ [newItem]) st in
  let st2 := setOptimisticOperations
               (insert k {| type := create; originalData := None;
                            newData := Some newItem; timestamp := now |}) st1 in
  dispatch server
    (λ serverResult s,
       (untrack k (setData (replaceItem k serverResult) s), Returns))
    (λ error s,
       (untrack k (setData (removeItem k) s), Throws error))
    st2.

(** [optimisticUpdate(updatedItem, serverOperation)].  The guard
    [if (!originalItem) return;] is passed only by an item that was found
    and is truthy. *)
Definition optimisticUpdate (now : Z) (updatedItem : T) (server : Settle T E) st
    : Outcome T E :=
  let k := keyExtractor updatedItem in
  match findItem k (data st) with
  | None => bail st
  | Some originalItem =>
      if truthy originalItem then
        let st1 := setData (replaceItem k updatedItem) st in
        let st2 := setOptimisticOperations
                     (insert k {| type := update; originalData := Some originalItem;
                                  newData := Some updatedItem; timestamp := now |}) st1 in
        dispatch server
          (λ serverResult s,
             (untrack k (setData (replaceItem k serverResult) s), Returns))
          (λ error s,
             (untrack k (setData (replaceItem k originalItem) s), Throws error))
          st2
      else bail st
  end.

(** [optimisticDelete(itemKey, serverOperation)], with the same guard. *)
Definition optimisticDelete (now : Z) (itemKey : string) (server : Settle unit E) st
    : Outcome T E :=
  match findItem itemKey (data st) with
  | None => bail st
  | Some originalItem =>
      if truthy originalItem then
        let st1 := setData (removeItem itemKey) st in
        let st2 := setOptimisticOperations
                     (insert itemKey {| type := delete; originalData := Some originalItem;
                                        newData := None; timestamp := now |}) st1 in
        dispatch server
          (λ _ s, (untrack itemKey s, Returns))
          (λ error s,
             (untrack itemKey (setData (λ prev, prev ++ [originalItem]) s), Throws error))
          st2
      else bail st
  end.

(** [isOptimistic(itemKey)]. *)
Definition isOptimistic k st : bool :=
  bool_decide (is_Some (optimisticOperations st !! k)).
End Hook.

End Tracker.

(** ** JavaScript string and array helpers used by both sides *)

Module Js.
(** [s.split(sep)[0]]: the text before the first separator. *)
Fixpoint splitFirst (sep : ascii) (s : string) : string :=
  match s with
  | EmptyString => EmptyString
  | String a s' => if decide (a = sep) then EmptyString else String a (splitFirst sep s')
  end.

(** [s.replace(x, y)] for one-character strings: only the first occurrence
    is replaced. *)
Fixpoint replaceFirst (x y : ascii) (s : string) : string :=
  match s with
  | EmptyString => EmptyString
  | String a s' => if decide (a = x) then String y s' else String a (replaceFirst x y s')
  end.

Definition upperChar (a : ascii) : ascii :=
  let n := nat_of_ascii a in
  if decide (97 ≤ n ≤ 122)%nat then ascii_of_nat (n - 32) else a.

(** [s.toUpperCase()] on ASCII text. *)
Fixpoint toUpperCase (s : string) : string :=
  match s with
  | EmptyString => EmptyString
  | String a s' => String (upperChar a) (toUpperCase s')
  end.

(** The relative index rule of [Array.prototype.slice]. *)
Definition relIndex (len i : Z) : Z :=
  if decide (i < 0) then Z.max (len + i) 0 else Z.min i len.

(** [l.slice(start, end)]. *)
Definition slice {A : Type} (start end_ : Z) (l : list A) : list A :=
  let len := Z.of_nat (length l) in
  let from := relIndex len start in
  let to := relIndex len end_ in
  take (Z.to_nat (to - from)) (drop (Z.to_nat from) l).
End Js.

(** ** Messages on the wire (both files declare the same interfaces) *)

Module Wire.

Inductive UpdateType := created | updated | deleted | status_changed.

Definition typeName (t : UpdateType) : string :=
  match t with
  | created => "created"
  | updated => "updated"
  | deleted => "deleted"
  | status_changed => "status_changed"
  end.

(** [amount] is carried as it is; no operation computes with it. *)
Record OrderUpdate := {
  orderId : string;
  status : string;
  customerName : string;
  timestamp : string;
  amount : Z;
  type : UpdateType
}.

Inductive Severity := success | warning | error | info.

Record NotificationMessage := {
  n_id : string;
  n_title : string;
  n_message : string;
  n_type : Severity;
  n_timestamp : string;
  n_userId : option string;
  n_orderId : option string
}.

(** The server-to-client events the claims are about, with their payloads. *)
Inductive Message :=
  | order_update (u : OrderUpdate)
  | order_detail_update (u : OrderUpdate) (detailedInfo : bool)
  | bulk_order_update (updates : list OrderUpdate)
  | notification (n : NotificationMessage).

End Wire.

(** ** WebSocketService (websocketService.ts) *)

Module Service.
Import Wire.

(** The room index of the socket.io adapter as the service fills it: the
    pairs (socket id, room).  The private room socket.io opens for every
    socket under its own generated id is not listed; the service emits only
    to the two kinds of room named below. *)
Record Service := {
  rooms : gset (string * string);
  connectedUsers : gset string;
  userSessions : gmap string string
}.

Definition initial : Service :=
  {| rooms := ∅; connectedUsers := ∅; userSessions := ∅ |}.

Definition authenticated_users : string := "authenticated_users".

(** The room a socket watches an order in: [`order_${orderId}`]. *)
Definition orderRoom (orderId : string) : string := "order_" +:+ orderId.

(** What a client connection can do to the registry. *)
Inductive ClientEvent :=
  | connection (sid : string)
  | authenticate (sid userId name : string)
  | join_order_room (sid orderId : string)
  | leave_order_room (sid orderId : string)
  | disconnect (sid : string).

(** [socket.join(room)] and [socket.leave(room)]. *)
Definition join (sid room : string) (s : Service) : Service :=
  {| rooms := {[ (sid, room) ]} ∪ rooms s;
     connectedUsers := connectedUsers s;
     userSessions := userSessions s |}.

Definition leave (sid room : string) (s : Service) : Service :=
  {| rooms := rooms s ∖ {[ (sid, room) ]};
     connectedUsers := connectedUsers s;
     userSessions := userSessions s |}.

(** The registry part of the handlers of [setupSocketHandlers]; on
    [disconnect] the transport takes the socket out of every room before the
    handler drops the two map entries. *)
Definition handle (s : Service) (e : ClientEvent) : Service :=
  match e with
  | connection _ => s
  | authenticate sid userId _ =>
      join sid authenticated_users
        {| rooms := rooms s;
           connectedUsers := {[ sid ]} ∪ connectedUsers s;
           userSessions := <[ sid := userId ]> (userSessions s) |}
  | join_order_room sid orderId => join sid (orderRoom orderId) s
  | leave_order_room sid orderId => leave sid (orderRoom orderId) s
  | disconnect sid =>
      {| rooms := filter (λ p, p.1 ≠ sid) (rooms s);
         connectedUsers := connectedUsers s ∖ {[ sid ]};
         userSessions := base.delete sid (userSessions s) |}
  end.

Definition after (tr : list ClientEvent) : Service := foldl handle initial tr.

(** [io.to(room).emit(event, payload)]. *)
Record Emission := { room : string; message : Message }.

(** The sockets the adapter resolves for a room at emit time. *)
Definition membersOf (s : Service) (r : string) : gset string :=
  set_map fst (filter (λ p, p.2 = r) (rooms s)).

(** The messages one socket receives from a list of emissions, in order. *)
Definition inbox (s : Service) (sid : string) (es : list Emission) : list Message :=
  message <$> filter (λ e, sid ∈ membersOf s (room e)) es.

Definition severityOf (t : UpdateType) : Severity :=
  match t with
  | created => success
  | deleted => warning
  | _ => info
  end.

(** The notification built by [broadcastOrderUpdate]; [uuid] is the value of
    [uuidv4()] and [isoNow] of [new Date().toISOString()]. *)
Definition orderNotification (uuid isoNow : string) (u : OrderUpdate)
    : NotificationMessage :=
  let shown := Js.replaceFirst "_"%char " "%char (typeName (type u)) in
  {| n_id := uuid;
     n_title := "Order " +:+ Js.toUpperCase shown;
     n_message := "Order " +:+ Js.splitFirst "-"%char (orderId u)
                    +:+ "... has been " +:+ shown;
     n_type := severityOf (type u);
     n_timestamp := isoNow;
     n_userId := None;
     n_orderId := Some (orderId u) |}.

(** [broadcastNotification(notification)]. *)
Definition broadcastNotification (n : NotificationMessage) : list Emission :=
  [ {| room := authenticated_users; message := notification n |} ].

(** [broadcastOrderUpdate(orderUpdate)]. *)
Definition broadcastOrderUpdate (uuid isoNow : string) (u : OrderUpdate)
    : list Emission :=
  [ {| room := authenticated_users; message := order_update u |};
    {| room := orderRoom (orderId u); message := order_detail_update u true |} ]
  ++ broadcastNotification (orderNotification uuid isoNow u).

(** [broadcastBulkUpdate(updates)]. *)
Definition broadcastBulkUpdate (updates : list OrderUpdate) : list Emission :=
  [ {| room := authenticated_users; message := bulk_order_update updates |} ].

End Service.

(** ** useWebSocket (useAdvancedFeatures.ts, lines 496-809) *)

Module Subscriber.
Import Wire.

Record ConnectionState := {
  isConnected : bool;
  isConnecting : bool;
  error : option string;
  reconnectAttempts : Z
}.

Definition maxReconnectAttempts : Z := 5.
Definition reconnectDelay : Z := 2000.

(** The argument of [useState<ConnectionState>]. *)
Definition initialState : ConnectionState :=
  {| isConnected := false; isConnecting := false; error := None;
     reconnectAttempts := 0 |}.

Inductive ToastFn := toast_success | toast_warn | toast_error | toast_info.

(** The texts handed to the toast functions, by template. *)
Inductive ToastText :=
  | ConnectedText
  | ConnectFailedText
  | OrderText (t : UpdateType) (shortId : string)
  | BulkText (count : nat)
  | NotificationText (message : string).

Record Toast := { fn : ToastFn; text : ToastText }.

(** The hook at run time.  [connectionState], [notifications] and
    [orderUpdates] are React state.  A render is identified with the
    [connectionState] it shows, which is what the callbacks created in that
    render read when they mention [connectionState]: [socket] records the
    render whose [connect] opened the current socket and installed its
    handlers, [reconnectTimeout] the render whose [connect] the pending
    timer calls.  [scheduled] logs the delays given to [setTimeout] by the
    [connect_error] handler, [toasts] and [dispatched] the toasts shown and
    the window events sent. *)
Record Hook := {
  connectionState : ConnectionState;
  socket : option ConnectionState;
  reconnectTimeout : option ConnectionState;
  scheduled : list Z;
  toasts : list Toast;
  dispatched : list string;
  notifications : list NotificationMessage;
  orderUpdates : list OrderUpdate
}.

Definition unmounted : Hook :=
  {| connectionState := initialState; socket := None; reconnectTimeout := None;
     scheduled := []; toasts := []; dispatched := [];
     notifications := []; orderUpdates := [] |}.

Definition withState (f : ConnectionState → ConnectionState) (h : Hook) : Hook :=
  {| connectionState := f (connectionState h); socket := socket h;
     reconnectTimeout := reconnectTimeout h; scheduled := scheduled h;
     toasts := toasts h; dispatched := dispatched h;
     notifications := notifications h; orderUpdates := orderUpdates h |}.

Definition withToast (t : Toast) (h : Hook) : Hook :=
  {| connectionState := connectionState h; socket := socket h;
     reconnectTimeout := reconnectTimeout h; scheduled := scheduled h;
     toasts := toasts h ++ [t]; dispatched := dispatched h;
     notifications := notifications h; orderUpdates := orderUpdates h |}.

(** [connect()] as created in the render showing [env]: the guard reads the
    captured state, the state update is applied to the current one, and the
    new socket carries handlers that closed over [env]. *)
Definition connect (env : ConnectionState) (h : Hook) : Hook :=
  if isConnecting env || isConnected env then h
  else
    let h1 := withState (λ prev,
                {| isConnected := isConnected prev; isConnecting := true;
                   error := None; reconnectAttempts := reconnectAttempts prev |}) h in
    {| connectionState := connectionState h1; socket := Some env;
       reconnectTimeout := reconnectTimeout h1; scheduled := scheduled h1;
       toasts := toasts h1; dispatched := dispatched h1;
       notifications := notifications h1; orderUpdates := orderUpdates h1 |}.

(** The mount effect, for a hook given [userId] and [userName]: [connect()]
      of the first render. *)
Definition mount : Hook := connect initialState unmounted.

(** The ['connect'] handler. *)
Definition on_connect (h : Hook) : Hook :=
  match socket h with
  | None => h
  | Some _ =>
      withToast {| fn := toast_success; text := ConnectedText |}
        (withState (λ _, {| isConnected := true; isConnecting := false;
                            error := None; reconnectAttempts := 0 |}) h)
  end.

(** [error.message || 'Connection failed']. *)
Definition errorText (message : option string) : string :=
  match message with
  | Some m => if decide (m = "") then "Connection failed" else m
  | None => "Connection failed"
  end.

(** The ['connect_error'] handler of the socket opened by the render [env]:
    the counter is incremented in the current state, the test and the delay
    read [connectionState.reconnectAttempts] of [env], and the timer calls
    the [connect] of [env]. *)
Definition on_connect_error (message : option string) (h : Hook) : Hook :=
  match socket h with
  | None => h
  | Some env =>
      let h1 := withState (λ prev,
                  {| isConnected := isConnected prev; isConnecting := false;
                     error := Some (errorText message);
                     reconnectAttempts := reconnectAttempts prev + 1 |}) h in
      if decide (reconnectAttempts env < maxReconnectAttempts) then
        {| connectionState := connectionState h1; socket := socket h1;
           reconnectTimeout := Some env;
           scheduled := scheduled h1
                          ++ [reconnectDelay * 2 ^ reconnectAttempts env];
           toasts := toasts h1; dispatched := dispatched h1;
           notifications := notifications h1; orderUpdates := orderUpdates h1 |}
      else
        withToast {| fn := toast_error; text := ConnectFailedText |} h1
  end.

(** The retry timer expires and runs its callback [() => connect()]. *)
Definition timeout_fires (h : Hook) : Hook :=
  match reconnectTimeout h with
  | None => h
  | Some env =>
      connect env
        {| connectionState := connectionState h; socket := socket h;
           reconnectTimeout := None; scheduled := scheduled h;
           toasts := toasts h; dispatched := dispatched h;
           notifications := notifications h; orderUpdates := orderUpdates h |}
  end.

(** [disconnect()]. *)
Definition disconnect (h : Hook) : Hook :=
  {| connectionState := initialState; socket := None; reconnectTimeout := None;
     scheduled := scheduled h; toasts := toasts h; dispatched := dispatched h;
     notifications := notifications h; orderUpdates := orderUpdates h |}.

(** One failed attempt and the retry it leads to, if any. *)
Definition fail_once (h : Hook) : Hook := timeout_fires (on_connect_error None h).

(** [n] connect failures in a row after mounting. *)
Definition consecutive_failures (n : nat) : Hook := Nat.iter n fail_once mount.

Definition toastFor (s : Severity) : ToastFn :=
  match s with
  | Wire.success => toast_success
  | Wire.warning => toast_warn
  | Wire.error => toast_error
  | Wire.info => toast_info
  end.

(** The handlers of the server events. *)
Definition receive (m : Message) (h : Hook) : Hook :=
  match m with
  | order_update u =>
      withToast {| fn := toast_info;
                   text := OrderText (type u) (Js.splitFirst "-"%char (orderId u)) |}
        {| connectionState := connectionState h; socket := socket h;
           reconnectTimeout := reconnectTimeout h; scheduled := scheduled h;
           toasts := toasts h; dispatched := dispatched h;
           notifications := notifications h;
           orderUpdates := u :: Js.slice 0 49 (orderUpdates h) |}
  | order_detail_update _ _ =>
      {| connectionState := connectionState h; socket := socket h;
         reconnectTimeout := reconnectTimeout h; scheduled := scheduled h;
         toasts := toasts h; dispatched := dispatched h ++ ["orderDetailUpdate"];
         notifications := notifications h; orderUpdates := orderUpdates h |}
  | notification n =>
      withToast {| fn := toastFor (n_type n); text := NotificationText (n_message n) |}
        {| connectionState := connectionState h; socket := socket h;
           reconnectTimeout := reconnectTimeout h; scheduled := scheduled h;
           toasts := toasts h; dispatched := dispatched h;
           notifications := n :: Js.slice 0 99 (notifications h);
           orderUpdates := orderUpdates h |}
  | bulk_order_update updates =>
      withToast {| fn := toast_info; text := BulkText (length updates) |}
        {| connectionState := connectionState h; socket := socket h;
           reconnectTimeout := reconnectTimeout h; scheduled := scheduled h;
           toasts := toasts h; dispatched := dispatched h;
           notifications := notifications h;
           orderUpdates := updates
                             ++ Js.slice 0 (50 - Z.of_nat (length updates))
                                  (orderUpdates h) |}
  end.

End Subscriber.

(** ** useAdvancedLoading (useAdvancedFeatures.ts, lines 275-335) *)

Module Loading.

(** The three React state maps of the hook; the callbacks that read them run
    on the render that shows them. *)
Record State := {
  loadingStates : gmap string bool;
  loadingProgress : gmap string Z;
  loadingMessages : gmap string string
}.

Definition initial : State :=
  {| loadingStates := ∅; loadingProgress := ∅; loadingMessages := ∅ |}.

(** [setLoading(key, isLoading, message?)]: [if (message)] skips a missing
    and an empty message; a key that stops loading loses its progress and
    its message, also the message just given. *)
Definition setLoading (key : string) (isLoading : bool) (message : option string)
    (st : State) : State :=
  let states := <[ key := isLoading ]> (loadingStates st) in
  let messages :=
    match message with
    | Some m => if decide (m = "") then loadingMessages st
                else <[ key := m ]> (loadingMessages st)
    | None => loadingMessages st
    end in
  if isLoading then
    {| loadingStates := states; loadingProgress := loadingProgress st;
       loadingMessages := messages |}
  else
    {| loadingStates := states;
       loadingProgress := base.delete key (loadingProgress st);
       loadingMessages := base.delete key messages |}.

(** [setProgress(key, progress)]:
    [Math.max(0, Math.min(100, progress))] is stored. *)
Definition setProgress (key : string) (progress : Z) (st : State) : State :=
  {| loadingStates := loadingStates st;
     loadingProgress := <[ key := Z.max 0 (Z.min 100 progress) ]> (loadingProgress st);
     loadingMessages := loadingMessages st |}.

(** [isLoading(key?)]: with a truthy key [loadingStates.get(key) || false],
    else [Array.from(loadingStates.values()).some(Boolean)]. *)
Definition isLoading (key : option string) (st : State) : bool :=
  let any := existsb id (map_to_list (loadingStates st)).*2 in
  match key with
  | Some k => if decide (k = "") then any else default false (loadingStates st !! k)
  | None => any
  end.

(** [getProgress(key)]: [loadingProgress.get(key) || 0]. *)
Definition getProgress (key : string) (st : State) : Z :=
  default 0 (loadingProgress st !! key).

(** [getMessage(key)]: [loadingMessages.get(key) || '']. *)
Definition getMessage (key : string) (st : State) : string :=
  default "" (loadingMessages st !! key).

(** The two state-changing callbacks as events. *)
Inductive Call :=
| CallSetLoading (key : string) (isLoading : bool) (message : option string)
| CallSetProgress (key : string) (progress : Z).

Definition apply (st : State) (c : Call) : State :=
  match c with
  | CallSetLoading k b m => setLoading k b m st
  | CallSetProgress k p => setProgress k p st
  end.

Definition after (calls : list Call) : State := foldl apply initial calls.

End Loading.

(** ** usePerformanceMonitor (useAdvancedFeatures.ts, lines 150-209) *)

Module Perf.
Section Perf.
Context {D : Type}.

(** The part of the hook state that [endTiming] computes without floating
    point: the kept measurements and the two metrics [renderCount] and
    [lastRenderTime].  A duration is a value of [D]. *)
Record State := {
  renderTimes : list D;
  renderCount : Z;
  lastRenderTime : option D
}.

(** The initial state, where [lastRenderTime] is still the initial [0]. *)
Definition initial : State :=
  {| renderTimes := []; renderCount := 0; lastRenderTime := None |}.

(** [[...prev, duration].slice(-50)]; [slice] without an end runs to the
    length. *)
Definition newTimes (prev : list D) (duration : D) : list D :=
  let l := prev ++ [duration] in
  Js.slice (-50) (Z.of_nat (length l)) l.

(** The state updates of [endTiming(startTime)] for a measured
    [duration]. *)
Definition endTiming (duration : D) (st : State) : State :=
  {| renderTimes := newTimes (renderTimes st) duration;
     renderCount := renderCount st + 1;
     lastRenderTime := Some duration |}.

Definition after (durations : list D) : State :=
  foldl (λ st d, endTiming d st) initial durations.
End Perf.
End Perf.

(** ** WebSocketService, direct sends and counters *)

Module ServiceDirect.
Import Wire Service.

(** The socket an event comes from. *)
Definition socketOf (e : ClientEvent) : string :=
  match e with
  | connection sid | authenticate sid _ _ | join_order_room sid _
  | leave_order_room sid _ | disconnect sid => sid
  end.

(** [getConnectedUsersCount()]. *)
Definition getConnectedUsersCount (s : Service) : nat := size (connectedUsers s).

(** The two counts reported by [sendSystemStats]: [connectedUsers.size] and
    [userSessions.size]. *)
Definition statsCounts (s : Service) : nat * nat :=
  (size (connectedUsers s), size (userSessions s)).

(** [sendNotificationToUser(socketId, notification)]: the deliveries made,
    none when [connectedUsers] has no socket under that id. *)
Definition sendNotificationToUser (s : Service) (socketId : string)
    (n : NotificationMessage) : list (string * Message) :=
  if decide (socketId ∈ connectedUsers s) then [(socketId, notification n)] else [].

(** The sockets reached by [socket.to(`order_${orderId}`).emit(..)] in the
    [typing_start] and [typing_stop] handlers: the room without the
    sender. *)
Definition typingRecipients (s : Service) (sid orderId : string) : gset string :=
  membersOf s (orderRoom orderId) ∖ {[ sid ]}.

End ServiceDirect.

(** ** Invariants and sample inputs *)

Section CacheSpec.
Context {T : Type}.
Implicit Types (c : Cache.AdvancedCache T) (k : string).

(** The representation invariant of a cache object: the map has one entry
    per key, every entry records its own key, and the recency set holds
    exactly the keys of the map. *)
Record wf c : Prop := {
  wf_keys : NoDup (Cache.cache c).*1;
  wf_key_field : Forall (λ p, Cache.key p.2 = p.1) (Cache.cache c);
  wf_order : NoDup (Cache.accessOrder c);
  wf_same : ∀ x, x ∈ Cache.accessOrder c ↔ x ∈ (Cache.cache c).*1
}.

(** What [export()] writes for an entry. *)
Definition exported (item : Cache.CacheItem T) : Cache.Exported T :=
  {| Cache.x_data := Cache.data item;
     Cache.x_timestamp := Cache.timestamp item;
     Cache.x_expiresAt := Cache.expiresAt item |}.

(** What [import()] stores for a property of the record. *)
Definition imported k (x : Cache.Exported T) : Cache.CacheItem T :=
  {| Cache.data := Cache.x_data x;
     Cache.timestamp := Cache.x_timestamp x;
     Cache.expiresAt := Cache.x_expiresAt x;
     Cache.key := k |}.

(** The keys whose recency mark one operation renews on [c], oldest first:
    [set] always, [get] when it returns a value, [import] for every entry it
    stores. *)
Definition touches c (e : Z * @Cache.op T) : list string :=
  match e.2 with
  | Cache.OpSet k _ _ => [k]
  | Cache.OpGet k => match (Cache.get e.1 k c).1 with Some _ => [k] | None => [] end
  | Cache.OpImport rec =>
      (filter (λ p, Cache.x_expiresAt p.2 ≠ 0 ∧ e.1 <= Cache.x_expiresAt p.2) rec).*1
  | _ => []
  end.

(** A cache together with the touches made so far. *)
Definition step_log (s : Cache.AdvancedCache T * list string) (e : Z * @Cache.op T)
    : Cache.AdvancedCache T * list string :=
  (Cache.step s.1 e, s.2 ++ touches s.1 e).

(** Every touch made by a sequence of operations on a new cache, in order. *)
Definition history (cfg : Cache.CacheConfig) (tr : list (Z * @Cache.op T)) : list string :=
  (foldl step_log (Cache.create cfg, []) tr).2.

(** A list of touches reduced to the last touch of each key. *)
Fixpoint keep_last (l : list string) : list string :=
  match l with
  | [] => []
  | x :: l' => if decide (x ∈ l') then keep_last l' else x :: keep_last l'
  end.

(** The recency set lists the stored keys by their last touch in [h]. *)
Definition tracks c (h : list string) : Prop :=
  Cache.accessOrder c = keep_last (filter (λ x, x ∈ (Cache.cache c).*1) h).

(** The expiry timestamp that a sequence of operations recorded last for
    [k], read off the calls alone: [set(k, ..)] at [t] records [t] plus the
    age in force, [import] at [t] records the expiry of every property under
    [k] that it accepts, and no other operation records anything. *)
Definition recorded_step (cfg : Cache.CacheConfig) k (r : option Z) (e : Z * @Cache.op T)
    : option Z :=
  match e.2 with
  | Cache.OpSet k' _ a =>
      if decide (k' = k)
      then Some (e.1 + match a with
                       | Some age => if decide (age = 0) then Cache.maxAge cfg else age
                       | None => Cache.maxAge cfg
                       end)
      else r
  | Cache.OpImport rec =>
      foldl (λ r p, if decide (p.1 = k ∧ Cache.x_expiresAt p.2 ≠ 0
                               ∧ e.1 <= Cache.x_expiresAt p.2)
                    then Some (Cache.x_expiresAt p.2) else r) r rec
  | _ => r
  end.

Definition recorded (cfg : Cache.CacheConfig) (tr : list (Z * @Cache.op T)) k : option Z :=
  foldl (recorded_step cfg k) None tr.

(** Operations that neither restore a snapshot nor store under the empty
    key. *)
Definition plain (e : Z * @Cache.op T) : Prop :=
  match e.2 with
  | Cache.OpImport _ => False
  | Cache.OpSet k _ _ => k ≠ ""
  | _ => True
  end.

End CacheSpec.

Module Samples.
Import Cache.

Definition cfg1 : CacheConfig := {| maxAge := 300000; maxSize := 1 |}.

(** [set("a", 1)] at 1000 on a cache of capacity one, then its snapshot. *)
Definition one_entry : AdvancedCache Z := run cfg1 [(1000, OpSet "a" 1 None)].
Definition one_entry_snapshot : list (string * Exported Z) := export 1001 one_entry.

(** [set("a",1); export(); set("b",2); import(snapshot)] on one cache. *)
Definition restore_trace : list (Z * @op Z) :=
  [ (1000, OpSet "a" 1 None); (1001, OpExport);
    (1002, OpSet "b" 2 None); (1003, OpImport one_entry_snapshot) ].

(** [set("", 1); set("a", 2)] on a cache of capacity one. *)
Definition empty_key_trace : list (Z * @op Z) :=
  [ (1000, OpSet "" 1 None); (1001, OpSet "a" 2 None) ].

(** [set("__proto__", 1)] on a new cache. *)
Definition proto_trace : list (Z * @op Z) := [ (1000, OpSet "__proto__" 1 None) ].

(** The items of the examples of the specification: [{id, amount}], keyed
    by [id]. *)
Record Order := { id : string; amount : Z }.

(** An order is an object, and every object is truthy. *)
Definition truthy (o : Order) : bool := true.

Definition orders (l : list Order) : Tracker.State Order :=
  {| Tracker.data := l; Tracker.optimisticOperations := ∅ |}.

(** Two items sharing the key ["o2"], followed by a third item. *)
Definition shared_key : list Order :=
  [ {| id := "o2"; amount := 1 |}; {| id := "o2"; amount := 2 |};
    {| id := "o3"; amount := 3 |} ].

(** The example of the specification: an update of order ["o3"], one
    authenticated socket that joined its room and one that did not. *)
Definition o3_update : Wire.OrderUpdate :=
  {| Wire.orderId := "o3"; Wire.status := "SHIPPED"; Wire.customerName := "Ann";
     Wire.timestamp := "2024-01-01T00:00:00.000Z"; Wire.amount := 10;
     Wire.type := Wire.status_changed |}.

Definition two_sockets : list Service.ClientEvent :=
  [ Service.connection "s1"; Service.authenticate "s1" "u1" "Ann";
    Service.join_order_room "s1" "o3";
    Service.connection "s2"; Service.authenticate "s2" "u2" "Bob" ].

End Samples.

(** * Properties *)

(** ** Container lemmas *)

Section JsMapFacts.
Context {V : Type}.
Implicit Types (m : list (string * V)) (k : string).

Lemma get_set k k' (v : V) m :
  JsMap.get k (JsMap.set k' v m) = if decide (k = k') then Some v else JsMap.get k m.
Proof.
  induction m as [|[k0 v0] m IH]; simpl.
  - destruct (decide (k = k')); reflexivity.
  - destruct (decide (k' = k0)) as [->|Hne]; simpl.
    + destruct (decide (k = k0)); reflexivity.
    + rewrite IH. destruct (decide (k = k0)) as [->|]; [|reflexivity].
      destruct (decide (k0 = k')); congruence.
Qed.

Lemma get_delete k k' m :
  JsMap.get k (JsMap.delete k' m) = if decide (k = k') then None else JsMap.get k m.
Proof.
  unfold JsMap.delete. induction m as [|[k0 v0] m IH]; simpl.
  - destruct (decide (k = k')); reflexivity.
  - rewrite filter_cons. simpl. destruct (decide (k0 ≠ k')) as [Hne|Heq]; simpl.
    + rewrite IH. destruct (decide (k = k0)) as [->|]; [|reflexivity].
      destruct (decide (k0 = k')); congruence.
    + apply dec_stable in Heq. subst k0. rewrite IH.
      destruct (decide (k = k')); reflexivity.
Qed.

Lemma get_None k m : JsMap.get k m = None ↔ k ∉ m.*1.
Proof.
  induction m as [|[k0 v0] m IH]; simpl.
  - split; [intros _; apply not_elem_of_nil | reflexivity].
  - rewrite not_elem_of_cons. destruct (decide (k = k0)) as [->|Hne].
    + split; [discriminate | intros [? _]; congruence].
    + rewrite IH. split; [by split | by intros [_ ?]].
Qed.

Lemma get_Some_elem k v m : JsMap.get k m = Some v → (k, v) ∈ m.
Proof.
  induction m as [|[k0 v0] m IH]; simpl; [discriminate|].
  destruct (decide (k = k0)) as [->|].
  - intros [= ->]. left.
  - intros H. right. auto.
Qed.

Lemma elem_get k v m : NoDup m.*1 → (k, v) ∈ m → JsMap.get k m = Some v.
Proof.
  induction m as [|[k0 v0] m IH]; simpl; intros Hnd Hin.
  - by apply elem_of_nil in Hin.
  - apply NoDup_cons in Hnd as [Hk0 Hnd]. apply elem_of_cons in Hin as [Heq|Hin].
    + injection Heq as -> ->. by rewrite decide_True.
    + rewrite decide_False; [auto|]. intros ->. apply Hk0.
      apply list_elem_of_fmap. by exists (k0, v).
Qed.

Lemma keys_set k (v : V) m :
  (JsMap.set k v m).*1 = if decide (k ∈ m.*1) then m.*1 else m.*1 ++ [k].
Proof.
  induction m as [|[k0 v0] m IH].
  - cbn [JsMap.set fmap list_fmap fst].
    destruct (decide (k ∈ [])) as [Hin|_]; [|reflexivity].
    by apply elem_of_nil in Hin.
  - cbn [JsMap.set]. rewrite fmap_cons. cbn [fst].
    destruct (decide (k = k0)) as [->|Hne].
    + rewrite fmap_cons. cbn [fst].
      destruct (decide (k0 ∈ k0 :: m.*1)) as [_|Hnin]; [reflexivity|].
      exfalso. apply Hnin. left.
    + rewrite fmap_cons, IH. cbn [fst].
      destruct (decide (k ∈ m.*1)) as [Hin|Hnin];
        destruct (decide (k ∈ k0 :: m.*1)) as [Hin'|Hnin']; try reflexivity.
      * exfalso. apply Hnin'. by right.
      * apply elem_of_cons in Hin' as [?|?]; congruence.
Qed.

Lemma keys_delete k m : (JsMap.delete k m).*1 = filter (λ x, x ≠ k) m.*1.
Proof.
  unfold JsMap.delete. induction m as [|[k0 v0] m IH]; [reflexivity|].
  rewrite fmap_cons, !filter_cons. simpl.
  destruct (decide (k0 ≠ k)); [|exact IH].
  rewrite fmap_cons. cbn [fst]. f_equal. exact IH.
Qed.

Lemma NoDup_keys_set k (v : V) m : NoDup m.*1 → NoDup (JsMap.set k v m).*1.
Proof.
  intros Hnd. rewrite keys_set. destruct (decide (k ∈ m.*1)); [done|].
  apply NoDup_app. split_and!; [done | | apply NoDup_singleton].
  intros x Hx Hx'. apply list_elem_of_singleton in Hx'. by subst.
Qed.

Lemma NoDup_keys_delete k m : NoDup m.*1 → NoDup (JsMap.delete k m).*1.
Proof. intros Hnd. rewrite keys_delete. by apply NoDup_filter. Qed.

Lemma length_delete_le k m : (length (JsMap.delete k m) ≤ length m)%nat.
Proof. apply length_filter. Qed.
End JsMapFacts.

Section JsSetFacts.
Implicit Types (s : list string) (k : string).

Lemma touch_eq k s :
  JsSet.add k (JsSet.delete k s) = filter (λ x, x ≠ k) s ++ [k].
Proof.
  unfold JsSet.add, JsSet.delete. rewrite decide_False; [reflexivity|].
  rewrite list_elem_of_filter. naive_solver.
Qed.

Lemma elem_of_touch x k s :
  x ∈ JsSet.add k (JsSet.delete k s) ↔ x = k ∨ x ∈ s.
Proof.
  rewrite touch_eq, elem_of_app, list_elem_of_filter, list_elem_of_singleton.
  destruct (decide (x = k)); naive_solver.
Qed.

Lemma NoDup_touch k s : NoDup s → NoDup (JsSet.add k (JsSet.delete k s)).
Proof.
  intros Hnd. rewrite touch_eq. apply NoDup_app. split_and!.
  - by apply NoDup_filter.
  - intros x Hx Hx'. apply list_elem_of_filter in Hx as [Hx _].
    by apply list_elem_of_singleton in Hx'.
  - apply NoDup_singleton.
Qed.
End JsSetFacts.

Section JsObjectFacts.
Context {V : Type}.
Implicit Types (o : list (string * V)) (k : string).

Lemma get_insertIndex i k k' (v : V) o :
  k' ∉ o.*1 →
  JsMap.get k (JsObject.insertIndex i k' v o)
    = if decide (k = k') then Some v else JsMap.get k o.
Proof.
  induction o as [|[k0 v0] o IH]; intros Hk'; [reflexivity|].
  rewrite fmap_cons in Hk'. cbn [fst] in Hk'. apply not_elem_of_cons in Hk' as [Hne Hk'].
  cbn [JsObject.insertIndex]. destruct (JsObject.arrayIndex k0) as [j|]; [|reflexivity].
  destruct (decide (j < i)%N); [|reflexivity]. cbn [JsMap.get]. rewrite IH by done.
  destruct (decide (k = k0)) as [->|]; [|reflexivity]. by rewrite decide_False.
Qed.

Lemma get_snoc_fresh k k' (v : V) o :
  k' ∉ o.*1 →
  JsMap.get k (o ++ [(k', v)]) = if decide (k = k') then Some v else JsMap.get k o.
Proof.
  induction o as [|[k0 v0] o IH]; intros Hk'; [reflexivity|].
  rewrite fmap_cons in Hk'. cbn [fst] in Hk'. apply not_elem_of_cons in Hk' as [Hne Hk'].
  cbn [app JsMap.get]. rewrite IH by done.
  destruct (decide (k = k0)) as [->|]; [|reflexivity]. by rewrite decide_False.
Qed.

(** Reading a property after an assignment. *)
Lemma get_assign k k' (v : V) o :
  JsMap.get k (JsObject.assign k' v o)
    = if decide (k = k' ∧ k' ≠ "__proto__") then Some v else JsMap.get k o.
Proof.
  unfold JsObject.assign. destruct (decide (k' = "__proto__")) as [Hp|Hp].
  - rewrite decide_False; [done | tauto].
  - assert (Hd : ∀ (X : option V), (if decide (k = k' ∧ k' ≠ "__proto__") then Some v else X)
                   = (if decide (k = k') then Some v else X)).
    { intros X. destruct (decide (k = k')); [rewrite decide_True | rewrite decide_False]; tauto. }
    rewrite Hd. destruct (decide (k' ∈ o.*1)); [apply get_set|].
    destruct (JsObject.arrayIndex k'); [by apply get_insertIndex | by apply get_snoc_fresh].
Qed.

Lemma keys_insertIndex i k (v : V) o : (JsObject.insertIndex i k v o).*1 ≡ₚ k :: o.*1.
Proof.
  induction o as [|[k0 v0] o IH]; [reflexivity|]. cbn [JsObject.insertIndex].
  destruct (JsObject.arrayIndex k0) as [j|]; [|reflexivity].
  destruct (decide (j < i)%N); [|reflexivity].
  rewrite !fmap_cons, IH. cbn [fst]. apply Permutation_swap.
Qed.

(** The own keys after an assignment. *)
Lemma keys_assign k (v : V) o :
  (JsObject.assign k v o).*1
    ≡ₚ if decide (k ≠ "__proto__" ∧ k ∉ o.*1) then k :: o.*1 else o.*1.
Proof.
  unfold JsObject.assign. destruct (decide (k = "__proto__")) as [Hp|Hp].
  - rewrite decide_False; [done | tauto].
  - destruct (decide (k ∈ o.*1)) as [Hin|Hin].
    + rewrite decide_False by tauto. rewrite keys_set. by rewrite decide_True.
    + rewrite decide_True by tauto. destruct (JsObject.arrayIndex k).
      * apply keys_insertIndex.
      * rewrite fmap_app. cbn. symmetry. apply Permutation_cons_append.
Qed.

Lemma NoDup_keys_assign k (v : V) o : NoDup o.*1 → NoDup (JsObject.assign k v o).*1.
Proof.
  intros Hnd. rewrite keys_assign. destruct (decide _) as [[_ Hk]|]; [|done].
  by apply NoDup_cons.
Qed.
Lemma arrayIndex_proto : JsObject.arrayIndex "__proto__" = None.
Proof. reflexivity. Qed.

Lemma insertIndex_perm i k (v : V) o : JsObject.insertIndex i k v o ≡ₚ (k, v) :: o.
Proof.
  induction o as [|[k0 v0] o IH]; [reflexivity|]. cbn [JsObject.insertIndex].
  destruct (JsObject.arrayIndex k0) as [j|]; [|reflexivity].
  destruct (decide (j < i)%N); [|reflexivity]. rewrite IH. apply Permutation_swap.
Qed.

Lemma insertIndex_named i k (v : V) o :
  JsObject.arrayIndex k = Some i →
  filter (λ q, JsObject.arrayIndex q.1 = None) (JsObject.insertIndex i k v o)
  = filter (λ q, JsObject.arrayIndex q.1 = None) o.
Proof.
  intros Hk. induction o as [|[k0 v0] o IH].
  - cbn [JsObject.insertIndex]. rewrite filter_cons_False; [done|]. cbn. by rewrite Hk.
  - cbn [JsObject.insertIndex]. destruct (JsObject.arrayIndex k0) as [j|] eqn:Hk0.
    + destruct (decide (j < i)%N).
      * rewrite !(filter_cons_False _ (k0, v0)) by (cbn; by rewrite Hk0). exact IH.
      * rewrite filter_cons_False; [done|]. cbn. by rewrite Hk.
    + rewrite filter_cons_False; [done|]. cbn. by rewrite Hk.
Qed.

(** An assignment under a new name: the property is added, and the
    properties under names that are no array index keep their order, a new
    one going last. *)
Lemma assign_fresh_perm k (v : V) o :
  k ∉ o.*1 →
  JsObject.assign k v o ≡ₚ if decide (k ≠ "__proto__") then o ++ [(k, v)] else o.
Proof.
  intros Hk. unfold JsObject.assign. destruct (decide (k = "__proto__")) as [Hp|Hp].
  - by rewrite decide_False by tauto.
  - rewrite (decide_True (P := k ≠ "__proto__")) by done.
    rewrite (decide_False (P := k ∈ o.*1)) by done.
    destruct (JsObject.arrayIndex k); [|done].
    rewrite insertIndex_perm. apply Permutation_cons_append.
Qed.

Lemma assign_fresh_named k (v : V) o :
  k ∉ o.*1 →
  filter (λ q, JsObject.arrayIndex q.1 = None) (JsObject.assign k v o)
  = filter (λ q, JsObject.arrayIndex q.1 = None) o
    ++ (if decide (JsObject.arrayIndex k = None ∧ k ≠ "__proto__") then [(k, v)] else []).
Proof.
  intros Hk. unfold JsObject.assign. destruct (decide (k = "__proto__")) as [Hp|Hp].
  - rewrite decide_False by tauto. by rewrite app_nil_r.
  - rewrite (decide_False (P := k ∈ o.*1)) by done.
    destruct (JsObject.arrayIndex k) as [i|] eqn:Hi.
    + rewrite decide_False by (intros [? _]; done). rewrite app_nil_r.
      by apply insertIndex_named.
    + rewrite decide_True by done. rewrite filter_app. f_equal.
      rewrite filter_cons_True by (cbn; done). done.
Qed.

Lemma before_index_named k k' :
  JsObject.arrayIndex k' = None → JsObject.before k k'.
Proof. intros Hk'. unfold JsObject.before. rewrite Hk'. by destruct (JsObject.arrayIndex k). Qed.

Lemma sorted_insertIndex i k (v : V) o :
  JsObject.arrayIndex k = Some i →
  StronglySorted JsObject.before o.*1 →
  StronglySorted JsObject.before (JsObject.insertIndex i k v o).*1.
Proof.
  intros Hk. induction o as [|[k0 v0] o IH]; intros Hs.
  - cbn. repeat constructor.
  - rewrite fmap_cons in Hs. cbn [fst] in Hs.
    pose proof Hs as Hs0. apply StronglySorted_inv in Hs as [Hs Hall].
    cbn [JsObject.insertIndex]. destruct (JsObject.arrayIndex k0) as [j|] eqn:Hk0.
    + destruct (decide (j < i)%N) as [Hlt|Hge].
      * rewrite fmap_cons. cbn [fst]. constructor; [by apply IH|].
        rewrite keys_insertIndex. constructor; [|done].
        unfold JsObject.before. rewrite Hk0, Hk. lia.
      * rewrite !fmap_cons. cbn [fst]. constructor; [done|]. constructor.
        -- unfold JsObject.before. rewrite Hk0, Hk. lia.
        -- eapply Forall_impl; [exact Hall|]. intros x. unfold JsObject.before.
           rewrite Hk0, Hk. destruct (JsObject.arrayIndex x); [lia | done].
    + rewrite !fmap_cons. cbn [fst]. constructor; [done|]. constructor.
      * by apply before_index_named.
      * eapply Forall_impl; [exact Hall|]. intros x. unfold JsObject.before.
        rewrite Hk0, Hk. by destruct (JsObject.arrayIndex x).
Qed.

Lemma sorted_snoc k (v : V) o :
  JsObject.arrayIndex k = None →
  StronglySorted JsObject.before o.*1 →
  StronglySorted JsObject.before (o ++ [(k, v)]).*1.
Proof.
  intros Hk. induction o as [|[k0 v0] o IH]; intros Hs.
  - cbn. repeat constructor.
  - rewrite fmap_cons in Hs. cbn [fst] in Hs. apply StronglySorted_inv in Hs as [Hs Hall].
    cbn [app]. rewrite fmap_cons. cbn [fst]. constructor; [by apply IH|].
    rewrite fmap_app. apply Forall_app. split; [done|].
    constructor; [by apply before_index_named | constructor].
Qed.

(** Assignments keep the enumeration order: array indices first, by
    value, then the other names. *)
Lemma sorted_assign k (v : V) o :
  StronglySorted JsObject.before o.*1 →
  StronglySorted JsObject.before (JsObject.assign k v o).*1.
Proof.
  intros Hs. unfold JsObject.assign. destruct (decide (k = "__proto__")); [done|].
  destruct (decide (k ∈ o.*1)) as [Hin|Hin].
  - rewrite keys_set. by rewrite decide_True.
  - destruct (JsObject.arrayIndex k) as [i|] eqn:Hi;
      [by apply sorted_insertIndex | by apply sorted_snoc].
Qed.
End JsObjectFacts.

(** ** AdvancedCache *)

Section CacheFacts.
Context {T : Type}.
Implicit Types (c : Cache.AdvancedCache T) (k : string) (now : Z).

Lemma wf_create cfg : wf (Cache.create (T:=T) cfg).
Proof. split; simpl; [apply NoDup_nil_2 | apply Forall_nil_2 | apply NoDup_nil_2 | done]. Qed.

Lemma wf_clear c : wf (Cache.clear c).
Proof. split; simpl; [apply NoDup_nil_2 | apply Forall_nil_2 | apply NoDup_nil_2 | done]. Qed.

Lemma wf_delete k c : wf c → wf (Cache.delete k c).
Proof.
  intros [H1 H2 H3 H4]. split; simpl.
  - by apply NoDup_keys_delete.
  - apply Forall_forall. intros p Hp. apply list_elem_of_filter in Hp as [_ Hp].
    by apply (proj1 (Forall_forall _ _) H2).
  - by apply NoDup_filter.
  - intros x. rewrite keys_delete. unfold JsSet.delete.
    rewrite !list_elem_of_filter, H4. done.
Qed.

Lemma wf_foldl_delete (ks : list string) c :
  wf c → wf (foldl (λ acc k, Cache.delete k acc) c ks).
Proof. revert c. induction ks as [|k ks IH]; intros c Hc; simpl; auto using wf_delete. Qed.

Lemma wf_cleanup now c : wf c → wf (Cache.cleanup now c).
Proof. apply wf_foldl_delete. Qed.

Lemma wf_evict c : wf c → wf (Cache.evict c).
Proof.
  intros Hc. unfold Cache.evict. destruct (decide _); [|done].
  destruct (JsSet.first _) as [lruKey|]; [|done].
  destruct (decide _); auto using wf_delete.
Qed.

(** Storing an entry under [k] whose [key] field is [k], then touching [k]. *)
Lemma wf_store k (item : Cache.CacheItem T) c :
  Cache.key item = k → wf c →
  wf (Cache.updateAccessOrder k
        {| Cache.cache := JsMap.set k item (Cache.cache c);
           Cache.accessOrder := Cache.accessOrder c;
           Cache.config := Cache.config c |}).
Proof.
  intros Hk [H1 H2 H3 H4]. split; simpl.
  - by apply NoDup_keys_set.
  - clear H1 H4. induction H2 as [|[k0 v0] m Hx Hm IH]; simpl.
    + by apply Forall_singleton.
    + destruct (decide (k = k0)) as [->|]; apply Forall_cons; auto.
  - by apply NoDup_touch.
  - intros x. rewrite elem_of_touch, keys_set, H4.
    destruct (decide (k ∈ _)) as [Hin|Hnin].
    + split; [intros [->|?]; done | auto].
    + rewrite elem_of_app, list_elem_of_singleton. tauto.
Qed.

Lemma wf_set now k d a c : wf c → wf (Cache.set now k d a c).
Proof.
  intros Hc. unfold Cache.set. apply wf_store; [reflexivity|].
  by apply wf_evict, wf_cleanup.
Qed.

Lemma wf_touch k c : wf c → k ∈ (Cache.cache c).*1 → wf (Cache.updateAccessOrder k c).
Proof.
  intros [H1 H2 H3 H4] Hin. split; simpl; [done | done | by apply NoDup_touch |].
  intros x. rewrite elem_of_touch, H4. split; [intros [->|?]; done | auto].
Qed.

Lemma wf_get now k c : wf c → wf (Cache.get now k c).2.
Proof.
  intros Hc. unfold Cache.get. destruct (JsMap.get k _) as [item|] eqn:Hg; [|done].
  destruct (decide _); simpl; [by apply wf_delete|].
  apply wf_touch; [done|]. apply get_Some_elem in Hg.
  apply list_elem_of_fmap. by exists (k, item).
Qed.

Lemma wf_has now k c : wf c → wf (Cache.has now k c).2.
Proof.
  intros Hc. unfold Cache.has. destruct (JsMap.get k _) as [item|]; [|done].
  destruct (decide _); simpl; [by apply wf_delete | done].
Qed.

Lemma wf_import_entry now c p : wf c → wf (Cache.import_entry now c p).
Proof.
  intros Hc. unfold Cache.import_entry. destruct (decide _); [|done].
  by apply wf_store.
Qed.

Lemma wf_import now rec c : wf c → wf (Cache.import now rec c).
Proof.
  unfold Cache.import. revert c.
  induction rec as [|p rec IH]; intros c Hc; simpl; auto using wf_import_entry.
Qed.

Lemma wf_step c e : wf c → wf (Cache.step c e).
Proof.
  intros Hc. unfold Cache.step. destruct e.2; simpl;
    auto using wf_set, wf_get, wf_has, wf_delete, wf_clear, wf_cleanup, wf_import.
Qed.

(** Every cache reached from a new one is well formed. *)
Lemma wf_run cfg tr : wf (Cache.run (T:=T) cfg tr).
Proof.
  unfold Cache.run. generalize (wf_create cfg) as Hc.
  generalize (Cache.create (T:=T) cfg) as c.
  induction tr as [|e tr IH]; intros c Hc; simpl; auto using wf_step.
Qed.
End CacheFacts.

Section CacheLookup.
Context {T : Type}.
Implicit Types (c : Cache.AdvancedCache T) (k : string) (now : Z).

Lemma delete_absent k c :
  JsMap.get k (Cache.cache (Cache.delete k c)) = None
  ∧ k ∉ Cache.accessOrder (Cache.delete k c).
Proof.
  split; simpl.
  - rewrite get_delete. by rewrite decide_True.
  - unfold JsSet.delete. rewrite list_elem_of_filter. tauto.
Qed.

Lemma get_missing now k c :
  JsMap.get k (Cache.cache c) = None → Cache.get now k c = (None, c).
Proof. intros H. unfold Cache.get. by rewrite H. Qed.

Lemma get_expired now k c item :
  JsMap.get k (Cache.cache c) = Some item → Cache.expiresAt item < now →
  Cache.get now k c = (None, Cache.delete k c).
Proof. intros H Hexp. unfold Cache.get. rewrite H. by rewrite decide_True. Qed.

(** A value returned by [get] belongs to an entry that has not expired. *)
Lemma get_live now k c (v : T) :
  (Cache.get now k c).1 = Some v →
  ∃ item, JsMap.get k (Cache.cache c) = Some item
          ∧ Cache.data item = v ∧ now <= Cache.expiresAt item.
Proof.
  unfold Cache.get. destruct (JsMap.get k _) as [item|]; [|discriminate].
  destruct (decide _) as [|Hlive]; simpl; [discriminate|].
  intros [= <-]. exists item. split_and!; [done | done | lia].
Qed.

Lemma get_export_acc now (m : list (string * Cache.CacheItem T)) acc k :
  NoDup m.*1 →
  JsMap.get k
    (foldl (λ rec p,
              if decide (now <= Cache.expiresAt p.2)
              then JsObject.assign p.1 (exported p.2) rec else rec) acc m)
  = match JsMap.get k m with
    | Some item =>
        if decide (now <= Cache.expiresAt item ∧ k ≠ "__proto__")
        then Some (exported item) else JsMap.get k acc
    | None => JsMap.get k acc
    end.
Proof.
  revert acc. induction m as [|[k0 v0] m IH]; intros acc Hnd; [reflexivity|].
  rewrite fmap_cons in Hnd. apply NoDup_cons in Hnd as [Hk0 Hnd].
  cbn [fst] in Hk0. cbn [foldl JsMap.get fst snd]. rewrite IH by done.
  destruct (decide (k = k0)) as [->|Hne].
  - apply get_None in Hk0. rewrite Hk0.
    destruct (decide (now <= Cache.expiresAt v0)) as [Hl|Hl].
    + rewrite get_assign.
      destruct (decide (k0 ≠ "__proto__")) as [Hp|Hp].
      * by rewrite !decide_True by tauto.
      * by rewrite !decide_False by tauto.
    + by rewrite decide_False by tauto.
  - assert (Hacc : JsMap.get k (if decide (now <= Cache.expiresAt v0)
                                then JsObject.assign k0 (exported v0) acc else acc)
                   = JsMap.get k acc).
    { destruct (decide _); [|reflexivity]. rewrite get_assign. rewrite decide_False; tauto. }
    by rewrite Hacc.
Qed.

Lemma get_export now c k :
  NoDup (Cache.cache c).*1 →
  JsMap.get k (Cache.export now c)
  = match JsMap.get k (Cache.cache c) with
    | Some item =>
        if decide (now <= Cache.expiresAt item ∧ k ≠ "__proto__")
        then Some (exported item) else None
    | None => None
    end.
Proof. intros Hnd. exact (get_export_acc now _ [] k Hnd). Qed.

Lemma NoDup_export now c : NoDup (Cache.export now c).*1.
Proof.
  unfold Cache.export.
  assert (Hacc : NoDup ([] : list (string * Cache.Exported T)).*1) by apply NoDup_nil_2.
  revert Hacc. generalize ([] : list (string * Cache.Exported T)) as acc.
  induction (Cache.cache c) as [|p m IH]; intros acc Hacc; [done|].
  cbn [foldl]. apply IH. destruct (decide _); [|done]. by apply NoDup_keys_assign.
Qed.

Lemma get_import now (rec : list (string * Cache.Exported T)) c k :
  NoDup rec.*1 →
  JsMap.get k (Cache.cache (Cache.import now rec c))
  = match JsMap.get k rec with
    | Some x =>
        if decide (Cache.x_expiresAt x ≠ 0 ∧ now <= Cache.x_expiresAt x)
        then Some (imported k x) else JsMap.get k (Cache.cache c)
    | None => JsMap.get k (Cache.cache c)
    end.
Proof.
  unfold Cache.import. revert c.
  induction rec as [|[k0 x0] rec IH]; intros c Hnd; [reflexivity|].
  rewrite fmap_cons in Hnd. apply NoDup_cons in Hnd as [Hk0 Hnd].
  cbn [fst] in Hk0. cbn [foldl JsMap.get fst snd]. rewrite IH by done.
  assert (Hstep : ∀ k', JsMap.get k' (Cache.cache (Cache.import_entry now c (k0, x0)))
            = if decide (Cache.x_expiresAt x0 ≠ 0 ∧ now <= Cache.x_expiresAt x0)
              then (if decide (k' = k0) then Some (imported k0 x0) else JsMap.get k' (Cache.cache c))
              else JsMap.get k' (Cache.cache c)).
  { intros k'. unfold Cache.import_entry. cbn [fst snd].
    destruct (decide _); [|reflexivity]. cbn [Cache.cache Cache.updateAccessOrder].
    by rewrite get_set. }
  destruct (decide (k = k0)) as [->|Hne].
  - apply get_None in Hk0. rewrite Hk0, Hstep.
    destruct (decide _); [|reflexivity]. by rewrite decide_True.
  - destruct (JsMap.get k rec) as [x|]; [destruct (decide (_ ∧ _)); [reflexivity|]|];
      rewrite Hstep; (destruct (decide (_ ∧ _)); [|reflexivity]); by rewrite decide_False.
Qed.
End CacheLookup.

(** *** Capacity *)

Section CacheCapacity.
Context {T : Type}.
Implicit Types (c : Cache.AdvancedCache T) (k : string) (now : Z).

Lemma length_set_le {V : Type} k (v : V) (m : list (string * V)) :
  (length (JsMap.set k v m) ≤ S (length m))%nat.
Proof.
  induction m as [|[k0 v0] m IH]; simpl; [lia|].
  destruct (decide (k = k0)); simpl; lia.
Qed.

Lemma filter_all {A : Type} (P : A → Prop) `{!∀ x, Decision (P x)} (l : list A) :
  (∀ x, x ∈ l → P x) → filter P l = l.
Proof.
  induction l as [|a l IH]; intros Hall; [done|].
  rewrite filter_cons_True by (apply Hall; left). f_equal. apply IH.
  intros x Hx. apply Hall. by right.
Qed.

Lemma filter_none {A : Type} (P : A → Prop) `{!∀ x, Decision (P x)} (l : list A) :
  (∀ x, x ∈ l → ¬ P x) → filter P l = [].
Proof.
  induction l as [|a l IH]; intros Hall; [done|].
  rewrite filter_cons_False by (apply Hall; left). apply IH.
  intros x Hx. apply Hall. by right.
Qed.

Lemma length_delete_present {V : Type} k (m : list (string * V)) :
  NoDup m.*1 → k ∈ m.*1 → S (length (JsMap.delete k m)) = length m.
Proof.
  unfold JsMap.delete. induction m as [|[k0 v0] m IH]; intros Hnd Hin.
  - by apply elem_of_nil in Hin.
  - rewrite fmap_cons in Hnd, Hin. cbn [fst] in Hnd, Hin.
    apply NoDup_cons in Hnd as [Hk0 Hnd]. rewrite filter_cons. cbn [fst].
    destruct (decide (k0 ≠ k)) as [Hne|Heq].
    + apply elem_of_cons in Hin as [->|Hin]; [done|]. cbn [length]. by rewrite IH.
    + apply dec_stable in Heq. subst k0. cbn [length]. f_equal.
      rewrite filter_all; [done|].
      intros [k1 v1] Hp. cbn [fst]. intros ->.
      apply Hk0. apply list_elem_of_fmap. by exists (k, v1).
Qed.

Lemma size_delete_le k c : Cache.size (Cache.delete k c) <= Cache.size c.
Proof.
  unfold Cache.size, JsMap.size. simpl.
  pose proof (length_delete_le k (Cache.cache c)). lia.
Qed.

Lemma keys_delete_subset k c x :
  x ∈ (Cache.cache (Cache.delete k c)).*1 → x ∈ (Cache.cache c).*1.
Proof. simpl. rewrite keys_delete, list_elem_of_filter. tauto. Qed.

Lemma config_foldl_delete (ks : list string) c :
  Cache.config (foldl (λ acc k, Cache.delete k acc) c ks) = Cache.config c.
Proof. revert c. induction ks as [|k ks IH]; intros c; simpl; [done|]. by rewrite IH. Qed.

Lemma size_foldl_delete_le (ks : list string) c :
  Cache.size (foldl (λ acc k, Cache.delete k acc) c ks) <= Cache.size c.
Proof.
  revert c. induction ks as [|k ks IH]; intros c; simpl; [lia|].
  pose proof (IH (Cache.delete k c)). pose proof (size_delete_le k c). lia.
Qed.

Lemma keys_foldl_delete_subset (ks : list string) c x :
  x ∈ (Cache.cache (foldl (λ acc k, Cache.delete k acc) c ks)).*1 → x ∈ (Cache.cache c).*1.
Proof.
  revert c. induction ks as [|k ks IH]; intros c; simpl; [done|].
  intros Hx. apply IH in Hx. by eapply keys_delete_subset.
Qed.

Lemma config_evict c : Cache.config (Cache.evict c) = Cache.config c.
Proof.
  unfold Cache.evict. destruct (decide _); [|done].
  destruct (JsSet.first _); [|done]. by destruct (decide _).
Qed.

Lemma keys_evict_subset c x :
  x ∈ (Cache.cache (Cache.evict c)).*1 → x ∈ (Cache.cache c).*1.
Proof.
  unfold Cache.evict. destruct (decide _); [|done].
  destruct (JsSet.first _); [|done]. destruct (decide _); [done|].
  apply keys_delete_subset.
Qed.

(** With a positive capacity and a least recently used key that is not the
    empty string, the eviction step leaves room for one entry. *)
Lemma size_evict c :
  wf c → 0 < Cache.maxSize (Cache.config c) →
  Cache.size c <= Cache.maxSize (Cache.config c) →
  JsSet.first (Cache.accessOrder c) ≠ Some "" →
  Cache.size (Cache.evict c) < Cache.maxSize (Cache.config c).
Proof.
  intros Hwf Hpos Hle Hne. unfold Cache.evict. destruct (decide _) as [Hfull|]; [|lia].
  destruct (Cache.accessOrder c) as [|lruKey rest] eqn:Hao.
  - exfalso. destruct (Cache.cache c) as [|[k0 v0] m] eqn:Hm.
    + unfold Cache.size, JsMap.size in Hfull. rewrite Hm in Hfull. simpl in Hfull. lia.
    + assert (Hin : k0 ∈ (Cache.cache c).*1) by (rewrite Hm; left).
      apply (wf_same _ Hwf) in Hin. rewrite Hao in Hin. by apply elem_of_nil in Hin.
  - cbn [JsSet.first head]. destruct (decide (lruKey = "")) as [->|_].
    + exfalso. by apply Hne.
    + assert (Hin : lruKey ∈ (Cache.cache c).*1).
      { apply (wf_same _ Hwf). rewrite Hao. left. }
      pose proof (length_delete_present lruKey (Cache.cache c) (wf_keys _ Hwf) Hin).
      unfold Cache.size, JsMap.size in *. cbn [Cache.delete Cache.cache]. lia.
Qed.

(** [set] keeps the bound under the same two conditions. *)
Lemma set_within_capacity now k (d : T) a c :
  wf c → 0 < Cache.maxSize (Cache.config c) →
  Cache.size c <= Cache.maxSize (Cache.config c) →
  JsSet.first (Cache.accessOrder (Cache.cleanup now c)) ≠ Some "" →
  Cache.size (Cache.set now k d a c) <= Cache.maxSize (Cache.config c).
Proof.
  intros Hwf Hpos Hle Hne.
  assert (Hcfg : Cache.config (Cache.cleanup now c) = Cache.config c)
    by apply config_foldl_delete.
  pose proof (size_foldl_delete_le (Cache.expiredKeys now c) c) as Hsweep.
  fold (Cache.cleanup now c) in Hsweep.
  pose proof (size_evict (Cache.cleanup now c) (wf_cleanup now c Hwf)) as Hev.
  rewrite Hcfg in Hev. specialize (Hev Hpos ltac:(lia) Hne).
  unfold Cache.set, Cache.size, JsMap.size in *. cbn [Cache.updateAccessOrder Cache.cache].
  match goal with |- context [JsMap.set k ?v ?m] => pose proof (length_set_le k v m) end.
  lia.
Qed.

(** The empty string is not the least recently used key when it is no key
    at all. *)
Lemma first_not_empty_key c :
  wf c → "" ∉ (Cache.cache c).*1 → JsSet.first (Cache.accessOrder c) ≠ Some "".
Proof.
  intros Hwf Hno Hfirst. apply Hno, (wf_same _ Hwf).
  destruct (Cache.accessOrder c); [discriminate|]. injection Hfirst as ->. left.
Qed.

(** One operation that is neither a restore nor a store under the empty key
    keeps the configuration, the bound and the absence of the empty key. *)
Lemma step_within_capacity c e :
  plain e → wf c → 0 < Cache.maxSize (Cache.config c) →
  Cache.size c <= Cache.maxSize (Cache.config c) → "" ∉ (Cache.cache c).*1 →
  Cache.config (Cache.step c e) = Cache.config c
  ∧ Cache.size (Cache.step c e) <= Cache.maxSize (Cache.config c)
  ∧ "" ∉ (Cache.cache (Cache.step c e)).*1.
Proof.
  intros Hplain Hwf Hpos Hle Hno. destruct e as [now o].
  unfold plain in Hplain. unfold Cache.step. cbn [fst snd] in *.
  destruct o as [k d a|k|k|k| | | |rec]; try done.
  - split_and!.
    + unfold Cache.set. cbn [Cache.updateAccessOrder Cache.config].
      rewrite config_evict. apply config_foldl_delete.
    + apply set_within_capacity; try done.
      apply first_not_empty_key; [by apply wf_cleanup|].
      intros Hin. by apply keys_foldl_delete_subset in Hin.
    + unfold Cache.set. cbn [Cache.updateAccessOrder Cache.cache].
      rewrite keys_set. intros Hin.
      assert (Hsub : "" ∈ (Cache.cache (Cache.evict (Cache.cleanup now c))).*1 → False).
      { intros H. apply keys_evict_subset, keys_foldl_delete_subset in H. done. }
      destruct (decide _); [done|]. apply elem_of_app in Hin as [Hin|Hin]; [done|].
      apply list_elem_of_singleton in Hin. done.
  - unfold Cache.get. destruct (JsMap.get k _); [|done].
    destruct (decide _); cbn [snd]; [|done].
    split_and!; [done | pose proof (size_delete_le k c); lia |].
    intros Hin. by apply keys_delete_subset in Hin.
  - unfold Cache.has. destruct (JsMap.get k _); [|done].
    destruct (decide _); cbn [snd]; [|done].
    split_and!; [done | pose proof (size_delete_le k c); lia |].
    intros Hin. by apply keys_delete_subset in Hin.
  - split_and!; [done | pose proof (size_delete_le k c); lia |].
    intros Hin. by apply keys_delete_subset in Hin.
  - split_and!; [done | unfold Cache.size, JsMap.size; simpl; lia | apply not_elem_of_nil].
  - cbn [Cache.getAllKeys snd]. split_and!.
    + apply config_foldl_delete.
    + pose proof (size_foldl_delete_le (Cache.expiredKeys now c) c). unfold Cache.cleanup. lia.
    + intros Hin. by apply keys_foldl_delete_subset in Hin.
Qed.

(** Without a restore and without a store under the empty key, a cache of
    positive capacity never holds more entries than its capacity. *)
Lemma capacity_without_restore (cfg : Cache.CacheConfig) (tr : list (Z * @Cache.op T)) :
  0 < Cache.maxSize cfg → Forall plain tr →
  Cache.size (Cache.run cfg tr) <= Cache.maxSize cfg.
Proof.
  intros Hpos Hplain.
  enough (Cache.config (Cache.run cfg tr) = cfg
          ∧ Cache.size (Cache.run cfg tr) <= Cache.maxSize cfg
          ∧ "" ∉ (Cache.cache (Cache.run cfg tr)).*1) by tauto.
  induction tr as [|e tr IH] using rev_ind.
  - split_and!; [done | unfold Cache.size, JsMap.size; simpl; lia | apply not_elem_of_nil].
  - apply Forall_app in Hplain as [Htr He]. apply Forall_inv in He.
    destruct (IH Htr) as (Hcfg & Hle & Hno).
    unfold Cache.run in *. rewrite foldl_app. cbn [foldl].
    pose proof (wf_run cfg tr) as Hwf. unfold Cache.run in Hwf.
    destruct (step_within_capacity _ e He Hwf) as (Hcfg' & Hle' & Hno');
      rewrite ?Hcfg; try done.
    rewrite Hcfg' , Hcfg in *. done.
Qed.
End CacheCapacity.

(** *** Recency *)

Section KeepLast.
Implicit Types (l h : list string) (x k : string).

Lemma elem_of_keep_last x l : x ∈ keep_last l ↔ x ∈ l.
Proof.
  induction l as [|a l IH]; [done|]. cbn [keep_last].
  destruct (decide (a ∈ l)) as [Ha|Ha]; rewrite ?elem_of_cons, IH.
  - split; [by right | intros [->|?]; done].
  - done.
Qed.

Lemma keep_last_filter (P : string → Prop) `{!∀ x, Decision (P x)} l :
  keep_last (filter P l) = filter P (keep_last l).
Proof.
  induction l as [|a l IH]; [done|]. cbn [keep_last].
  destruct (decide (P a)) as [Hp|Hp].
  - rewrite filter_cons_True by done. cbn [keep_last].
    destruct (decide (a ∈ l)) as [Ha|Ha].
    + rewrite decide_True by (by apply list_elem_of_filter). exact IH.
    + rewrite decide_False by (rewrite list_elem_of_filter; tauto).
      rewrite filter_cons_True by done. by rewrite IH.
  - rewrite filter_cons_False by done. rewrite IH.
    destruct (decide (a ∈ l)); [done|]. by rewrite filter_cons_False.
Qed.

Lemma keep_last_snoc k l :
  keep_last (l ++ [k]) = filter (λ x, x ≠ k) (keep_last l) ++ [k].
Proof.
  induction l as [|a l IH].
  - cbn. rewrite decide_False by apply not_elem_of_nil. done.
  - cbn [app keep_last]. rewrite IH.
    destruct (decide (a = k)) as [->|Hne].
    + rewrite decide_True by (apply elem_of_app; right; left).
      destruct (decide (k ∈ l)); [done|]. by rewrite filter_cons_False by (by intros ?).
    + destruct (decide (a ∈ l)) as [Ha|Ha].
      * rewrite decide_True by (apply elem_of_app; by left). done.
      * rewrite decide_False.
        -- by rewrite filter_cons_True.
        -- rewrite elem_of_app, list_elem_of_singleton. tauto.
Qed.

(** The first key of the reduced list: after its last touch every other
    key of the reduced list has been touched again. *)
Lemma keep_last_head (P : string → Prop) `{!∀ x, Decision (P x)} h x rest :
  keep_last (filter P h) = x :: rest →
  ∃ h1 h2, h = h1 ++ x :: h2 ∧ (x ∉ h2) ∧ ∀ y, y ∈ h → P y → y ≠ x → y ∈ h2.
Proof.
  induction h as [|a h IH]; [discriminate|].
  destruct (decide (P a)) as [Hp|Hp].
  - rewrite filter_cons_True by done. cbn [keep_last].
    destruct (decide (a ∈ filter P h)) as [Ha|Ha].
    + intros Hk. destruct (IH Hk) as (h1 & h2 & -> & Hx & Hall).
      exists (a :: h1), h2. split_and!; [done | done |].
      intros y Hy Hpy Hne. apply elem_of_cons in Hy as [->|Hy]; [|by apply Hall].
      apply list_elem_of_filter in Ha as [_ Ha]. by apply Hall.
    + intros [= -> _]. exists [], h. split_and!; [done | |].
      * intros Hin. apply Ha. by apply list_elem_of_filter.
      * intros y Hy _ Hne. by apply elem_of_cons in Hy as [->|Hy].
  - rewrite filter_cons_False by done. intros Hk.
    destruct (IH Hk) as (h1 & h2 & -> & Hx & Hall).
    exists (a :: h1), h2. split_and!; [done | done |].
    intros y Hy Hpy Hne. apply elem_of_cons in Hy as [->|Hy]; [done | by apply Hall].
Qed.
End KeepLast.

Section CacheRecency.
Context {T : Type}.
Implicit Types (c : Cache.AdvancedCache T) (k : string) (now : Z) (h : list string).

(** Renewing the mark of [k] when the stored keys become the old ones
    and [k]. *)
Lemma bump_tracks k (ao : list string) (K K' : list string) h :
  ao = keep_last (filter (λ x, x ∈ K) h) →
  (∀ x, x ∈ K' ↔ x = k ∨ x ∈ K) →
  JsSet.add k (JsSet.delete k ao) = keep_last (filter (λ x, x ∈ K') (h ++ [k])).
Proof.
  intros -> HK. rewrite touch_eq, filter_app.
  rewrite (filter_cons_True (λ x, x ∈ K') k []) by (apply HK; by left).
  rewrite filter_nil, keep_last_snoc. f_equal.
  rewrite <- !keep_last_filter. f_equal. rewrite !list_filter_filter.
  apply list_filter_iff. intros x. rewrite HK. split; intros [? ?]; split; tauto.
Qed.

Lemma tracks_delete k c h : tracks c h → tracks (Cache.delete k c) h.
Proof.
  unfold tracks. intros Hc. cbn [Cache.delete Cache.accessOrder Cache.cache].
  unfold JsSet.delete. rewrite Hc, <- keep_last_filter, list_filter_filter. f_equal.
  apply list_filter_iff. intros x. rewrite keys_delete, list_elem_of_filter. tauto.
Qed.

Lemma tracks_foldl_delete (ks : list string) c h :
  tracks c h → tracks (foldl (λ acc k, Cache.delete k acc) c ks) h.
Proof. revert c. induction ks as [|k ks IH]; intros c Hc; simpl; auto using tracks_delete. Qed.

Lemma tracks_evict c h : tracks c h → tracks (Cache.evict c) h.
Proof.
  intros Hc. unfold Cache.evict. destruct (decide _); [|done].
  destruct (JsSet.first _); [|done]. destruct (decide _); auto using tracks_delete.
Qed.

Lemma tracks_store k (item : Cache.CacheItem T) c h :
  tracks c h →
  tracks (Cache.updateAccessOrder k
            {| Cache.cache := JsMap.set k item (Cache.cache c);
               Cache.accessOrder := Cache.accessOrder c;
               Cache.config := Cache.config c |}) (h ++ [k]).
Proof.
  unfold tracks. intros Hc. cbn [Cache.updateAccessOrder Cache.accessOrder Cache.cache].
  eapply bump_tracks; [exact Hc|]. intros x. rewrite keys_set.
  destruct (decide (k ∈ _)) as [Hin|Hnin].
  - split; [by right | intros [->|?]; done].
  - rewrite elem_of_app, list_elem_of_singleton. tauto.
Qed.

Lemma tracks_touch k c h :
  k ∈ (Cache.cache c).*1 → tracks c h → tracks (Cache.updateAccessOrder k c) (h ++ [k]).
Proof.
  unfold tracks. intros Hin Hc. cbn [Cache.updateAccessOrder Cache.accessOrder Cache.cache].
  eapply bump_tracks; [exact Hc|]. intros x. split; [by right | intros [->|?]; done].
Qed.

Lemma tracks_import now (rec : list (string * Cache.Exported T)) c h :
  tracks c h →
  tracks (Cache.import now rec c)
    (h ++ (filter (λ p, Cache.x_expiresAt p.2 ≠ 0 ∧ now <= Cache.x_expiresAt p.2) rec).*1).
Proof.
  unfold Cache.import. revert c h. induction rec as [|p rec IH]; intros c h Hc.
  - cbn. by rewrite app_nil_r.
  - cbn [foldl]. unfold Cache.import_entry at 2.
    destruct (decide (Cache.x_expiresAt p.2 ≠ 0 ∧ now <= Cache.x_expiresAt p.2)) as [Hp|Hp].
    + rewrite filter_cons_True by done. rewrite fmap_cons, cons_middle, app_assoc.
      apply IH. by apply tracks_store.
    + rewrite filter_cons_False by done. by apply IH.
Qed.

Lemma tracks_step c e h : tracks c h → tracks (Cache.step c e) (h ++ touches c e).
Proof.
  intros Hc. destruct e as [now o]. unfold Cache.step, touches. cbn [fst snd].
  destruct o as [k d a|k|k|k| | | |rec]; rewrite ?app_nil_r.
  - unfold Cache.set. by apply tracks_store, tracks_evict, tracks_foldl_delete.
  - unfold Cache.get. destruct (JsMap.get k _) as [item|] eqn:Hg; cbn [fst snd].
    + destruct (decide _); cbn [fst snd].
      * rewrite app_nil_r. by apply tracks_delete.
      * apply tracks_touch; [|done]. apply get_Some_elem in Hg.
        apply list_elem_of_fmap. by exists (k, item).
    + by rewrite app_nil_r.
  - unfold Cache.has. destruct (JsMap.get k _); [|done].
    destruct (decide _); cbn [snd]; auto using tracks_delete.
  - by apply tracks_delete.
  - unfold tracks. cbn [Cache.clear Cache.accessOrder Cache.cache].
    rewrite filter_none; [done|]. intros x _. apply not_elem_of_nil.
  - by apply tracks_foldl_delete.
  - done.
  - by apply tracks_import.
Qed.

(** The recency set of every reachable cache follows the history. *)
Lemma tracks_run (cfg : Cache.CacheConfig) (tr : list (Z * @Cache.op T)) :
  tracks (Cache.run cfg tr) (history cfg tr).
Proof.
  unfold history, Cache.run.
  enough ((foldl step_log (Cache.create cfg, []) tr).1 = foldl Cache.step (Cache.create cfg) tr
          ∧ tracks (foldl step_log (Cache.create cfg, []) tr).1
                   (foldl step_log (Cache.create cfg, []) tr).2) as [<- ?] by done.
  induction tr as [|e tr [IH1 IH2]] using rev_ind; [done|].
  rewrite !foldl_app. cbn [foldl step_log fst snd]. split.
  - by rewrite IH1.
  - by apply tracks_step.
Qed.

(** When [set] finds the swept cache full and the oldest mark is a
    non-empty key, it removes exactly that entry before it stores the new
    one; the removed key is the surviving key touched least recently: every
    other surviving key has been touched after its last touch. *)
Lemma set_evicts_least_recent (cfg : Cache.CacheConfig) (tr : list (Z * @Cache.op T))
    now k (d : T) a (lru : string) :
  let c := Cache.run cfg tr in
  let swept := Cache.cleanup now c in
  Cache.maxSize (Cache.config swept) <= Cache.size swept →
  JsSet.first (Cache.accessOrder swept) = Some lru → lru ≠ "" →
  Cache.cache (Cache.set now k d a c)
    = JsMap.set k {| Cache.data := d; Cache.timestamp := now;
                     Cache.expiresAt := now + Cache.effectiveMaxAge a c;
                     Cache.key := k |}
        (JsMap.delete lru (Cache.cache swept))
  ∧ lru ∈ (Cache.cache swept).*1
  ∧ ∃ h1 h2, history cfg tr = h1 ++ lru :: h2 ∧ (lru ∉ h2)
      ∧ ∀ k', k' ∈ (Cache.cache swept).*1 → k' ≠ lru → k' ∈ h2.
Proof.
  intros c swept Hfull Hfirst Hne.
  pose proof (wf_cleanup now c (wf_run cfg tr)) as Hwf. fold swept in Hwf.
  pose proof (tracks_foldl_delete (Cache.expiredKeys now c) c _ (tracks_run cfg tr)) as Htr.
  fold (Cache.cleanup now c) in Htr. fold swept in Htr. unfold tracks in Htr.
  destruct (Cache.accessOrder swept) as [|x rest] eqn:Hao; [discriminate|].
  injection Hfirst as ->. split_and!.
  - unfold Cache.set. fold c. fold swept. unfold Cache.evict.
    rewrite decide_True by done. rewrite Hao. cbn [JsSet.first head].
    rewrite decide_False by done. reflexivity.
  - apply (wf_same _ Hwf). rewrite Hao. left.
  - symmetry in Htr. destruct (keep_last_head _ _ _ _ Htr) as (h1 & h2 & Hh & Hx & Hall).
    exists h1, h2. split_and!; [done | done |].
    intros k' Hk' Hne'. apply Hall; [|done|done].
    apply (wf_same _ Hwf) in Hk'. rewrite Hao, <- Htr in Hk'.
    apply elem_of_keep_last, list_elem_of_filter in Hk'. tauto.
Qed.
End CacheRecency.

(** *** Expiry *)

Section CacheExpiry.
Context {T : Type}.
Implicit Types (c : Cache.AdvancedCache T) (k : string) (now : Z).

Lemma config_import now (rec : list (string * Cache.Exported T)) c :
  Cache.config (Cache.import now rec c) = Cache.config c.
Proof.
  unfold Cache.import. revert c. induction rec as [|p rec IH]; intros c; [done|].
  cbn [foldl]. rewrite IH. unfold Cache.import_entry. by destruct (decide _).
Qed.

Lemma config_step c e : Cache.config (Cache.step c e) = Cache.config c.
Proof.
  destruct e as [now o]. unfold Cache.step. cbn [fst snd].
  destruct o as [k d a|k|k|k| | | |rec]; try done.
  - unfold Cache.set. cbn [Cache.updateAccessOrder Cache.config].
    rewrite config_evict. apply config_foldl_delete.
  - unfold Cache.get. destruct (JsMap.get k _); [|done]. by destruct (decide _).
  - unfold Cache.has. destruct (JsMap.get k _); [|done]. by destruct (decide _).
  - apply config_foldl_delete.
  - apply config_import.
Qed.

Lemma config_run (cfg : Cache.CacheConfig) (tr : list (Z * @Cache.op T)) :
  Cache.config (Cache.run cfg tr) = cfg.
Proof.
  unfold Cache.run. induction tr as [|e tr IH] using rev_ind; [done|].
  rewrite foldl_app. cbn [foldl]. by rewrite config_step.
Qed.

Lemma get_delete_sub k k' c (item : Cache.CacheItem T) :
  JsMap.get k (Cache.cache (Cache.delete k' c)) = Some item →
  JsMap.get k (Cache.cache c) = Some item.
Proof. cbn [Cache.delete Cache.cache]. rewrite get_delete. by destruct (decide _). Qed.

Lemma get_foldl_delete_sub k (ks : list string) c (item : Cache.CacheItem T) :
  JsMap.get k (Cache.cache (foldl (λ acc k', Cache.delete k' acc) c ks)) = Some item →
  JsMap.get k (Cache.cache c) = Some item.
Proof.
  revert c. induction ks as [|k0 ks IH]; intros c; [done|].
  cbn [foldl]. intros Hg. by apply IH, get_delete_sub in Hg.
Qed.

Lemma get_evict_sub k c (item : Cache.CacheItem T) :
  JsMap.get k (Cache.cache (Cache.evict c)) = Some item →
  JsMap.get k (Cache.cache c) = Some item.
Proof.
  unfold Cache.evict. destruct (decide _); [|done].
  destruct (JsSet.first _) as [lruKey|]; [|done].
  destruct (decide _); [done | apply get_delete_sub].
Qed.

(** Deleting a key that is not stored changes nothing. *)
Lemma delete_missing k c :
  wf c → JsMap.get k (Cache.cache c) = None → Cache.delete k c = c.
Proof.
  intros Hwf Hg. apply get_None in Hg. destruct c as [m o cf]. unfold Cache.delete.
  cbn [Cache.cache Cache.accessOrder Cache.config] in *. f_equal.
  - unfold JsMap.delete. apply filter_all. intros [k0 v0] Hin. cbn. intros ->.
    apply Hg. apply list_elem_of_fmap. by exists (k, v0).
  - unfold JsSet.delete. apply filter_all. intros x Hin ->.
    by apply Hg, (wf_same _ Hwf).
Qed.

Lemma recorded_import_sound t (rec : list (string * Cache.Exported T)) c (r : option Z) k :
  (∀ item, JsMap.get k (Cache.cache c) = Some item → r = Some (Cache.expiresAt item)) →
  ∀ item, JsMap.get k (Cache.cache (Cache.import t rec c)) = Some item →
    foldl (λ r p, if decide (p.1 = k ∧ Cache.x_expiresAt p.2 ≠ 0
                             ∧ t <= Cache.x_expiresAt p.2)
                  then Some (Cache.x_expiresAt p.2) else r) r rec
    = Some (Cache.expiresAt item).
Proof.
  unfold Cache.import. revert c r. induction rec as [|p rec IH]; intros c r Hinv; [exact Hinv|].
  cbn [foldl]. apply IH. intros item. unfold Cache.import_entry.
  destruct (decide (Cache.x_expiresAt p.2 ≠ 0 ∧ t <= Cache.x_expiresAt p.2)) as [Hl|Hl].
  - cbn [Cache.updateAccessOrder Cache.cache]. rewrite get_set.
    destruct (decide (k = p.1)) as [->|Hne].
    + intros [= <-]. by rewrite decide_True by tauto.
    + intros Hg. rewrite decide_False by (intros [? _]; congruence). by apply Hinv.
  - intros Hg. rewrite decide_False by tauto. by apply Hinv.
Qed.

Lemma recorded_step_sound cfg c (r : option Z) (e : Z * @Cache.op T) k :
  Cache.config c = cfg →
  (∀ item, JsMap.get k (Cache.cache c) = Some item → r = Some (Cache.expiresAt item)) →
  ∀ item, JsMap.get k (Cache.cache (Cache.step c e)) = Some item →
    recorded_step cfg k r e = Some (Cache.expiresAt item).
Proof.
  intros Hcfg Hinv item. destruct e as [t o]. unfold Cache.step, recorded_step. cbn [fst snd].
  destruct o as [k' d a|k'|k'|k'| | | |rec].
  - unfold Cache.set. cbn [Cache.updateAccessOrder Cache.cache]. rewrite get_set.
    destruct (decide (k = k')) as [->|Hne].
    + intros [= <-]. rewrite decide_True by done. cbn [Cache.expiresAt].
      unfold Cache.effectiveMaxAge. by rewrite Hcfg.
    + intros Hg. rewrite decide_False by congruence.
      by apply get_evict_sub, get_foldl_delete_sub, Hinv in Hg.
  - unfold Cache.get. destruct (JsMap.get k' _); [|apply Hinv].
    destruct (decide _); cbn [snd]; [|apply Hinv]. intros Hg. by apply get_delete_sub, Hinv in Hg.
  - unfold Cache.has. destruct (JsMap.get k' _); [|apply Hinv].
    destruct (decide _); cbn [snd]; [|apply Hinv]. intros Hg. by apply get_delete_sub, Hinv in Hg.
  - intros Hg. by apply get_delete_sub, Hinv in Hg.
  - discriminate.
  - cbn [Cache.getAllKeys snd]. intros Hg. by apply get_foldl_delete_sub, Hinv in Hg.
  - apply Hinv.
  - by apply recorded_import_sound.
Qed.

(** A stored entry carries the expiry that the operations recorded last for
    its key. *)
Lemma stored_expiry_recorded cfg (tr : list (Z * @Cache.op T)) k item :
  JsMap.get k (Cache.cache (Cache.run cfg tr)) = Some item →
  recorded cfg tr k = Some (Cache.expiresAt item).
Proof.
  revert item. unfold recorded. induction tr as [|e tr IH] using rev_ind; [discriminate|].
  intros item. unfold Cache.run. rewrite !foldl_app. cbn [foldl].
  apply recorded_step_sound; [apply config_run | exact IH].
Qed.

(** Once a [set] of [k] is made, operations that do not store under [k]
    leave its recorded expiry alone, whatever else they do. *)
Lemma recorded_set_then_others cfg (tr1 tr2 : list (Z * @Cache.op T)) t k d a :
  Forall (λ e, match e.2 with
               | Cache.OpSet k' _ _ => k' ≠ k
               | Cache.OpImport rec => k ∉ rec.*1
               | _ => True
               end) tr2 →
  recorded cfg (tr1 ++ (t, Cache.OpSet k d a) :: tr2) k
    = Some (t + Cache.effectiveMaxAge a (Cache.create (T:=T) cfg)).
Proof.
  intros Hothers. unfold recorded. rewrite foldl_app. cbn [foldl].
  assert (Hset : recorded_step cfg k (foldl (recorded_step cfg k) None tr1)
                   (t, Cache.OpSet k d a)
                 = Some (t + Cache.effectiveMaxAge a (Cache.create (T:=T) cfg))).
  { unfold recorded_step. cbn [fst snd]. by rewrite decide_True. }
  rewrite Hset. generalize (Some (t + Cache.effectiveMaxAge a (Cache.create (T:=T) cfg))) as r.
  induction Hothers as [|[t' o] tr2 Ho _ IH]; intros r; [done|].
  cbn [foldl]. assert (Hstep : recorded_step cfg k r (t', o) = r); [|by rewrite Hstep].
  unfold recorded_step. cbn [fst snd] in *.
  destruct o as [k' ? ?|?|?|?| | | |rec]; try done.
  - by rewrite decide_False.
  - clear IH. revert r. induction rec as [|p rec IHrec]; intros r; [done|].
    rewrite fmap_cons in Ho. apply not_elem_of_cons in Ho as [Hp Ho].
    cbn [foldl]. rewrite decide_False by (intros [? _]; congruence). by apply IHrec.
Qed.
End CacheExpiry.

(** *** Claims about the cache *)

(** C1.  The capacity bound is not kept by [import]: on one cache of
    capacity 1, the sequence [set("a",1)], [export()], [set("b",2)],
    [import(snapshot)] starts from a cache within its bound after every
    earlier step and ends with two stored entries. *)
Theorem restore_exceeds_capacity :
  let before := Cache.run Samples.cfg1 (take 3 Samples.restore_trace) in
  let after := Cache.run Samples.cfg1 Samples.restore_trace in
  Cache.size before = 1
  ∧ Cache.maxSize (Cache.config after) = 1
  ∧ Cache.size after = 2
  ∧ JsMap.keys (Cache.cache after) = ["b"; "a"].
Proof. vm_compute. by split_and!. Qed.

(** C2.  For every key [k] and every sequence of operations, whatever ran
    after the expiry of [k] was last recorded (other sets, reads, sweeps,
    evictions, deletions, restores): a [get(k)] at a clock reading strictly
    after that expiry returns [null] and leaves the cache equal to the one in
    which the key was deleted, so the entry and its recency mark are gone
    (whether this [get] removed them or an earlier operation had), and the
    same [get] on that cache answers alike and changes nothing. *)
Theorem get_after_expiry_absent {T : Type} (cfg : Cache.CacheConfig)
    (tr : list (Z * @Cache.op T)) (k : string) (expiry now : Z) :
  recorded cfg tr k = Some expiry →
  expiry < now →
  let c := Cache.run cfg tr in
  Cache.get now k c = (None, Cache.delete k c)
  ∧ JsMap.get k (Cache.cache (Cache.delete k c)) = None
  ∧ (k ∉ Cache.accessOrder (Cache.delete k c))
  ∧ Cache.get now k (Cache.delete k c) = (None, Cache.delete k c).
Proof.
  intros Hrec Hexp c. destruct (delete_absent k c) as [Hgone Hmark].
  split_and!; [| done | done | by apply get_missing].
  destruct (JsMap.get k (Cache.cache c)) as [item|] eqn:Hg.
  - apply (get_expired now k c item Hg).
    apply stored_expiry_recorded in Hg. rewrite Hrec in Hg. injection Hg as ->. exact Hexp.
  - rewrite (delete_missing k c (wf_run cfg tr) Hg). by apply get_missing.
Qed.

Lemma get_after_expiry_absent_witness :
  let tr := [(1000, Cache.OpSet "k" 7 (Some 10)); (1005, Cache.OpSet "j" 8 None);
             (1006, Cache.OpGet "j"); (1011, Cache.OpKeys); (1012, Cache.OpHas "k")] in
  let c := Cache.run Cache.default_config tr in
  recorded Cache.default_config tr "k" = Some 1010
  ∧ 1010 < 1013
  ∧ Cache.get 1013 "k" c = (None, Cache.delete "k" c).
Proof.
  intros tr c.
  assert (Hrec : recorded Cache.default_config tr "k" = Some 1010)
    by (vm_compute; reflexivity).
  assert (Hexp : 1010 < 1013) by reflexivity.
  split_and!; [exact Hrec | exact Hexp |].
  exact (proj1 (get_after_expiry_absent Cache.default_config tr "k" 1010 1013 Hrec Hexp)).
Defined.

(** C5.  The eviction of [set] skips a least recently used key that is the
    empty string: with capacity 1, [set("", 1)] followed by [set("a", 2)]
    finds the cache full after the sweep, evicts nothing and ends with two
    entries. *)
Theorem set_keeps_empty_lru_key :
  let full := Cache.cleanup 1001 (Cache.run Samples.cfg1 (take 1 Samples.empty_key_trace)) in
  let after := Cache.run Samples.cfg1 Samples.empty_key_trace in
  Cache.size full = Cache.maxSize (Cache.config full)
  ∧ JsSet.first (Cache.accessOrder full) = Some ""
  ∧ Cache.evict full = full
  ∧ JsMap.keys (Cache.cache after) = [""; "a"]
  ∧ Cache.size after = 2
  ∧ Cache.maxSize (Cache.config after) = 1.
Proof. vm_compute. by split_and!. Qed.

(** C8.  The round trip loses an entry stored under the key ["__proto__"]:
    after [set("__proto__", 1)] the cache answers 1, but the assignment
    [data["__proto__"] = ...] in [export()] creates no own property, so the
    record is empty and a new cache of the same configuration that imports
    it at the same clock reading holds nothing and answers [null]. *)
Theorem snapshot_restore_loses_proto_key :
  let c := Cache.run Cache.default_config Samples.proto_trace in
  let c' := Cache.import 1001 (Cache.export 1001 c) (Cache.create Cache.default_config) in
  (Cache.get 1001 "__proto__" c).1 = Some 1
  ∧ Cache.getAllKeys 1001 c = (["__proto__"], c)
  ∧ Cache.export 1001 c = []
  ∧ Cache.getAllKeys 1001 c' = ([], c')
  ∧ (Cache.get 1001 "__proto__" c').1 = None.
Proof. vm_compute. by split_and!. Qed.

(** ** Optimistic updates *)

Ltac tracker_unfold :=
  unfold Tracker.dispatch, Tracker.bail, Tracker.then_, Tracker.catch_, Tracker.settled,
    Tracker.untrack, Tracker.setData, Tracker.setOptimisticOperations;
  cbn [Tracker.final Tracker.serverCalls Tracker.caller Tracker.chain
       Tracker.data Tracker.optimisticOperations fst snd].

Section TrackerFacts.
Context {T E : Type} (keyExtractor : T → string) (truthy : T → bool).
Implicit Types (st : Tracker.State T) (k : string) (l : list T).

Local Abbreviation findItem := (Tracker.findItem keyExtractor).
Local Abbreviation replaceItem := (Tracker.replaceItem keyExtractor).
Local Abbreviation removeItem := (Tracker.removeItem keyExtractor).

Lemma findItem_key k l x : findItem k l = Some x → keyExtractor x = k.
Proof.
  induction l as [|y l IH]; simpl; [discriminate|].
  destruct (decide _) as [Hy|]; [by intros [= <-] | exact IH].
Qed.

Lemma findItem_elem k l x : findItem k l = Some x → x ∈ l.
Proof.
  induction l as [|y l IH]; simpl; [discriminate|].
  destruct (decide _); [intros [= <-]; left | intros; right; auto].
Qed.

Lemma findItem_None k l : findItem k l = None ↔ ∀ x, x ∈ l → keyExtractor x ≠ k.
Proof.
  induction l as [|y l IH]; simpl.
  - split; [intros _ x Hx; by apply elem_of_nil in Hx | done].
  - destruct (decide _) as [Hy|Hy].
    + split; [discriminate | intros H; destruct (H y); [left | done]].
    + rewrite IH. split.
      * intros H x Hx. apply elem_of_cons in Hx as [->|Hx]; auto.
      * intros H x Hx. apply H. by right.
Qed.

Lemma findItem_filter k l :
  findItem k l = head (filter (λ item, keyExtractor item = k) l).
Proof.
  induction l as [|y l IH]; [reflexivity|]. simpl. rewrite filter_cons.
  destruct (decide _); [reflexivity | exact IH].
Qed.

(** Replacing twice under one key is replacing once, when the first
    replacement carries that key. *)
Lemma replaceItem_twice k (u o : T) l :
  keyExtractor u = k → replaceItem k o (replaceItem k u l) = replaceItem k o l.
Proof.
  intros Hu. unfold Tracker.replaceItem. rewrite <- list_fmap_compose.
  apply list_fmap_ext. intros _ x _. simpl.
  destruct (decide (keyExtractor x = k)); [by rewrite decide_True|].
  by rewrite decide_False.
Qed.

Lemma findItem_replaceItem k (o x : T) l :
  keyExtractor o = k → findItem k l = Some x → findItem k (replaceItem k o l) = Some o.
Proof.
  intros Ho. induction l as [|y l IH]; simpl; [discriminate|].
  destruct (decide (keyExtractor y = k)) as [Hy|Hy].
  - intros _. by rewrite decide_True.
  - intros H. rewrite decide_False by done. auto.
Qed.

(** Replacing by the item that is the only one under its key changes
    nothing. *)
Lemma replaceItem_id k (o : T) l :
  (∀ x, x ∈ l → keyExtractor x = k → x = o) → replaceItem k o l = l.
Proof.
  intros H. unfold Tracker.replaceItem. rewrite <- (list_fmap_id l) at 2.
  apply list_fmap_ext. intros i x Hx. simpl. apply list_elem_of_lookup_2 in Hx.
  destruct (decide _); [symmetry; auto | done].
Qed.

Lemma length_replaceItem k (o : T) l : length (replaceItem k o l) = length l.
Proof. apply length_fmap. Qed.

(** The rollback of a rejected [optimisticUpdate]. *)
Lemma optimisticUpdate_rollback now (updatedItem originalItem : T) (e : E) st :
  let k := keyExtractor updatedItem in
  findItem k (Tracker.data st) = Some originalItem →
  truthy originalItem = true →
  let out := Tracker.optimisticUpdate keyExtractor truthy now updatedItem
               (Tracker.Rejects e) st in
  findItem k (Tracker.data (Tracker.final out)) = Some originalItem
  ∧ length (Tracker.data (Tracker.final out)) = length (Tracker.data st)
  ∧ Tracker.optimisticOperations (Tracker.final out) !! k = None
  ∧ Tracker.serverCalls out = 1%nat
  ∧ Tracker.caller out = Tracker.Returns
  ∧ Tracker.chain out = Some (Tracker.Rejects e).
Proof.
  intros k Hfind Ht out. unfold out, Tracker.optimisticUpdate. fold k. rewrite Hfind, Ht.
  tracker_unfold. rewrite replaceItem_twice by done. split_and!; try done.
  - eapply findItem_replaceItem; [|exact Hfind]. by eapply findItem_key.
  - apply length_replaceItem.
  - apply lookup_delete_eq.
Qed.

(** With one item per key the whole list is back. *)
Lemma optimisticUpdate_rollback_data now (updatedItem originalItem : T) (e : E) st :
  let k := keyExtractor updatedItem in
  findItem k (Tracker.data st) = Some originalItem →
  NoDup (keyExtractor <$> Tracker.data st) →
  Tracker.data (Tracker.final
    (Tracker.optimisticUpdate keyExtractor truthy now updatedItem (Tracker.Rejects e) st))
  = Tracker.data st.
Proof.
  intros k Hfind Hnd. unfold Tracker.optimisticUpdate. fold k. rewrite Hfind.
  destruct (truthy originalItem); [|reflexivity].
  tracker_unfold. rewrite replaceItem_twice by done. apply replaceItem_id.
  intros x Hx Hk. pose proof (findItem_elem _ _ _ Hfind) as Ho.
  pose proof (findItem_key _ _ _ Hfind) as Hok.
  apply list_elem_of_lookup in Hx as [i Hi]. apply list_elem_of_lookup in Ho as [j Hj].
  assert (i = j) as ->; [|congruence].
  eapply NoDup_lookup; [exact Hnd | |]; rewrite list_lookup_fmap.
  - by rewrite Hi.
  - rewrite Hj. simpl. congruence.
Qed.

(** An item that is found but falsy stops both callbacks at their guard,
    like a missing one. *)
Lemma optimistic_falsy_item_bails now (updatedItem originalItem : T) k
    (server : Tracker.Settle T E) (server' : Tracker.Settle unit E) st :
  truthy originalItem = false →
  (findItem (keyExtractor updatedItem) (Tracker.data st) = Some originalItem →
   Tracker.optimisticUpdate keyExtractor truthy now updatedItem server st = Tracker.bail st)
  ∧ (findItem k (Tracker.data st) = Some originalItem →
     Tracker.optimisticDelete keyExtractor truthy now k server' st = Tracker.bail st).
Proof.
  intros Ht. unfold Tracker.optimisticUpdate, Tracker.optimisticDelete.
  split; intros ->; by rewrite Ht.
Qed.
End TrackerFacts.

(** Numbers as items: with the list [[0; 5]], each number under its own
    key, [optimisticDelete] of the key of [0] finds a falsy item and
    returns, where that of the key of [5] removes the item and calls the
    server. *)
Example optimisticDelete_falsy_number_sample :
  let keyOf := λ z : Z, if decide (z = 0) then "zero" else "five" in
  let truthy := λ z : Z, bool_decide (z ≠ 0) in
  let st := {| Tracker.data := [0; 5]; Tracker.optimisticOperations := ∅ |} in
  Tracker.optimisticDelete (E:=string) keyOf truthy 1000 "zero" (Tracker.Resolves ()) st
    = Tracker.bail st
  ∧ Tracker.data (Tracker.final
      (Tracker.optimisticDelete (E:=string) keyOf truthy 1000 "five" (Tracker.Resolves ()) st))
    = [0]
  ∧ Tracker.serverCalls
      (Tracker.optimisticDelete (E:=string) keyOf truthy 1000 "five" (Tracker.Resolves ()) st)
    = 1%nat.
Proof. vm_compute. by split_and!. Qed.

Section TrackerDelete.
Context {T E : Type} (keyExtractor : T → string) (truthy : T → bool).
Implicit Types (st : Tracker.State T) (k : string) (l : list T).

(** The rollback of a rejected [optimisticDelete]: every item under the key
    was filtered out, the first of them is appended. *)
Lemma optimisticDelete_rollback now k (originalItem : T) (e : E) st :
  Tracker.findItem keyExtractor k (Tracker.data st) = Some originalItem →
  truthy originalItem = true →
  let out := Tracker.optimisticDelete keyExtractor truthy now k (Tracker.Rejects e) st in
  Tracker.data (Tracker.final out)
    = Tracker.removeItem keyExtractor k (Tracker.data st) ++ [originalItem]
  ∧ Tracker.optimisticOperations (Tracker.final out) !! k = None
  ∧ Tracker.serverCalls out = 1%nat
  ∧ Tracker.caller out = Tracker.Returns
  ∧ Tracker.chain out = Some (Tracker.Rejects e).
Proof.
  intros Hfind Ht out. unfold out, Tracker.optimisticDelete. rewrite Hfind, Ht.
  tracker_unfold. split_and!; try done. apply lookup_delete_eq.
Qed.
End TrackerDelete.

(** *** Claims about the optimistic tracker *)

(** C3.  A rejected [optimisticUpdate] on the example of the specification
    ([{id:"o1", amount:10}] updated to amount 20): the item is back at amount
    10 and the tracked operation is cleared, but the call itself has returned
    normally to its caller and the rejection ends in the promise of the
    discarded chain. *)
Theorem optimisticUpdate_rejection_not_raised :
  let st := Samples.orders [ {| Samples.id := "o1"; Samples.amount := 10 |} ] in
  let out := Tracker.optimisticUpdate Samples.id Samples.truthy 1000
               {| Samples.id := "o1"; Samples.amount := 20 |}
               (Tracker.Rejects "rejected") st in
  Tracker.data (Tracker.final out) = [ {| Samples.id := "o1"; Samples.amount := 10 |} ]
  ∧ Tracker.optimisticOperations (Tracker.final out) !! "o1" = None
  ∧ Tracker.serverCalls out = 1%nat
  ∧ Tracker.caller out = Tracker.Returns
  ∧ Tracker.chain out = Some (Tracker.Rejects "rejected").
Proof.
  intros st out.
  assert (Hfind : Tracker.findItem Samples.id
            (Samples.id {| Samples.id := "o1"; Samples.amount := 20 |})
            (Tracker.data st) = Some {| Samples.id := "o1"; Samples.amount := 10 |})
    by reflexivity.
  destruct (optimisticUpdate_rollback (E:=string) Samples.id Samples.truthy 1000 _ _
              "rejected" st Hfind eq_refl)
    as (_ & _ & Hops & Hcalls & Hcaller & Hchain).
  split_and!; [reflexivity | exact Hops | exact Hcalls | exact Hcaller | exact Hchain].
Qed.

(** C7, as stated, fails when two items share the key: both are filtered
    out by the optimistic delete and only the first is appended again. *)
Lemma optimisticDelete_shared_key_loses_item :
  let st := Samples.orders Samples.shared_key in
  let out := Tracker.optimisticDelete Samples.id Samples.truthy 1000 "o2"
               (Tracker.Rejects "rejected") st in
  Tracker.findItem Samples.id "o2" (Tracker.data st)
    = Some {| Samples.id := "o2"; Samples.amount := 1 |}
  ∧ Tracker.data (Tracker.final out)
    = [ {| Samples.id := "o3"; Samples.amount := 3 |};
        {| Samples.id := "o2"; Samples.amount := 1 |} ]
  ∧ {| Samples.id := "o2"; Samples.amount := 2 |} ∈ Tracker.data st
  ∧ ({| Samples.id := "o2"; Samples.amount := 2 |} ∉ Tracker.data (Tracker.final out))
  ∧ ¬ (Tracker.data (Tracker.final out) ≡ₚ Tracker.data st).
Proof.
  intros st out.
  assert (Hdata : Tracker.data (Tracker.final out)
            = [ {| Samples.id := "o3"; Samples.amount := 3 |};
                {| Samples.id := "o2"; Samples.amount := 1 |} ]) by reflexivity.
  split_and!; [reflexivity | exact Hdata | | |].
  - right. left.
  - rewrite Hdata. intros Hin.
    apply elem_of_cons in Hin as [[=]|Hin]. apply elem_of_cons in Hin as [[=]|Hin].
    by apply elem_of_nil in Hin.
  - rewrite Hdata. intros Hp. apply Permutation_length in Hp. discriminate.
Qed.

(** C7, amended.  When exactly one item of the local state has key [k], that
    item is truthy (as every object is) and the server call of
    [optimisticDelete(k, ..)] rejects, the state after the rollback is a
    permutation of the state before the delete, it contains the removed
    item, and no operation is tracked for [k]. *)
Theorem optimisticDelete_rollback_membership {T E : Type} (keyExtractor : T → string)
    (truthy : T → bool)
    (now : Z) (k : string) (originalItem : T) (e : E) (st : Tracker.State T) :
  filter (λ item, keyExtractor item = k) (Tracker.data st) = [originalItem] →
  truthy originalItem = true →
  let out := Tracker.optimisticDelete keyExtractor truthy now k (Tracker.Rejects e) st in
  Tracker.data (Tracker.final out) ≡ₚ Tracker.data st
  ∧ originalItem ∈ Tracker.data (Tracker.final out)
  ∧ Tracker.optimisticOperations (Tracker.final out) !! k = None.
Proof.
  intros Honly Ht out.
  assert (Hfind : Tracker.findItem keyExtractor k (Tracker.data st) = Some originalItem)
    by (by rewrite findItem_filter, Honly).
  destruct (optimisticDelete_rollback keyExtractor truthy now k originalItem e st Hfind Ht)
    as (Hdata & Hops & _). fold out in Hdata, Hops.
  split_and!; [| |exact Hops]; rewrite Hdata.
  - rewrite <- (filter_app_complement (λ item, keyExtractor item = k) (Tracker.data st)) at 2.
    rewrite Honly. unfold Tracker.removeItem. apply Permutation_app_comm.
  - apply elem_of_app. right. left.
Qed.

Lemma optimisticDelete_rollback_membership_witness :
  let l := [ {| Samples.id := "o1"; Samples.amount := 10 |};
             {| Samples.id := "o2"; Samples.amount := 20 |};
             {| Samples.id := "o3"; Samples.amount := 30 |} ] in
  let out := Tracker.optimisticDelete Samples.id Samples.truthy 1000 "o2"
               (Tracker.Rejects "rejected") (Samples.orders l) in
  filter (λ item, Samples.id item = "o2") l = [ {| Samples.id := "o2"; Samples.amount := 20 |} ]
  ∧ Samples.truthy {| Samples.id := "o2"; Samples.amount := 20 |} = true
  ∧ Tracker.data (Tracker.final out) ≡ₚ l
  ∧ Tracker.optimisticOperations (Tracker.final out) !! "o2" = None.
Proof.
  intros l out.
  assert (Honly : filter (λ item, Samples.id item = "o2") (Tracker.data (Samples.orders l))
            = [ {| Samples.id := "o2"; Samples.amount := 20 |} ]) by reflexivity.
  assert (Ht : Samples.truthy {| Samples.id := "o2"; Samples.amount := 20 |} = true)
    by reflexivity.
  pose proof (optimisticDelete_rollback_membership (E:=string) Samples.id Samples.truthy
                1000 "o2" _ "rejected" (Samples.orders l) Honly Ht) as (Hperm & _ & Hops).
  split_and!; [exact Honly | exact Ht | exact Hperm | exact Hops].
Defined.



(** ** Broadcaster *)

Section ServiceFacts.
Import Wire Service.
Implicit Types (s : Service) (sid r : string) (tr : list ClientEvent).

Lemma elem_of_membersOf s sid r : sid ∈ membersOf s r ↔ (sid, r) ∈ rooms s.
Proof.
  unfold membersOf. rewrite elem_of_map. split.
  - intros [[sid' r'] [-> Hin]]. apply elem_of_filter in Hin as [Hr Hin].
    simpl in *. by subst.
  - intros Hin. exists (sid, r). split; [done|]. by apply elem_of_filter.
Qed.

Lemma after_snoc tr e : after (tr ++ [e]) = handle (after tr) e.
Proof. unfold after. by rewrite foldl_app. Qed.

Lemma orderRoom_inj a b : orderRoom a = orderRoom b → a = b.
Proof. unfold orderRoom. cbn. intros H. by injection H. Qed.

Lemma orderRoom_not_authenticated a : orderRoom a ≠ authenticated_users.
Proof. unfold orderRoom, authenticated_users. cbn. discriminate. Qed.

(** Membership of an order room always comes from a [join_order_room] of
    that socket for that order. *)
Lemma order_room_joined tr sid oid :
  (sid, orderRoom oid) ∈ rooms (after tr) → join_order_room sid oid ∈ tr.
Proof.
  induction tr as [|e tr IH] using rev_ind.
  - intros Hin. by apply elem_of_empty in Hin.
  - rewrite after_snoc, elem_of_app, list_elem_of_singleton.
    destruct e as [sid'|sid' uid name|sid' oid'|sid' oid'|sid']; cbn [handle join leave rooms].
    + auto.
    + rewrite elem_of_union, elem_of_singleton. intros [Heq|Hin]; [|auto].
      apply pair_equal_spec in Heq as [_ Heq].
      by apply orderRoom_not_authenticated in Heq.
    + rewrite elem_of_union, elem_of_singleton. intros [Heq|Hin]; [|auto].
      apply pair_equal_spec in Heq as [-> Heq]. apply orderRoom_inj in Heq as ->.
      by right.
    + rewrite elem_of_difference. intros [Hin _]. auto.
    + rewrite elem_of_filter. intros [_ Hin]. auto.
Qed.

(** Membership of the authenticated room always comes from an
    [authenticate] of that socket. *)
Lemma authenticated_room_joined tr sid :
  (sid, authenticated_users) ∈ rooms (after tr) → ∃ uid name, authenticate sid uid name ∈ tr.
Proof.
  induction tr as [|e tr IH] using rev_ind.
  - intros Hin. by apply elem_of_empty in Hin.
  - rewrite after_snoc. setoid_rewrite elem_of_app. setoid_rewrite list_elem_of_singleton.
    destruct e as [sid'|sid' uid name|sid' oid'|sid' oid'|sid']; cbn [handle join leave rooms].
    + intros Hin. destruct (IH Hin) as (u & n & H). eauto.
    + rewrite elem_of_union, elem_of_singleton. intros [Heq|Hin].
      * apply pair_equal_spec in Heq as [-> _]. eauto.
      * destruct (IH Hin) as (u & n & H). eauto.
    + rewrite elem_of_union, elem_of_singleton. intros [Heq|Hin].
      * apply pair_equal_spec in Heq as [_ Heq]. symmetry in Heq.
        by apply orderRoom_not_authenticated in Heq.
      * destruct (IH Hin) as (u & n & H). eauto.
    + rewrite elem_of_difference. intros [Hin _]. destruct (IH Hin) as (u & n & H). eauto.
    + rewrite elem_of_filter. intros [_ Hin]. destruct (IH Hin) as (u & n & H). eauto.
Qed.

(** What one socket receives from [broadcastOrderUpdate]. *)
Lemma inbox_broadcastOrderUpdate s sid uuid isoNow (u : OrderUpdate) :
  inbox s sid (broadcastOrderUpdate uuid isoNow u)
  = (if decide (sid ∈ membersOf s authenticated_users) then [order_update u] else [])
    ++ (if decide (sid ∈ membersOf s (orderRoom (orderId u)))
        then [order_detail_update u true] else [])
    ++ (if decide (sid ∈ membersOf s authenticated_users)
        then [notification (orderNotification uuid isoNow u)] else []).
Proof.
  unfold inbox, broadcastOrderUpdate, broadcastNotification.
  cbn [app]. rewrite !filter_cons, filter_nil. cbn [room].
  destruct (decide (sid ∈ membersOf s authenticated_users));
    destruct (decide (sid ∈ membersOf s (orderRoom (orderId u)))); reflexivity.
Qed.

(** What one socket receives from [broadcastBulkUpdate]. *)
Lemma inbox_broadcastBulkUpdate s sid (updates : list OrderUpdate) :
  inbox s sid (broadcastBulkUpdate updates)
  = if decide (sid ∈ membersOf s authenticated_users)
    then [bulk_order_update updates] else [].
Proof.
  unfold inbox, broadcastBulkUpdate. rewrite filter_cons, filter_nil. cbn [room].
  destruct (decide _); reflexivity.
Qed.
End ServiceFacts.

(** *** Claims about the broadcaster *)

(** C6.  After any history of client events, [broadcastOrderUpdate] makes
    three emissions: the update itself to the authenticated room, the update
    with [detailedInfo: true] to the room of its order, and one notification
    to the authenticated room.  A socket receives the plain update and the
    notification exactly when it is in the authenticated room, and the
    detail copy exactly when it is in the order room; a socket that never
    sent [join_order_room] for that order receives no detail message at all.
    The severity of the notification is [success] for [created], [warning]
    for [deleted] and [info] for the other kinds. *)
Theorem broadcastOrderUpdate_fanout (tr : list Service.ClientEvent)
    (uuid isoNow : string) (u : Wire.OrderUpdate) :
  let s := Service.after tr in
  let es := Service.broadcastOrderUpdate uuid isoNow u in
  let n := Service.orderNotification uuid isoNow u in
  Service.message <$> es
    = [ Wire.order_update u; Wire.order_detail_update u true; Wire.notification n ]
  ∧ Service.room <$> es
    = [ Service.authenticated_users; Service.orderRoom (Wire.orderId u);
        Service.authenticated_users ]
  ∧ (∀ sid, Service.inbox s sid es
       = (if decide (sid ∈ Service.membersOf s Service.authenticated_users)
          then [Wire.order_update u] else [])
         ++ (if decide (sid ∈ Service.membersOf s (Service.orderRoom (Wire.orderId u)))
             then [Wire.order_detail_update u true] else [])
         ++ (if decide (sid ∈ Service.membersOf s Service.authenticated_users)
             then [Wire.notification n] else []))
  ∧ (∀ sid, Service.join_order_room sid (Wire.orderId u) ∉ tr →
       ∀ u' b, Wire.order_detail_update u' b ∉ Service.inbox s sid es)
  ∧ Wire.n_type n
    = match Wire.type u with
      | Wire.created => Wire.success
      | Wire.deleted => Wire.warning
      | Wire.updated | Wire.status_changed => Wire.info
      end
  ∧ Wire.n_orderId n = Some (Wire.orderId u).
Proof.
  intros s es n. split_and!; try reflexivity.
  - intros sid. apply inbox_broadcastOrderUpdate.
  - intros sid Hnever u' b. unfold es. rewrite inbox_broadcastOrderUpdate.
    rewrite (decide_False (P := sid ∈ Service.membersOf s (Service.orderRoom _))).
    + destruct (decide _); cbn [app]; intros Hin;
        repeat (apply elem_of_cons in Hin as [Hin|Hin]; [discriminate|]);
        by apply elem_of_nil in Hin.
    + rewrite elem_of_membersOf. intros Hin. by apply Hnever, order_room_joined.
Qed.

Lemma broadcastOrderUpdate_fanout_witness :
  let s := Service.after Samples.two_sockets in
  let es := Service.broadcastOrderUpdate "id-1" "2024-01-01T00:00:01.000Z" Samples.o3_update in
  (Service.join_order_room "s2" "o3" ∉ Samples.two_sockets)
  ∧ (∀ u' b, Wire.order_detail_update u' b ∉ Service.inbox s "s2" es)
  ∧ Wire.order_detail_update Samples.o3_update true ∈ Service.inbox s "s1" es
  ∧ Wire.order_update Samples.o3_update ∈ Service.inbox s "s2" es.
Proof.
  intros s es.
  assert (Hnever : Service.join_order_room "s2" (Wire.orderId Samples.o3_update)
                     ∉ Samples.two_sockets).
  { intros Hin. unfold Samples.two_sockets in Hin.
    repeat (apply elem_of_cons in Hin as [Hin|Hin]; [discriminate|]).
    by apply elem_of_nil in Hin. }
  destruct (broadcastOrderUpdate_fanout Samples.two_sockets "id-1"
              "2024-01-01T00:00:01.000Z" Samples.o3_update)
    as (_ & _ & Hinbox & Hdetail & _).
  split_and!; [exact Hnever | exact (Hdetail "s2" Hnever) | |].
  - unfold es, s. rewrite (Hinbox "s1").
    rewrite (decide_True (P := "s1" ∈ Service.membersOf _ (Service.orderRoom _))).
    + apply elem_of_app. right. apply elem_of_app. left. left.
    + rewrite elem_of_membersOf. vm_compute. reflexivity.
  - unfold es, s. rewrite (Hinbox "s2").
    rewrite (decide_True (P := "s2" ∈ Service.membersOf _ Service.authenticated_users)).
    + left.
    + rewrite elem_of_membersOf. vm_compute. reflexivity.
Defined.

(** C9.  [broadcastBulkUpdate] of [N] updates makes one emission, the whole
    array as one [bulk_order_update] message to the authenticated room: every
    socket of that room receives exactly that one message, no socket receives
    an [order_update].  The client handles the message in one step: the array
    is put in front of the kept updates and one toast reports the count,
    where [N] singular messages raise [N] toasts. *)
Theorem bulk_update_single_push (tr : list Service.ClientEvent)
    (updates : list Wire.OrderUpdate) (h : Subscriber.Hook) :
  let s := Service.after tr in
  let es := Service.broadcastBulkUpdate updates in
  let h' := Subscriber.receive (Wire.bulk_order_update updates) h in
  es = [ {| Service.room := Service.authenticated_users;
            Service.message := Wire.bulk_order_update updates |} ]
  ∧ (∀ sid, Service.inbox s sid es
       = if decide (sid ∈ Service.membersOf s Service.authenticated_users)
         then [Wire.bulk_order_update updates] else [])
  ∧ (∀ sid u, Wire.order_update u ∉ Service.inbox s sid es)
  ∧ Subscriber.orderUpdates h'
    = updates ++ Js.slice 0 (50 - Z.of_nat (length updates)) (Subscriber.orderUpdates h)
  ∧ Subscriber.toasts h'
    = Subscriber.toasts h
      ++ [ {| Subscriber.fn := Subscriber.toast_info;
              Subscriber.text := Subscriber.BulkText (length updates) |} ]
  ∧ length (Subscriber.toasts
              (foldl (λ acc u, Subscriber.receive (Wire.order_update u) acc) h updates))
    = (length (Subscriber.toasts h) + length updates)%nat.
Proof.
  intros s es h'. split_and!; try reflexivity.
  - intros sid. apply inbox_broadcastBulkUpdate.
  - intros sid u. unfold es. rewrite inbox_broadcastBulkUpdate.
    destruct (decide _); intros Hin; [|by apply elem_of_nil in Hin].
    apply list_elem_of_singleton in Hin. discriminate.
  - clear. revert h. induction updates as [|u us IH]; intros h; cbn [foldl length].
    + lia.
    + rewrite IH. cbn [Subscriber.receive Subscriber.withToast Subscriber.toasts].
      rewrite length_app. cbn [length]. lia.
Qed.

(** ** Reconnecting subscriber *)

Section SubscriberFacts.
Import Subscriber.

(** The handler taken alone: for a socket opened by a render whose counter
    is [a], a failure schedules one retry after [2000 * 2^a] ms when
    [a < 5] and shows the terminal toast otherwise; the counter of the
    current state goes up by one either way. *)
Lemma on_connect_error_of_render (env : ConnectionState) (message : option string)
    (h : Hook) :
  socket h = Some env →
  let h' := on_connect_error message h in
  reconnectAttempts (connectionState h') = reconnectAttempts (connectionState h) + 1
  ∧ (reconnectAttempts env < 5 →
       scheduled h' = scheduled h ++ [2000 * 2 ^ reconnectAttempts env]
       ∧ reconnectTimeout h' = Some env ∧ toasts h' = toasts h)
  ∧ (5 <= reconnectAttempts env →
       scheduled h' = scheduled h ∧ reconnectTimeout h' = reconnectTimeout h
       ∧ toasts h' = toasts h ++ [ {| fn := toast_error; text := ConnectFailedText |} ]).
Proof.
  intros Hs h'. unfold h', on_connect_error. rewrite Hs.
  unfold maxReconnectAttempts, reconnectDelay.
  destruct (decide (reconnectAttempts env < 5)); cbn; split_and!; (done || lia).
Qed.

(** The delays the handler computes for captured counters 0 to 4. *)
Lemma backoff_table :
  (λ a, reconnectDelay * 2 ^ a) <$> [0; 1; 2; 3; 4] = [2000; 4000; 8000; 16000; 32000].
Proof. reflexivity. Qed.

(** The hook after [n] failures in a row: every retry was the [connect] of
    the first render. *)
Lemma consecutive_failures_state (n : nat) :
  consecutive_failures n
  = {| connectionState := {| isConnected := false; isConnecting := true;
                             error := None; reconnectAttempts := Z.of_nat n |};
       socket := Some initialState; reconnectTimeout := None;
       scheduled := replicate n 2000; toasts := []; dispatched := [];
       notifications := []; orderUpdates := [] |}.
Proof.
  induction n as [|n IH]; [reflexivity|].
  change (consecutive_failures (S n)) with (fail_once (consecutive_failures n)).
  rewrite IH. rewrite replicate_S_end, Nat2Z.inj_succ.
  unfold fail_once, on_connect_error, timeout_fires, connect, withState.
  cbn. unfold Z.succ. reflexivity.
Qed.
End SubscriberFacts.

(** *** Claim about the subscriber *)

(** C4.  The handler reads the counter of the render that opened the socket,
    and the timer calls the [connect] of that same render.  After mounting,
    [n] connect failures in a row therefore schedule [n] retries, each after
    2000 ms, show no terminal toast and leave a socket connecting, while the
    counter in the state grows to [n]; for six failures the delays are six
    times 2000 ms instead of 2, 4, 8, 16, 32 s followed by a stop. *)
Theorem connect_error_backoff_is_constant (n : nat) :
  let h := Subscriber.consecutive_failures n in
  Subscriber.scheduled h = replicate n 2000
  ∧ Subscriber.toasts h = []
  ∧ Subscriber.reconnectAttempts (Subscriber.connectionState h) = Z.of_nat n
  ∧ Subscriber.isConnecting (Subscriber.connectionState h) = true
  ∧ Subscriber.scheduled (Subscriber.consecutive_failures 6)
    = [2000; 2000; 2000; 2000; 2000; 2000].
Proof.
  intros h. unfold h. rewrite !consecutive_failures_state. by split_and!.
Qed.

(** * Further properties of the modelled code *)

(** ** AdvancedCache *)

Section CacheMore.
Context {T : Type}.
Implicit Types (c : Cache.AdvancedCache T) (k : string) (now : Z).

Lemma filter_ext_in {A : Type} (P Q : A → Prop)
    `{!∀ x, Decision (P x), !∀ x, Decision (Q x)} (l : list A) :
  (∀ x, x ∈ l → (P x ↔ Q x)) → filter P l = filter Q l.
Proof.
  induction l as [|a l IH]; intros Hpq; [done|].
  assert (Hl : filter P l = filter Q l) by (apply IH; intros x Hx; apply Hpq; by right).
  rewrite !filter_cons, Hl.
  destruct (decide (P a)) as [Hp|Hp]; destruct (decide (Q a)) as [Hq|Hq]; try done;
    exfalso; pose proof (Hpq a ltac:(left)); tauto.
Qed.

Lemma set_fresh {V : Type} k (v : V) (m : list (string * V)) :
  k ∉ m.*1 → JsMap.set k v m = m ++ [(k, v)].
Proof.
  induction m as [|[k0 v0] m IH]; intros Hk; [done|].
  rewrite fmap_cons in Hk. cbn [fst] in Hk. apply not_elem_of_cons in Hk as [Hne Hk].
  cbn [JsMap.set]. rewrite decide_False by done. cbn [app]. by rewrite IH.
Qed.

Lemma same_key_same_entry {V : Type} (m : list (string * V)) (p q : string * V) :
  NoDup m.*1 → p ∈ m → q ∈ m → p.1 = q.1 → p = q.
Proof.
  intros Hnd Hp Hq Hk. destruct p as [k v], q as [k' v']. cbn [fst] in Hk. subst k'.
  pose proof (elem_get k v m Hnd Hp) as H1. pose proof (elem_get k v' m Hnd Hq) as H2.
  congruence.
Qed.

Lemma cache_foldl_delete (ks : list string) c :
  Cache.cache (foldl (λ acc k, Cache.delete k acc) c ks)
    = filter (λ p, p.1 ∉ ks) (Cache.cache c)
  ∧ Cache.accessOrder (foldl (λ acc k, Cache.delete k acc) c ks)
    = filter (λ x, x ∉ ks) (Cache.accessOrder c).
Proof.
  revert c. induction ks as [|k ks IH]; intros c.
  - cbn [foldl]. split; symmetry; apply filter_all; intros x _; apply not_elem_of_nil.
  - cbn [foldl]. destruct (IH (Cache.delete k c)) as [-> ->].
    cbn [Cache.delete Cache.cache Cache.accessOrder]. unfold JsMap.delete, JsSet.delete.
    rewrite !list_filter_filter. split; apply list_filter_iff; intros x;
      rewrite not_elem_of_cons; tauto.
Qed.

(** The sweep of a well-formed cache keeps exactly the entries that have not
    expired, in their order, in the map and in the recency set. *)
Lemma cleanup_filter now c :
  wf c →
  Cache.cache (Cache.cleanup now c)
    = filter (λ p, now <= Cache.expiresAt p.2) (Cache.cache c)
  ∧ Cache.accessOrder (Cache.cleanup now c)
    = filter (λ x, x ∉ Cache.expiredKeys now c) (Cache.accessOrder c).
Proof.
  intros Hwf. unfold Cache.cleanup.
  destruct (cache_foldl_delete (Cache.expiredKeys now c) c) as [-> ->].
  split; [|done]. apply filter_ext_in. intros p Hp. unfold Cache.expiredKeys.
  rewrite list_elem_of_fmap. split.
  - intros Hno. destruct (decide (now <= Cache.expiresAt p.2)) as [|Hexp]; [done|].
    exfalso. apply Hno. exists p. split; [done|]. apply list_elem_of_filter. split; [lia|done].
  - intros Hlive (q & Hk & Hq). apply list_elem_of_filter in Hq as [Hexp Hq].
    assert (p = q) as -> by (by eapply same_key_same_entry; [apply (wf_keys _ Hwf)|..]).
    lia.
Qed.
End CacheMore.

(** X1.  Whatever sequence of operations is run on a new cache, the map has
    no two entries under one key, every entry records the key it is stored
    under, the recency set has no duplicates and holds exactly the keys of
    the map (so both have the same size), and the configuration is the one
    given to the constructor. *)
Theorem cache_representation_invariant {T : Type} (cfg : Cache.CacheConfig)
    (tr : list (Z * @Cache.op T)) :
  let c := Cache.run cfg tr in
  NoDup (JsMap.keys (Cache.cache c))
  ∧ NoDup (Cache.accessOrder c)
  ∧ (∀ k, k ∈ Cache.accessOrder c ↔ k ∈ JsMap.keys (Cache.cache c))
  ∧ (∀ k item, JsMap.get k (Cache.cache c) = Some item → Cache.key item = k)
  ∧ length (Cache.accessOrder c) = length (Cache.cache c)
  ∧ Cache.config c = cfg.
Proof.
  intros c. destruct (wf_run cfg tr) as [H1 H2 H3 H4]. fold c in H1, H2, H3, H4.
  split_and!; try done.
  - intros k item Hg. apply get_Some_elem in Hg.
    exact (proj1 (Forall_forall _ _) H2 _ Hg).
  - rewrite <- (length_fmap fst (Cache.cache c)). apply Permutation_length.
    by apply NoDup_Permutation.
  - apply config_run.
Qed.

(** X2.  An entry stored by [set] at [now] is returned by a [get] of its key
    up to and including the millisecond [now + age] and by none after it,
    where [age] is the override unless that is missing or zero, in which
    case it is the configured [maxAge]; right after the [set] the key is the
    most recently used one. *)
Theorem set_then_get {T : Type} (c : Cache.AdvancedCache T) (now now' : Z)
    (k : string) (d : T) (a : option Z) :
  let age := match a with
             | Some x => if decide (x = 0) then Cache.maxAge (Cache.config c) else x
             | None => Cache.maxAge (Cache.config c)
             end in
  (Cache.get now' k (Cache.set now k d a c)).1
    = (if decide (now + age < now') then None else Some d)
  ∧ last (Cache.accessOrder (Cache.set now k d a c)) = Some k.
Proof.
  intros age. split.
  - unfold Cache.get, Cache.set. cbn [Cache.updateAccessOrder Cache.cache].
    rewrite get_set, decide_True by done. cbn [Cache.expiresAt Cache.data].
    unfold Cache.effectiveMaxAge. fold age. by destruct (decide _).
  - unfold Cache.set. cbn [Cache.updateAccessOrder Cache.accessOrder].
    rewrite touch_eq. apply last_snoc.
Qed.

(** X3.  For a cache reached by any sequence of operations, [getAllKeys]
    returns the keys of exactly the entries that have not expired, in the
    insertion order of the map, and leaves the cache holding those entries
    only. *)
Theorem getAllKeys_live {T : Type} (cfg : Cache.CacheConfig)
    (tr : list (Z * @Cache.op T)) (now : Z) :
  let c := Cache.run cfg tr in
  (Cache.getAllKeys now c).1
    = (filter (λ p, now <= Cache.expiresAt p.2) (Cache.cache c)).*1
  ∧ Cache.cache (Cache.getAllKeys now c).2
    = filter (λ p, now <= Cache.expiresAt p.2) (Cache.cache c)
  ∧ (∀ k, k ∈ Cache.accessOrder (Cache.getAllKeys now c).2
          ↔ k ∈ (Cache.getAllKeys now c).1).
Proof.
  intros c. pose proof (wf_run cfg tr) as Hwf. fold c in Hwf.
  destruct (cleanup_filter now c Hwf) as [Hc _].
  unfold Cache.getAllKeys. cbn [fst snd]. unfold JsMap.keys. rewrite Hc.
  split_and!; [done | done |]. intros k. rewrite <- Hc.
  apply (wf_same _ (wf_cleanup now c Hwf)).
Qed.

(** X4.  [has] answers as [get] does, without the recency touch: when it
    answers [true] the cache is unchanged and [get] would return a value;
    when it answers [false], [get] would return [null] and both leave the
    same cache (the expired entry, if any, removed). *)
Theorem has_agrees_with_get {T : Type} (c : Cache.AdvancedCache T) (now : Z) (k : string) :
  match (Cache.has now k c).1 with
  | true => (Cache.has now k c).2 = c ∧ ∃ v, (Cache.get now k c).1 = Some v
  | false => (Cache.has now k c).2 = (Cache.get now k c).2
             ∧ (Cache.get now k c).1 = None
  end.
Proof.
  unfold Cache.has, Cache.get. destruct (JsMap.get k (Cache.cache c)) as [item|]; [|done].
  destruct (decide _); cbn [fst snd]; [done|]. split; [done|]. by exists (Cache.data item).
Qed.

(** X5.  On a cache of positive capacity, any sequence of [set], [get],
    [has], [delete], [clear], [getAllKeys] and [export] in which no [set]
    uses the empty string as key leaves at most [maxSize] entries. *)
Theorem capacity_kept_without_import {T : Type} (cfg : Cache.CacheConfig)
    (tr : list (Z * @Cache.op T)) :
  0 < Cache.maxSize cfg →
  Forall (λ e, match e.2 with
               | Cache.OpImport _ => False
               | Cache.OpSet k _ _ => k ≠ ""
               | _ => True
               end) tr →
  Cache.size (Cache.run cfg tr) <= Cache.maxSize cfg.
Proof. intros Hpos Hplain. by apply capacity_without_restore. Qed.

Lemma capacity_kept_without_import_witness :
  let tr := [ (1000, Cache.OpSet "a" 1 None); (1001, Cache.OpSet "b" 2 None);
              (1002, Cache.OpGet "a"); (1003, Cache.OpSet "c" 3 (Some 5));
              (1004, Cache.OpHas "b"); (1010, Cache.OpKeys) ] in
  0 < Cache.maxSize Samples.cfg1
  ∧ Cache.size (Cache.run Samples.cfg1 tr) <= Cache.maxSize Samples.cfg1.
Proof.
  intros tr.
  assert (Hpos : 0 < Cache.maxSize Samples.cfg1) by reflexivity.
  split; [exact Hpos|].
  apply (capacity_kept_without_import Samples.cfg1 tr Hpos).
  unfold tr. repeat (apply Forall_cons; split; [by cbn|]). apply Forall_nil_2.
Defined.

(** X6.  When [set] finds the swept cache full and the key at the front of
    the recency set is not the empty string, it deletes exactly that entry
    and then stores the new one; the deleted key is a stored key, and every
    other surviving key was touched (by a [set], a [get] that returned a
    value, or an [import]) after the last touch of the deleted key. *)
Theorem set_evicts_least_recently_touched {T : Type} (cfg : Cache.CacheConfig)
    (tr : list (Z * @Cache.op T)) (now : Z) (k : string) (d : T) (a : option Z)
    (lru : string) :
  let c := Cache.run cfg tr in
  let swept := Cache.cleanup now c in
  Cache.maxSize (Cache.config swept) <= Cache.size swept →
  JsSet.first (Cache.accessOrder swept) = Some lru →
  lru ≠ "" →
  Cache.cache (Cache.set now k d a c)
    = JsMap.set k {| Cache.data := d; Cache.timestamp := now;
                     Cache.expiresAt := now + Cache.effectiveMaxAge a c;
                     Cache.key := k |}
        (JsMap.delete lru (Cache.cache swept))
  ∧ lru ∈ JsMap.keys (Cache.cache swept)
  ∧ ∃ h1 h2, history cfg tr = h1 ++ lru :: h2 ∧ (lru ∉ h2)
      ∧ ∀ k', k' ∈ JsMap.keys (Cache.cache swept) → k' ≠ lru → k' ∈ h2.
Proof. intros c swept H1 H2 H3. by apply set_evicts_least_recent. Qed.

Lemma set_evicts_least_recently_touched_witness :
  let cfg := {| Cache.maxAge := 300000; Cache.maxSize := 2 |} in
  let tr := [ (1000, Cache.OpSet "a" 1 None); (1001, Cache.OpSet "b" 2 None);
              (1002, Cache.OpGet "a") ] in
  let swept := Cache.cleanup 1003 (Cache.run cfg tr) in
  Cache.maxSize (Cache.config swept) <= Cache.size swept
  ∧ JsSet.first (Cache.accessOrder swept) = Some "b"
  ∧ "b" ≠ ""
  ∧ JsMap.keys (Cache.cache (Cache.set 1003 "c" 3 None (Cache.run cfg tr))) = ["a"; "c"].
Proof.
  intros cfg tr swept.
  assert (H1 : Cache.maxSize (Cache.config (Cache.cleanup 1003 (Cache.run cfg tr)))
               <= Cache.size (Cache.cleanup 1003 (Cache.run cfg tr)))
    by (vm_compute; discriminate).
  assert (H2 : JsSet.first (Cache.accessOrder (Cache.cleanup 1003 (Cache.run cfg tr)))
               = Some "b") by reflexivity.
  assert (H3 : "b" ≠ "") by discriminate.
  split_and!; [exact H1 | exact H2 | exact H3 |].
  rewrite (proj1 (set_evicts_least_recently_touched cfg tr 1003 "c" 3 None "b" H1 H2 H3)).
  reflexivity.
Defined.

(** X7.  When the swept cache is below its capacity, [set] evicts nothing:
    afterwards the key maps to the new entry and every other key maps to
    what the sweep left for it. *)
Theorem set_with_room_keeps_survivors {T : Type} (c : Cache.AdvancedCache T)
    (now : Z) (k : string) (d : T) (a : option Z) :
  Cache.size (Cache.cleanup now c) < Cache.maxSize (Cache.config (Cache.cleanup now c)) →
  ∀ k', JsMap.get k' (Cache.cache (Cache.set now k d a c))
        = if decide (k' = k)
          then Some {| Cache.data := d; Cache.timestamp := now;
                       Cache.expiresAt := now + Cache.effectiveMaxAge a c;
                       Cache.key := k |}
          else JsMap.get k' (Cache.cache (Cache.cleanup now c)).
Proof.
  intros Hroom k'. unfold Cache.set. cbn [Cache.updateAccessOrder Cache.cache].
  rewrite get_set. unfold Cache.evict.
  destruct (decide (Cache.maxSize _ <= _)); [lia | done].
Qed.

Lemma set_with_room_keeps_survivors_witness :
  let c := Cache.run Cache.default_config
             [ (1000, Cache.OpSet "a" 1 None); (1000, Cache.OpSet "b" 2 (Some 1)) ] in
  Cache.size (Cache.cleanup 1002 c) < Cache.maxSize (Cache.config (Cache.cleanup 1002 c))
  ∧ JsMap.get "a" (Cache.cache (Cache.set 1002 "z" 9 None c))
    = Some {| Cache.data := 1; Cache.timestamp := 1000;
              Cache.expiresAt := 301000; Cache.key := "a" |}
  ∧ JsMap.get "b" (Cache.cache (Cache.set 1002 "z" 9 None c)) = None.
Proof.
  intros c.
  assert (Hroom : Cache.size (Cache.cleanup 1002 c)
                  < Cache.maxSize (Cache.config (Cache.cleanup 1002 c))) by reflexivity.
  split_and!; [exact Hroom | |].
  - rewrite (set_with_room_keeps_survivors c 1002 "z" 9 None Hroom "a"). reflexivity.
  - rewrite (set_with_room_keeps_survivors c 1002 "z" 9 None Hroom "b"). reflexivity.
Defined.

Section CacheImportFrame.
Context {T : Type}.

Lemma import_frame now (rec : list (string * Cache.Exported T)) (c : Cache.AdvancedCache T) :
  (∀ k, k ∉ rec.*1 →
     JsMap.get k (Cache.cache (Cache.import now rec c)) = JsMap.get k (Cache.cache c))
  ∧ (∀ k, k ∈ (Cache.cache c).*1 → k ∈ (Cache.cache (Cache.import now rec c)).*1).
Proof.
  unfold Cache.import. revert c. induction rec as [|[k0 x0] rec IH]; intros c; [done|].
  cbn [foldl]. destruct (IH (Cache.import_entry now c (k0, x0))) as [IH1 IH2]. split.
  - intros k Hk. rewrite fmap_cons in Hk. cbn [fst] in Hk.
    apply not_elem_of_cons in Hk as [Hne Hk]. rewrite IH1 by done.
    unfold Cache.import_entry. destruct (decide _); [|done].
    cbn [Cache.updateAccessOrder Cache.cache fst]. rewrite get_set. by rewrite decide_False.
  - intros k Hk. apply IH2. unfold Cache.import_entry. destruct (decide _); [|done].
    cbn [Cache.updateAccessOrder Cache.cache fst]. rewrite keys_set.
    destruct (decide _); [done|]. apply elem_of_app. by left.
Qed.
End CacheImportFrame.

(** X8.  [import] merges: a key that the record does not name keeps its
    entry, no stored key disappears, so the cache never gets smaller, and
    the configuration stays. *)
Theorem import_only_adds {T : Type} (now : Z) (rec : list (string * Cache.Exported T))
    (cfg : Cache.CacheConfig) (tr : list (Z * @Cache.op T)) :
  let c := Cache.run cfg tr in
  let c' := Cache.import now rec c in
  (∀ k, k ∉ rec.*1 → JsMap.get k (Cache.cache c') = JsMap.get k (Cache.cache c))
  ∧ (∀ k, k ∈ JsMap.keys (Cache.cache c) → k ∈ JsMap.keys (Cache.cache c'))
  ∧ Cache.size c <= Cache.size c'
  ∧ Cache.config c' = Cache.config c.
Proof.
  intros c c'. destruct (import_frame now rec c) as [H1 H2].
  split_and!; [exact H1 | exact H2 | | apply config_import].
  unfold Cache.size, JsMap.size. apply inj_le.
  rewrite <- (length_fmap fst (Cache.cache c)), <- (length_fmap fst (Cache.cache c')).
  apply submseteq_length, NoDup_submseteq; [apply (wf_keys _ (wf_run cfg tr)) | exact H2].
Qed.

(** X9.  [delete(k)] concerns [k] only: a [get] or [has] of another key
    answers as before, a second [delete(k)] changes nothing, and [k] itself
    is absent afterwards. *)
Theorem delete_only_its_key {T : Type} (c : Cache.AdvancedCache T) (now : Z)
    (k k' : string) :
  Cache.delete k (Cache.delete k c) = Cache.delete k c
  ∧ (Cache.get now k (Cache.delete k c)).1 = None
  ∧ (k' ≠ k →
       (Cache.get now k' (Cache.delete k c)).1 = (Cache.get now k' c).1
       ∧ (Cache.has now k' (Cache.delete k c)).1 = (Cache.has now k' c).1).
Proof.
  split_and!.
  - unfold Cache.delete, JsMap.delete, JsSet.delete. cbn [Cache.cache Cache.accessOrder Cache.config].
    f_equal; rewrite list_filter_filter; apply list_filter_iff; intros x; tauto.
  - unfold Cache.get. cbn [Cache.delete Cache.cache]. rewrite get_delete.
    by rewrite decide_True.
  - intros Hne. unfold Cache.get, Cache.has. cbn [Cache.delete Cache.cache].
    rewrite get_delete, decide_False by done.
    destruct (JsMap.get k' (Cache.cache c)); [|done]. by destruct (decide _).
Qed.

Lemma delete_only_its_key_witness :
  let c := Cache.run Cache.default_config
             [ (1000, Cache.OpSet "a" 1 None); (1001, Cache.OpSet "b" 2 None) ] in
  "a" ≠ "b" ∧ (Cache.get 1002 "a" (Cache.delete "b" c)).1 = Some 1.
Proof.
  intros c. assert (Hne : "a" ≠ "b") by discriminate. split; [exact Hne|].
  rewrite (proj1 (proj2 (proj2 (delete_only_its_key c 1002 "b" "a")) Hne)). reflexivity.
Defined.

Section CacheExportList.
Context {T : Type}.

Local Abbreviation property := (λ p : string * Cache.CacheItem T, (p.1, exported p.2)).
Local Abbreviation kept now :=
  (λ p : string * Cache.CacheItem T, now <= Cache.expiresAt p.2 ∧ p.1 ≠ "__proto__").
Local Abbreviation named V := (λ q : string * V, JsObject.arrayIndex q.1 = None).
Local Abbreviation assign_live now :=
  (λ (rec : list (string * Cache.Exported T)) (p : string * Cache.CacheItem T),
     if decide (now <= Cache.expiresAt p.2)
     then JsObject.assign p.1 (exported p.2) rec else rec).

Lemma export_step_keys now acc k0 v0 (m : list (string * Cache.CacheItem T)) :
  NoDup (acc.*1 ++ ((k0, v0) :: m).*1) →
  (k0 ∉ acc.*1) ∧ NoDup ((assign_live now acc (k0, v0)).*1 ++ m.*1).
Proof.
  rewrite fmap_cons. cbn [fst snd]. rewrite <- Permutation_middle.
  intros [Hk0 Hnd]%NoDup_cons. rewrite elem_of_app in Hk0.
  split; [tauto|]. destruct (decide (now <= _)); [|done].
  rewrite keys_assign. destruct (decide (_ ∧ _)); [|done].
  cbn [app]. apply NoDup_cons. by rewrite elem_of_app.
Qed.

Lemma export_acc now (m : list (string * Cache.CacheItem T)) acc :
  NoDup (acc.*1 ++ m.*1) →
  foldl (assign_live now) acc m ≡ₚ acc ++ (property <$> filter (kept now) m)
  ∧ filter (named _) (foldl (assign_live now) acc m)
    = filter (named _) acc ++ (property <$> filter (named _) (filter (kept now) m)).
Proof.
  revert acc. induction m as [|[k0 v0] m IH]; intros acc Hnd.
  - cbn. by rewrite !app_nil_r.
  - apply (export_step_keys now) in Hnd as [Hk0 Hnd].
    destruct (IH _ Hnd) as [IHp IHn]. clear IH. cbn [foldl]. cbn [fst snd] in *.
    destruct (decide (now <= Cache.expiresAt v0)) as [Hl|Hl].
    + destruct (decide (k0 = "__proto__")) as [Hp|Hp].
      * rewrite (filter_cons_False _ (k0, v0)) by (cbn; tauto). split.
        -- rewrite IHp, assign_fresh_perm by done. by rewrite decide_False by tauto.
        -- rewrite IHn, assign_fresh_named by done.
           rewrite decide_False by tauto. by rewrite app_nil_r.
      * rewrite (filter_cons_True _ (k0, v0)) by (cbn; tauto). split.
        -- rewrite IHp, assign_fresh_perm by done.
           rewrite decide_True by done. by rewrite fmap_cons, <- app_assoc.
        -- rewrite IHn, assign_fresh_named by done. rewrite <- app_assoc. f_equal.
           destruct (JsObject.arrayIndex k0) as [i|] eqn:Hi.
           ++ rewrite decide_False by (intros [? _]; done).
              rewrite filter_cons_False; [done|]. cbn. by rewrite Hi.
           ++ rewrite decide_True by done. by rewrite filter_cons_True.
    + by rewrite (filter_cons_False _ (k0, v0)) by (cbn; tauto).
Qed.

Lemma export_sorted now (m : list (string * Cache.CacheItem T)) acc :
  StronglySorted JsObject.before acc.*1 →
  StronglySorted JsObject.before (foldl (assign_live now) acc m).*1.
Proof.
  revert acc. induction m as [|p m IH]; intros acc Hs; [done|].
  cbn [foldl]. apply IH. destruct (decide _); [by apply sorted_assign | done].
Qed.
End CacheExportList.

(** X10.  For a cache reached by any sequence of operations, the object
    returned by [export] has exactly one own property per entry that has not
    expired and whose key is not ["__proto__"], carrying the value, the
    creation time and the expiry of that entry; expired entries are left
    out.  Its keys are pairwise different and listed as an object lists
    them: array indices first, by numeric value, then the other keys, these
    in the order of the map. *)
Theorem export_lists_live_entries {T : Type} (cfg : Cache.CacheConfig)
    (tr : list (Z * @Cache.op T)) (now : Z) :
  let c := Cache.run cfg tr in
  let property := λ p : string * Cache.CacheItem T,
    (p.1, {| Cache.x_data := Cache.data p.2;
             Cache.x_timestamp := Cache.timestamp p.2;
             Cache.x_expiresAt := Cache.expiresAt p.2 |}) in
  let live := filter (λ p, now <= Cache.expiresAt p.2 ∧ p.1 ≠ "__proto__") (Cache.cache c) in
  Cache.export now c ≡ₚ property <$> live
  ∧ NoDup (Cache.export now c).*1
  ∧ StronglySorted JsObject.before (Cache.export now c).*1
  ∧ filter (λ q, JsObject.arrayIndex q.1 = None) (Cache.export now c)
    = property <$> filter (λ p, JsObject.arrayIndex p.1 = None) live.
Proof.
  intros c property live.
  assert (Hnd : NoDup (([] : list (string * Cache.Exported T)).*1 ++ (Cache.cache c).*1))
    by apply (wf_keys _ (wf_run cfg tr)).
  destruct (export_acc now _ _ Hnd) as [Hp Hn].
  split_and!; [exact Hp | apply NoDup_export | | exact Hn].
  apply export_sorted. constructor.
Qed.

(** The listing of the keys ["b"], ["2"], ["a"], ["1"], stored in this
    order and exported together with ["__proto__"]. *)
Example export_order_sample :
  (Cache.export 1001 (Cache.run Cache.default_config
     [ (1000, Cache.OpSet "b" 1 None); (1000, Cache.OpSet "2" 2 None);
       (1000, Cache.OpSet "a" 3 None); (1000, Cache.OpSet "1" 4 None);
       (1000, Cache.OpSet "__proto__" 5 None) ])).*1
  = ["1"; "2"; "b"; "a"].
Proof. vm_compute. reflexivity. Qed.

(** X30.  For a cache reached by any sequence of operations, [export()] at
    a positive clock reading [now1] followed by [import()] of the result at
    [now2] into a new cache of the same configuration stores only entries of
    the original cache, unchanged, live at both times and not under the key
    ["__proto__"]; and when no entry that was live at [now1] has expired at
    [now2], the new cache maps exactly the keys other than ["__proto__"]
    that were live at [now1], each to its original entry (value, creation
    time, expiry). *)
Theorem snapshot_restore_roundtrip {T : Type} (cfg : Cache.CacheConfig)
    (tr : list (Z * @Cache.op T)) (now1 now2 : Z) :
  0 < now1 →
  let c := Cache.run cfg tr in
  let c' := Cache.import now2 (Cache.export now1 c) (Cache.create cfg) in
  (∀ k item, JsMap.get k (Cache.cache c') = Some item →
     JsMap.get k (Cache.cache c) = Some item
     ∧ now1 <= Cache.expiresAt item ∧ now2 <= Cache.expiresAt item
     ∧ k ≠ "__proto__")
  ∧ ((∀ k item, JsMap.get k (Cache.cache c) = Some item →
        now1 <= Cache.expiresAt item → now2 <= Cache.expiresAt item) →
     ∀ k, JsMap.get k (Cache.cache c')
          = match JsMap.get k (Cache.cache c) with
            | Some item =>
                if decide (now1 <= Cache.expiresAt item ∧ k ≠ "__proto__")
                then Some item else None
            | None => None
            end).
Proof.
  intros Hpos c c'. pose proof (wf_run cfg tr) as Hwf. fold c in Hwf.
  assert (Hkey : ∀ k item, JsMap.get k (Cache.cache c) = Some item → imported k (exported item) = item).
  { intros k item Hg. apply get_Some_elem in Hg.
    pose proof (proj1 (Forall_forall _ _) (wf_key_field _ Hwf) _ Hg) as Hk.
    simpl in Hk. destruct item; simpl in *. unfold imported, exported; simpl. by subst. }
  assert (Hshape : ∀ k, JsMap.get k (Cache.cache c')
            = match JsMap.get k (Cache.cache c) with
              | Some item =>
                  if decide (now1 <= Cache.expiresAt item ∧ k ≠ "__proto__") then
                    if decide (Cache.expiresAt item ≠ 0 ∧ now2 <= Cache.expiresAt item)
                    then Some item else None
                  else None
              | None => None
              end).
  { intros k. unfold c'. rewrite get_import by apply NoDup_export.
    rewrite get_export by apply (wf_keys _ Hwf).
    destruct (JsMap.get k (Cache.cache c)) as [item|] eqn:Hg; [|reflexivity].
    destruct (decide (now1 <= _ ∧ _)); [|reflexivity]. cbn [exported Cache.x_expiresAt].
    destruct (decide (_ ∧ _)); [|reflexivity]. by rewrite (Hkey k item Hg). }
  split.
  - intros k item. rewrite Hshape.
    destruct (JsMap.get k (Cache.cache c)) as [item0|]; [|discriminate].
    destruct (decide (now1 <= _ ∧ _)) as [[? ?]|]; [|discriminate].
    destruct (decide (_ ∧ _)) as [[_ ?]|]; [|discriminate].
    intros [= <-]. done.
  - intros Hstay k. rewrite Hshape.
    destruct (JsMap.get k (Cache.cache c)) as [item|] eqn:Hg; [|reflexivity].
    destruct (decide (now1 <= _ ∧ _)) as [[Hlive ?]|]; [|reflexivity].
    rewrite decide_True; [reflexivity|]. split; [lia | by eapply Hstay].
Qed.

Lemma snapshot_restore_roundtrip_witness :
  let tr := [(1000, Cache.OpSet "a" 1 None); (1000, Cache.OpSet "b" 2 (Some 1))] in
  let c := Cache.run Cache.default_config tr in
  let c' := Cache.import 1003 (Cache.export 1002 c) (Cache.create Cache.default_config) in
  0 < 1002
  ∧ (∀ k item, JsMap.get k (Cache.cache c) = Some item →
       1002 <= Cache.expiresAt item → 1003 <= Cache.expiresAt item)
  ∧ JsMap.get "a" (Cache.cache c')
    = Some {| Cache.data := 1; Cache.timestamp := 1000;
              Cache.expiresAt := 301000; Cache.key := "a" |}
  ∧ JsMap.get "b" (Cache.cache c') = None.
Proof.
  intros tr c c'.
  assert (Hpos : 0 < 1002) by reflexivity.
  assert (Hstay : ∀ k item, JsMap.get k (Cache.cache (Cache.run Cache.default_config tr)) = Some item →
            1002 <= Cache.expiresAt item → 1003 <= Cache.expiresAt item).
  { intros k item. vm_compute Cache.run. simpl.
    destruct (decide (k = "a")); [intros [= <-]; simpl; lia|].
    destruct (decide (k = "b")); [intros [= <-]; simpl; lia | discriminate]. }
  pose proof (proj2 (snapshot_restore_roundtrip Cache.default_config tr 1002 1003 Hpos) Hstay) as Hrt.
  split_and!; [exact Hpos | exact Hstay | |].
  - exact (Hrt "a").
  - exact (Hrt "b").
Defined.

(** ** useOptimisticUpdates *)

Section TrackerMore.
Context {T E : Type} (keyExtractor : T → string).
Implicit Types (st : Tracker.State T) (k : string) (l : list T).

Lemma removeItem_snoc k (x : T) l :
  keyExtractor x = k →
  Tracker.removeItem keyExtractor k (l ++ [x]) = Tracker.removeItem keyExtractor k l.
Proof.
  intros Hx. unfold Tracker.removeItem. rewrite filter_app.
  rewrite (filter_cons_False _ x []) by (intros H; by apply H). by rewrite filter_nil, app_nil_r.
Qed.

Lemma removeItem_fresh k l :
  Tracker.findItem keyExtractor k l = None → Tracker.removeItem keyExtractor k l = l.
Proof. intros Hf. apply filter_all. by apply findItem_None. Qed.

Lemma replaceItem_fresh k (x : T) l :
  Tracker.findItem keyExtractor k l = None → Tracker.replaceItem keyExtractor k x l = l.
Proof.
  intros Hf. apply replaceItem_id. intros y Hy Hk.
  by destruct (proj1 (findItem_None keyExtractor k l) Hf y Hy).
Qed.

Lemma findItem_removeItem k l :
  Tracker.findItem keyExtractor k (Tracker.removeItem keyExtractor k l) = None.
Proof.
  apply findItem_None. intros x Hx. unfold Tracker.removeItem in Hx.
  apply list_elem_of_filter in Hx. tauto.
Qed.

End TrackerMore.

(** X11.  A rejected [optimisticCreate] removes every item that carries the
    key of the new item, the new one and any older one alike; when no item
    had that key before the call, the list is the one before the call.  The
    server operation ran once and the key is no longer tracked. *)
Theorem optimisticCreate_rejected {T E : Type} (keyExtractor : T → string)
    (now : Z) (newItem : T) (e : E) (st : Tracker.State T) :
  let k := keyExtractor newItem in
  let out := Tracker.optimisticCreate keyExtractor now newItem (Tracker.Rejects e) st in
  Tracker.data (Tracker.final out) = Tracker.removeItem keyExtractor k (Tracker.data st)
  ∧ (Tracker.findItem keyExtractor k (Tracker.data st) = None →
       Tracker.data (Tracker.final out) = Tracker.data st)
  ∧ Tracker.optimisticOperations (Tracker.final out) !! k = None
  ∧ Tracker.serverCalls out = 1%nat.
Proof.
  intros k out.
  assert (Hdata : Tracker.data (Tracker.final out)
            = Tracker.removeItem keyExtractor k (Tracker.data st)).
  { unfold out, Tracker.optimisticCreate. tracker_unfold. by apply removeItem_snoc. }
  split_and!; [exact Hdata | | |reflexivity].
  - intros Hfresh. rewrite Hdata. by apply removeItem_fresh.
  - unfold out, Tracker.optimisticCreate. tracker_unfold. apply lookup_delete_eq.
Qed.

Lemma optimisticCreate_rejected_witness :
  let st := Samples.orders [ {| Samples.id := "o1"; Samples.amount := 10 |} ] in
  let new := {| Samples.id := "o2"; Samples.amount := 20 |} in
  Tracker.findItem Samples.id "o2" (Tracker.data st) = None
  ∧ Tracker.data (Tracker.final
      (Tracker.optimisticCreate Samples.id 1000 new (Tracker.Rejects "rejected") st))
    = Tracker.data st.
Proof.
  intros st new.
  assert (Hfresh : Tracker.findItem Samples.id (Samples.id new) (Tracker.data st) = None)
    by reflexivity.
  split; [exact Hfresh|].
  exact (proj1 (proj2 (optimisticCreate_rejected (E:=string) Samples.id 1000 new
                         "rejected" st)) Hfresh).
Defined.

(** X12.  A resolved [optimisticCreate] puts the server's item in the place
    of the optimistic one at the end of the list, and also in the place of
    every older item with the key of the new item; when no item had that key
    before the call, the list is the old one followed by the server's item.
    The key is no longer tracked. *)
Theorem optimisticCreate_resolved {T E : Type} (keyExtractor : T → string)
    (now : Z) (newItem serverResult : T) (st : Tracker.State T) :
  let k := keyExtractor newItem in
  let out := Tracker.optimisticCreate (E:=E) keyExtractor now newItem
               (Tracker.Resolves serverResult) st in
  Tracker.data (Tracker.final out)
    = Tracker.replaceItem keyExtractor k serverResult (Tracker.data st) ++ [serverResult]
  ∧ (Tracker.findItem keyExtractor k (Tracker.data st) = None →
       Tracker.data (Tracker.final out) = Tracker.data st ++ [serverResult])
  ∧ Tracker.optimisticOperations (Tracker.final out) !! k = None
  ∧ Tracker.chain out = Some (Tracker.Resolves ()).
Proof.
  intros k out.
  assert (Hdata : Tracker.data (Tracker.final out)
            = Tracker.replaceItem keyExtractor k serverResult (Tracker.data st)
              ++ [serverResult]).
  { unfold out, Tracker.optimisticCreate. tracker_unfold.
    unfold Tracker.replaceItem. rewrite fmap_app. cbn [fmap list_fmap].
    fold k. by rewrite decide_True. }
  split_and!; [exact Hdata | | |reflexivity].
  - intros Hfresh. rewrite Hdata. by rewrite replaceItem_fresh.
  - unfold out, Tracker.optimisticCreate. tracker_unfold. apply lookup_delete_eq.
Qed.

Lemma optimisticCreate_resolved_witness :
  let st := Samples.orders [ {| Samples.id := "o1"; Samples.amount := 10 |} ] in
  let new := {| Samples.id := "tmp"; Samples.amount := 20 |} in
  let saved := {| Samples.id := "o2"; Samples.amount := 20 |} in
  Tracker.findItem Samples.id "tmp" (Tracker.data st) = None
  ∧ Tracker.data (Tracker.final
      (Tracker.optimisticCreate (E:=string) Samples.id 1000 new (Tracker.Resolves saved) st))
    = Tracker.data st ++ [saved].
Proof.
  intros st new saved.
  assert (Hfresh : Tracker.findItem Samples.id (Samples.id new) (Tracker.data st) = None)
    by reflexivity.
  split; [exact Hfresh|].
  exact (proj1 (proj2 (optimisticCreate_resolved (E:=string) Samples.id 1000 new saved st))
           Hfresh).
Defined.

(** X13.  A resolved [optimisticUpdate] of an item whose key is present.
    When the item found under the key is truthy (as every object is), the
    server's item ends at every position that held that key, every other
    position is as it was, the key is untracked and [serverOperation] ran
    once.  When it is falsy, the call returns at its guard: the state is
    unchanged, [serverOperation] is not invoked and no promise chain
    exists. *)
Theorem optimisticUpdate_resolved {T E : Type} (keyExtractor : T → string)
    (truthy : T → bool)
    (now : Z) (updatedItem originalItem serverResult : T) (st : Tracker.State T) :
  let k := keyExtractor updatedItem in
  Tracker.findItem keyExtractor k (Tracker.data st) = Some originalItem →
  let out := Tracker.optimisticUpdate (E:=E) keyExtractor truthy now updatedItem
               (Tracker.Resolves serverResult) st in
  if truthy originalItem then
    (∀ i x, Tracker.data st !! i = Some x →
       Tracker.data (Tracker.final out) !! i
         = Some (if decide (keyExtractor x = k) then serverResult else x))
    ∧ length (Tracker.data (Tracker.final out)) = length (Tracker.data st)
    ∧ Tracker.optimisticOperations (Tracker.final out) !! k = None
    ∧ Tracker.serverCalls out = 1%nat
    ∧ Tracker.chain out = Some (Tracker.Resolves ())
  else
    out = {| Tracker.final := st; Tracker.serverCalls := 0;
             Tracker.caller := Tracker.Returns; Tracker.chain := None |}.
Proof.
  intros k Hfind out. unfold out, Tracker.optimisticUpdate. fold k. rewrite Hfind.
  destruct (truthy originalItem); [|reflexivity]. tracker_unfold.
  rewrite replaceItem_twice by done. split_and!; [| apply length_replaceItem | | done | done].
  - intros i x Hx. unfold Tracker.replaceItem. by rewrite list_lookup_fmap, Hx.
  - apply lookup_delete_eq.
Qed.

Lemma optimisticUpdate_resolved_witness :
  let st := Samples.orders [ {| Samples.id := "o1"; Samples.amount := 10 |};
                             {| Samples.id := "o2"; Samples.amount := 5 |} ] in
  let upd := {| Samples.id := "o1"; Samples.amount := 20 |} in
  let saved := {| Samples.id := "o1"; Samples.amount := 21 |} in
  let out := Tracker.optimisticUpdate (E:=string) Samples.id Samples.truthy 1000 upd
               (Tracker.Resolves saved) st in
  Tracker.findItem Samples.id "o1" (Tracker.data st)
    = Some {| Samples.id := "o1"; Samples.amount := 10 |}
  ∧ Tracker.data (Tracker.final out) !! 0%nat = Some saved
  ∧ length (Tracker.data (Tracker.final out)) = 2%nat
  ∧ Tracker.serverCalls out = 1%nat.
Proof.
  intros st upd saved out.
  assert (Hfind : Tracker.findItem Samples.id (Samples.id upd) (Tracker.data st)
            = Some {| Samples.id := "o1"; Samples.amount := 10 |}) by reflexivity.
  destruct (optimisticUpdate_resolved (E:=string) Samples.id Samples.truthy 1000 upd _
              saved st Hfind)
    as (Hpos & Hlen & _ & Hcalls & _).
  split_and!; [exact Hfind | | exact Hlen | exact Hcalls].
  exact (Hpos 0%nat {| Samples.id := "o1"; Samples.amount := 10 |} eq_refl).
Defined.

(** X14.  When the keys of the local state are pairwise different, a
    rejected [optimisticUpdate] leaves the whole list exactly as it was
    before the call. *)
Theorem optimisticUpdate_rejected_restores_list {T E : Type} (keyExtractor : T → string)
    (truthy : T → bool)
    (now : Z) (updatedItem originalItem : T) (e : E) (st : Tracker.State T) :
  Tracker.findItem keyExtractor (keyExtractor updatedItem) (Tracker.data st)
    = Some originalItem →
  NoDup (keyExtractor <$> Tracker.data st) →
  Tracker.data (Tracker.final
    (Tracker.optimisticUpdate keyExtractor truthy now updatedItem (Tracker.Rejects e) st))
  = Tracker.data st.
Proof. intros Hfind Hnd. by eapply optimisticUpdate_rollback_data. Qed.

Lemma optimisticUpdate_rejected_restores_list_witness :
  let st := Samples.orders [ {| Samples.id := "o1"; Samples.amount := 10 |};
                             {| Samples.id := "o2"; Samples.amount := 5 |} ] in
  let upd := {| Samples.id := "o2"; Samples.amount := 6 |} in
  Tracker.findItem Samples.id "o2" (Tracker.data st)
    = Some {| Samples.id := "o2"; Samples.amount := 5 |}
  ∧ NoDup (Samples.id <$> Tracker.data st)
  ∧ Tracker.data (Tracker.final
      (Tracker.optimisticUpdate Samples.id Samples.truthy 1000 upd
         (Tracker.Rejects "rejected") st))
    = Tracker.data st.
Proof.
  intros st upd.
  assert (Hfind : Tracker.findItem Samples.id (Samples.id upd) (Tracker.data st)
            = Some {| Samples.id := "o2"; Samples.amount := 5 |}) by reflexivity.
  assert (Hnd : NoDup (Samples.id <$> Tracker.data st)).
  { cbn. apply NoDup_cons. split; [|apply NoDup_singleton].
    intros Hin. apply list_elem_of_singleton in Hin. discriminate. }
  split_and!; [exact Hfind | exact Hnd |].
  exact (optimisticUpdate_rejected_restores_list (E:=string) Samples.id Samples.truthy
           1000 upd _ "rejected" st Hfind Hnd).
Defined.

(** X15.  A resolved [optimisticDelete] of a present key.  When the item
    found under the key is truthy (as every object is), the list is left
    without any item of that key and with all other items in their order,
    the key is untracked, [serverOperation] ran once and the promise chain
    is fulfilled.  When it is falsy, the call returns at its guard: the
    state is unchanged, [serverOperation] is not invoked and no promise
    chain exists. *)
Theorem optimisticDelete_resolved {T E : Type} (keyExtractor : T → string)
    (truthy : T → bool)
    (now : Z) (k : string) (originalItem : T) (st : Tracker.State T) :
  Tracker.findItem keyExtractor k (Tracker.data st) = Some originalItem →
  let out := Tracker.optimisticDelete (E:=E) keyExtractor truthy now k
               (Tracker.Resolves ()) st in
  if truthy originalItem then
    Tracker.data (Tracker.final out)
      = filter (λ item, keyExtractor item ≠ k) (Tracker.data st)
    ∧ Tracker.findItem keyExtractor k (Tracker.data (Tracker.final out)) = None
    ∧ Tracker.optimisticOperations (Tracker.final out) !! k = None
    ∧ Tracker.serverCalls out = 1%nat
    ∧ Tracker.chain out = Some (Tracker.Resolves ())
  else
    out = {| Tracker.final := st; Tracker.serverCalls := 0;
             Tracker.caller := Tracker.Returns; Tracker.chain := None |}.
Proof.
  intros Hfind out. unfold out, Tracker.optimisticDelete. rewrite Hfind.
  destruct (truthy originalItem); [|reflexivity]. tracker_unfold.
  split_and!; [done | apply findItem_removeItem | apply lookup_delete_eq | done | done].
Qed.

Lemma optimisticDelete_resolved_witness :
  let st := Samples.orders Samples.shared_key in
  let out := Tracker.optimisticDelete (E:=string) Samples.id Samples.truthy 1000 "o2"
               (Tracker.Resolves ()) st in
  Tracker.findItem Samples.id "o2" (Tracker.data st)
    = Some {| Samples.id := "o2"; Samples.amount := 1 |}
  ∧ Tracker.data (Tracker.final out) = [ {| Samples.id := "o3"; Samples.amount := 3 |} ]
  ∧ Tracker.serverCalls out = 1%nat.
Proof.
  intros st out.
  assert (Hfind : Tracker.findItem Samples.id "o2" (Tracker.data st)
            = Some {| Samples.id := "o2"; Samples.amount := 1 |}) by reflexivity.
  destruct (optimisticDelete_resolved (E:=string) Samples.id Samples.truthy 1000 "o2" _
              st Hfind)
    as (Hdata & _ & _ & Hcalls & _).
  split_and!; [exact Hfind | exact Hdata | exact Hcalls].
Defined.

(** X16.  Whatever the three callbacks do and however the server call
    settles, the tracked operations of all other keys are left as they were;
    the key of the call itself is untracked once the call got as far as the
    server operation. *)
Theorem tracking_touches_only_its_key {T E : Type} (keyExtractor : T → string)
    (truthy : T → bool) (now : Z) (item : T) (k k' : string)
    (server : Tracker.Settle T E) (server' : Tracker.Settle unit E)
    (st : Tracker.State T) :
  let ops out := Tracker.optimisticOperations (Tracker.final out) in
  let created := Tracker.optimisticCreate keyExtractor now item server st in
  let updated := Tracker.optimisticUpdate keyExtractor truthy now item server st in
  let deleted := Tracker.optimisticDelete keyExtractor truthy now k server' st in
  (k' ≠ keyExtractor item →
     ops created !! k' = Tracker.optimisticOperations st !! k'
     ∧ ops updated !! k' = Tracker.optimisticOperations st !! k')
  ∧ (k' ≠ k → ops deleted !! k' = Tracker.optimisticOperations st !! k')
  ∧ ops created !! keyExtractor item = None
  ∧ (Tracker.serverCalls updated = 1%nat → ops updated !! keyExtractor item = None)
  ∧ (Tracker.serverCalls deleted = 1%nat → ops deleted !! k = None).
Proof.
  intros ops created updated deleted.
  unfold ops, created, updated, deleted,
    Tracker.optimisticCreate, Tracker.optimisticUpdate, Tracker.optimisticDelete.
  split_and!.
  - intros Hne. split.
    + destruct server; tracker_unfold; by rewrite lookup_delete_ne, lookup_insert_ne.
    + destruct (Tracker.findItem _ _ _) as [o|]; [|done]. destruct (truthy o); [|done].
      destruct server; tracker_unfold; by rewrite lookup_delete_ne, lookup_insert_ne.
  - intros Hne. destruct (Tracker.findItem keyExtractor k _) as [o|]; [|done].
    destruct (truthy o); [|done].
    destruct server'; tracker_unfold; by rewrite lookup_delete_ne, lookup_insert_ne.
  - destruct server; tracker_unfold; apply lookup_delete_eq.
  - destruct (Tracker.findItem _ _ _) as [o|]; [|discriminate].
    destruct (truthy o); [|discriminate]. intros _.
    destruct server; tracker_unfold; apply lookup_delete_eq.
  - destruct (Tracker.findItem keyExtractor k _) as [o|]; [|discriminate].
    destruct (truthy o); [|discriminate]. intros _.
    destruct server'; tracker_unfold; apply lookup_delete_eq.
Qed.

Lemma tracking_touches_only_its_key_witness :
  let tracked := {| Tracker.type := Tracker.update; Tracker.originalData := None;
                    Tracker.newData := None; Tracker.timestamp := 1 |} in
  let st := {| Tracker.data := [ {| Samples.id := "o1"; Samples.amount := 10 |} ];
               Tracker.optimisticOperations := {[ "o7" := tracked ]} |} in
  let upd := {| Samples.id := "o1"; Samples.amount := 20 |} in
  "o7" ≠ Samples.id upd
  ∧ Tracker.optimisticOperations
      (Tracker.final (Tracker.optimisticUpdate Samples.id Samples.truthy 1000 upd
                        (Tracker.Rejects "rejected") st)) !! "o7" = Some tracked.
Proof.
  intros tracked st upd.
  assert (Hne : "o7" ≠ Samples.id upd) by discriminate.
  split; [exact Hne|].
  rewrite (proj2 (proj1 (tracking_touches_only_its_key Samples.id Samples.truthy 1000 upd "x" "o7"
                           (Tracker.Rejects "rejected") (Tracker.Rejects "rejected") st) Hne)).
  apply lookup_singleton_eq.
Defined.

(** ** useAdvancedLoading *)

Section LoadingFacts.
Import Loading.

Lemma progress_in_range_step (st : State) (c : Call) :
  map_Forall (λ _ v, 0 <= v <= 100) (loadingProgress st) →
  map_Forall (λ _ v, 0 <= v <= 100) (loadingProgress (apply st c)).
Proof.
  intros Hst. destruct c as [k b m|k p]; cbn [apply].
  - unfold setLoading. destruct b; cbn [loadingProgress]; [done|].
    by apply map_Forall_delete.
  - cbn [setProgress loadingProgress]. apply map_Forall_insert_2; [cbn beta; lia | done].
Qed.

Lemma progress_in_range (calls : list Call) :
  map_Forall (λ _ v, 0 <= v <= 100) (loadingProgress (after calls)).
Proof.
  unfold after. induction calls as [|c calls IH] using rev_ind.
  - apply map_Forall_empty.
  - rewrite foldl_app. cbn [foldl]. by apply progress_in_range_step.
Qed.

Lemma any_loading (st : State) :
  existsb id (map_to_list (loadingStates st)).*2 = true
  ↔ ∃ k, loadingStates st !! k = Some true.
Proof.
  rewrite existsb_exists. split.
  - intros (b & Hin & Hb). unfold id in Hb. subst b.
    apply list_elem_of_In, list_elem_of_fmap in Hin as ([k b] & Hb & Hin).
    cbn [snd] in Hb. subst b. apply elem_of_map_to_list in Hin. eauto.
  - intros (k & Hk). exists true. split; [|done].
    apply list_elem_of_In, list_elem_of_fmap. exists (k, true). split; [done|].
    by apply elem_of_map_to_list.
Qed.
End LoadingFacts.

(** X17.  The progress reported for any key after any sequence of
    [setLoading] and [setProgress] calls lies between 0 and 100; right after
    [setProgress(key, p)] it is [p] cut to that range. *)
Theorem progress_is_clamped (calls : list Loading.Call) (key : string) (p : Z) :
  0 <= Loading.getProgress key (Loading.after calls) <= 100
  ∧ Loading.getProgress key (Loading.setProgress key p (Loading.after calls))
    = (if decide (p < 0) then 0 else if decide (100 < p) then 100 else p).
Proof.
  split.
  - unfold Loading.getProgress.
    destruct (Loading.loadingProgress (Loading.after calls) !! key) as [v|] eqn:Hv;
      cbn [default]; unfold id; [|lia].
    exact (progress_in_range calls key v Hv).
  - unfold Loading.getProgress, Loading.setProgress. cbn [Loading.loadingProgress].
    rewrite lookup_insert_eq. cbn [default]. unfold id.
    destruct (decide (p < 0)); [lia|]. destruct (decide (100 < p)); lia.
Qed.

(** X18.  [setLoading(key, false, message)] leaves the key with progress 0
    and an empty message, also when a message is passed in that call, and
    records the key as not loading; progress, message and loading flag of
    every other key are as before. *)
Theorem setLoading_false_clears (st : Loading.State) (key other : string)
    (message : option string) :
  let st' := Loading.setLoading key false message st in
  Loading.getProgress key st' = 0
  ∧ Loading.getMessage key st' = ""
  ∧ Loading.loadingStates st' !! key = Some false
  ∧ (other ≠ key →
       Loading.getProgress other st' = Loading.getProgress other st
       ∧ Loading.getMessage other st' = Loading.getMessage other st
       ∧ Loading.loadingStates st' !! other = Loading.loadingStates st !! other).
Proof.
  intros st'. unfold st', Loading.getProgress, Loading.getMessage, Loading.setLoading.
  cbn [Loading.loadingProgress Loading.loadingMessages Loading.loadingStates].
  split_and!.
  - by rewrite lookup_delete_eq.
  - by rewrite lookup_delete_eq.
  - by rewrite lookup_insert_eq.
  - intros Hne. rewrite !lookup_delete_ne, lookup_insert_ne by done. split_and!; try done.
    destruct message as [m|]; [|done]. destruct (decide (m = "")); [done|].
    by rewrite lookup_insert_ne.
Qed.

Lemma setLoading_false_clears_witness :
  let st := Loading.after [ Loading.CallSetLoading "orders" true (Some "Loading orders");
                            Loading.CallSetProgress "orders" 40;
                            Loading.CallSetProgress "stats" 70 ] in
  let st' := Loading.setLoading "orders" false (Some "done") st in
  "stats" ≠ "orders"
  ∧ Loading.getProgress "stats" st' = 70
  ∧ Loading.getMessage "orders" st' = "".
Proof.
  intros st st'. assert (Hne : "stats" ≠ "orders") by discriminate.
  destruct (setLoading_false_clears st "orders" "stats" (Some "done"))
    as (_ & Hmsg & _ & Hother).
  split_and!; [exact Hne | | exact Hmsg].
  unfold st'. rewrite (proj1 (Hother Hne)). vm_compute. reflexivity.
Defined.

(** X19.  [isLoading()] without a key is [true] exactly when some key is
    recorded as loading; [isLoading("")] is the same question, the empty
    string being taken for no key; for any other key the answer is the
    recorded flag, [false] when there is none. *)
Theorem isLoading_meaning (st : Loading.State) (key : string) :
  (Loading.isLoading None st = true ↔ ∃ k, Loading.loadingStates st !! k = Some true)
  ∧ Loading.isLoading (Some "") st = Loading.isLoading None st
  ∧ (key ≠ "" →
       Loading.isLoading (Some key) st = default false (Loading.loadingStates st !! key)).
Proof.
  split_and!.
  - apply any_loading.
  - reflexivity.
  - intros Hne. unfold Loading.isLoading. by rewrite decide_False.
Qed.

Lemma isLoading_meaning_witness :
  let st := Loading.after [ Loading.CallSetLoading "orders" true None;
                            Loading.CallSetLoading "orders" false None ] in
  "orders" ≠ "" ∧ Loading.isLoading (Some "orders") st = false.
Proof.
  intros st. assert (Hne : "orders" ≠ "") by discriminate. split; [exact Hne|].
  rewrite (proj2 (proj2 (isLoading_meaning st "orders")) Hne). vm_compute. reflexivity.
Defined.

(** ** Array windows: usePerformanceMonitor and the buffers of useWebSocket *)

Section SliceFacts.
Context {A : Type}.
Implicit Types (l : list A).

(** [l.slice(0, n)] for [n >= 0] is the first [n] elements. *)
Lemma slice_prefix (n : Z) l : 0 <= n → Js.slice 0 n l = take (Z.to_nat n) l.
Proof.
  intros Hn. unfold Js.slice, Js.relIndex.
  rewrite (decide_False (P := 0 < 0)) by lia. rewrite (decide_False (P := n < 0)) by lia.
  rewrite (Z.min_l 0) by lia. change (Z.to_nat 0) with 0%nat.
  rewrite drop_0, Z.sub_0_r.
  destruct (decide (n <= Z.of_nat (length l))).
  - by rewrite (Z.min_l n) by lia.
  - rewrite (Z.min_r n) by lia. rewrite Nat2Z.id. rewrite !take_ge by lia. done.
Qed.

(** [l.slice(0, -m)] for [m > 0] drops the last [m] elements. *)
Lemma slice_drop_last (m : Z) l :
  0 < m → Js.slice 0 (- m) l = take (length l - Z.to_nat m) l.
Proof.
  intros Hm. unfold Js.slice, Js.relIndex.
  rewrite (decide_False (P := 0 < 0)) by lia. rewrite (decide_True (P := - m < 0)) by lia.
  rewrite (Z.min_l 0) by lia. change (Z.to_nat 0) with 0%nat.
  rewrite drop_0, Z.sub_0_r. f_equal. lia.
Qed.

(** [l.slice(-n)] for [n > 0] is the last [n] elements. *)
Lemma slice_suffix (n : Z) l :
  0 < n → Js.slice (- n) (Z.of_nat (length l)) l = drop (length l - Z.to_nat n) l.
Proof.
  intros Hn. unfold Js.slice, Js.relIndex.
  rewrite (decide_True (P := - n < 0)) by lia.
  rewrite (decide_False (P := Z.of_nat (length l) < 0)) by lia.
  rewrite Z.min_id.
  replace (Z.to_nat (Z.max (Z.of_nat (length l) + - n) 0)) with (length l - Z.to_nat n)%nat by lia.
  apply take_ge. rewrite length_drop. lia.
Qed.
End SliceFacts.

Section PerfFacts.
Context {D : Type}.

Lemma newTimes_suffix (prev : list D) (d : D) :
  Perf.newTimes prev d = drop (S (length prev) - 50) (prev ++ [d]).
Proof.
  unfold Perf.newTimes. cbn zeta. change (-50) with (Z.opp 50).
  rewrite slice_suffix by lia.
  rewrite length_app. cbn [length]. f_equal. lia.
Qed.

Lemma perf_after (ds : list D) :
  Perf.renderTimes (Perf.after ds) = drop (length ds - 50) ds
  ∧ Perf.renderCount (Perf.after ds) = Z.of_nat (length ds).
Proof.
  unfold Perf.after. induction ds as [|d ds [IH1 IH2]] using rev_ind; [done|].
  rewrite foldl_app. cbn [foldl Perf.endTiming Perf.renderTimes Perf.renderCount].
  rewrite IH1, IH2, newTimes_suffix, !length_app, length_drop. cbn [length]. split; [|lia].
  destruct (decide (length ds ≤ 50)%nat) as [Hle|Hgt].
  - replace (length ds - 50)%nat with 0%nat by lia. cbn [drop]. f_equal. lia.
  - replace (S (length ds - (length ds - 50)) - 50)%nat with 1%nat by lia.
    replace (length ds + 1 - 50)%nat with (S (length ds - 50))%nat by lia.
    rewrite !drop_app_le by (rewrite ?length_drop; lia).
    f_equal. rewrite drop_drop. f_equal. lia.
Qed.
End PerfFacts.

(** X20.  After any number of [endTiming] calls the kept render times are
    the last 50 measured durations in the order they were measured (all of
    them while there are at most 50), and [renderCount] is the number of
    calls. *)
Theorem render_times_window {D : Type} (durations : list D) :
  Perf.renderTimes (Perf.after durations) = drop (length durations - 50) durations
  ∧ (length (Perf.renderTimes (Perf.after durations)) = min (length durations) 50)%nat
  ∧ Perf.renderCount (Perf.after durations) = Z.of_nat (length durations).
Proof.
  destruct (perf_after durations) as [H1 H2]. split_and!; [done | | done].
  rewrite H1, length_drop. lia.
Qed.

Section BufferFacts.
Import Subscriber.

Lemma receive_bounded (m : Wire.Message) (h : Hook) :
  match m with Wire.bulk_order_update us => (length us ≤ 50)%nat | _ => True end →
  (length (orderUpdates h) ≤ 50)%nat → (length (notifications h) ≤ 100)%nat →
  (length (orderUpdates (receive m h)) ≤ 50)%nat
  ∧ (length (notifications (receive m h)) ≤ 100)%nat.
Proof.
  intros Hm Ho Hn.
  destruct m as [u|u b|us|n]; cbn [receive withToast orderUpdates notifications].
  - rewrite slice_prefix by lia. cbn [length]. rewrite length_take. lia.
  - done.
  - rewrite slice_prefix by lia. rewrite length_app, length_take. lia.
  - rewrite slice_prefix by lia. cbn [length]. rewrite length_take. lia.
Qed.
End BufferFacts.

(** X21.  Starting from a mounted hook, whatever [order_update],
    [order_detail_update], [notification] and [bulk_order_update] messages
    arrive, the hook keeps at most 50 order updates and at most 100
    notifications, provided no bulk message carries more than 50 updates; a
    single update or notification arrives at the front of its list. *)
Theorem buffers_bounded (ms : list Wire.Message) :
  Forall (λ m, match m with
               | Wire.bulk_order_update us => (length us ≤ 50)%nat
               | _ => True
               end) ms →
  let h := foldl (λ acc m, Subscriber.receive m acc) Subscriber.mount ms in
  (length (Subscriber.orderUpdates h) ≤ 50)%nat
  ∧ (length (Subscriber.notifications h) ≤ 100)%nat
  ∧ (∀ u, head (Subscriber.orderUpdates (Subscriber.receive (Wire.order_update u) h)) = Some u)
  ∧ (∀ n, head (Subscriber.notifications (Subscriber.receive (Wire.notification n) h)) = Some n).
Proof.
  intros Hms h.
  assert (Hb : (length (Subscriber.orderUpdates h) ≤ 50)%nat
               ∧ (length (Subscriber.notifications h) ≤ 100)%nat).
  { unfold h. clear h. induction ms as [|m ms IH] using rev_ind.
    - cbn. lia.
    - apply Forall_app in Hms as [Hms Hm]. apply Forall_inv in Hm.
      rewrite foldl_app. cbn [foldl]. destruct (IH Hms) as [Ho Hn].
      by apply receive_bounded. }
  destruct Hb as [Ho Hn]. split_and!; done.
Qed.

Lemma buffers_bounded_witness :
  let u := Samples.o3_update in
  let ms := [ Wire.order_update u; Wire.bulk_order_update (replicate 50 u);
              Wire.order_update u ] in
  Forall (λ m, match m with
               | Wire.bulk_order_update us => (length us ≤ 50)%nat
               | _ => True
               end) ms
  ∧ (length (Subscriber.orderUpdates
               (foldl (λ acc m, Subscriber.receive m acc) Subscriber.mount ms)) ≤ 50)%nat.
Proof.
  intros u ms.
  assert (Hms : Forall (λ m, match m with
                             | Wire.bulk_order_update us => (length us ≤ 50)%nat
                             | _ => True
                             end) ms).
  { unfold ms. repeat (apply Forall_cons; split; [cbn; rewrite ?length_replicate; done|]).
    apply Forall_nil_2. }
  split; [exact Hms|]. exact (proj1 (buffers_bounded ms Hms)).
Defined.

(** X22.  A [bulk_order_update] with more than 50 updates is kept whole,
    and the negative end index of [slice] then also keeps the older updates
    except the last [n - 50] of them, so the list grows beyond 50. *)
Theorem bulk_over_fifty_kept_whole (updates : list Wire.OrderUpdate) (h : Subscriber.Hook) :
  (50 < length updates)%nat →
  let h' := Subscriber.receive (Wire.bulk_order_update updates) h in
  Subscriber.orderUpdates h'
    = updates ++ take (length (Subscriber.orderUpdates h) - (length updates - 50))
                   (Subscriber.orderUpdates h)
  ∧ (50 < length (Subscriber.orderUpdates h'))%nat.
Proof.
  intros Hlen h'.
  assert (Hd : Subscriber.orderUpdates h'
            = updates ++ take (length (Subscriber.orderUpdates h) - (length updates - 50))
                           (Subscriber.orderUpdates h)).
  { unfold h'. cbn [Subscriber.receive Subscriber.withToast Subscriber.orderUpdates].
    replace (50 - Z.of_nat (length updates)) with (- (Z.of_nat (length updates) - 50)) by lia.
    rewrite slice_drop_last by lia. do 2 f_equal. lia. }
  split; [exact Hd|]. rewrite Hd, length_app. lia.
Qed.

Lemma bulk_over_fifty_kept_whole_witness :
  let us := replicate 51 Samples.o3_update in
  let h := Subscriber.receive (Wire.order_update Samples.o3_update) Subscriber.mount in
  (50 < length us)%nat
  ∧ (50 < length (Subscriber.orderUpdates
                    (Subscriber.receive (Wire.bulk_order_update us) h)))%nat.
Proof.
  intros us h.
  assert (Hlen : (50 < length us)%nat) by (unfold us; rewrite length_replicate; lia).
  split; [exact Hlen|]. exact (proj2 (bulk_over_fifty_kept_whole us h Hlen)).
Defined.

(** ** WebSocketService: the registry over time *)

Section RegistryFacts.
Import Wire Service ServiceDirect.
Implicit Types (s : Service) (sid r : string) (tr : list ClientEvent).

(** An event of another socket changes neither the rooms nor the
    registration of [sid]. *)
Lemma handle_frame s e sid r :
  socketOf e ≠ sid →
  ((sid, r) ∈ rooms (handle s e) ↔ (sid, r) ∈ rooms s)
  ∧ (sid ∈ connectedUsers (handle s e) ↔ sid ∈ connectedUsers s).
Proof.
  intros Hne.
  destruct e as [sid'|sid' uid name|sid' oid|sid' oid|sid'];
    cbn [socketOf] in Hne; cbn [handle join leave rooms connectedUsers].
  - done.
  - rewrite !elem_of_union, !elem_of_singleton. split; [|naive_solver].
    split; [intros [Heq|?]; [|done] | by right].
    apply pair_equal_spec in Heq as [-> _]. done.
  - rewrite elem_of_union, elem_of_singleton. split; [|done].
    split; [intros [Heq|?]; [|done] | by right].
    apply pair_equal_spec in Heq as [-> _]. done.
  - rewrite elem_of_difference, elem_of_singleton. split; [|done].
    split; [by intros [? _] | intros Hin; split; [done|]].
    intros Heq. apply pair_equal_spec in Heq as [-> _]. done.
  - rewrite elem_of_filter, elem_of_difference, elem_of_singleton. cbn [fst].
    split; split; try tauto; intros Hin; split; try done; congruence.
Qed.

Lemma foldl_handle_frame s tr sid r :
  Forall (λ e, socketOf e ≠ sid) tr →
  ((sid, r) ∈ rooms (foldl handle s tr) ↔ (sid, r) ∈ rooms s)
  ∧ (sid ∈ connectedUsers (foldl handle s tr) ↔ sid ∈ connectedUsers s).
Proof.
  revert s. induction tr as [|e tr IH]; intros s Hall; [done|].
  apply Forall_cons in Hall as [He Hall]. cbn [foldl].
  destruct (IH (handle s e) Hall) as [-> ->]. by apply handle_frame.
Qed.

Lemma after_split tr1 e tr2 :
  after (tr1 ++ e :: tr2) = foldl handle (handle (after tr1) e) tr2.
Proof. unfold after. by rewrite foldl_app. Qed.

(** The registered sockets are the sockets with a session and the members
    of the authenticated room. *)
Lemma registry_invariant tr :
  connectedUsers (after tr) = dom (userSessions (after tr))
  ∧ ∀ sid, sid ∈ connectedUsers (after tr) ↔ (sid, authenticated_users) ∈ rooms (after tr).
Proof.
  induction tr as [|e tr [IH1 IH2]] using rev_ind.
  - unfold after. cbn [foldl]. unfold initial. cbn [connectedUsers userSessions rooms].
    split; [by rewrite dom_empty_L | done].
  - rewrite after_snoc.
    destruct e as [sid'|sid' uid name|sid' oid|sid' oid|sid'];
      cbn [handle join leave rooms connectedUsers userSessions].
    + done.
    + split; [by rewrite dom_insert_L, IH1|]. intros sid.
      rewrite !elem_of_union, !elem_of_singleton, IH2. split.
      * intros [->|?]; [by left | by right].
      * intros [Heq|?]; [|by right]. apply pair_equal_spec in Heq as [-> _]. by left.
    + split; [done|]. intros sid. rewrite elem_of_union, elem_of_singleton, IH2.
      split; [by right|]. intros [Heq|?]; [|done].
      apply pair_equal_spec in Heq as [_ Heq]. symmetry in Heq.
      by apply orderRoom_not_authenticated in Heq.
    + split; [done|]. intros sid. rewrite elem_of_difference, elem_of_singleton, IH2.
      split; [|tauto]. intros Hin. split; [done|]. intros Heq.
      apply pair_equal_spec in Heq as [_ Heq]. symmetry in Heq.
      by apply orderRoom_not_authenticated in Heq.
    + split; [by rewrite dom_delete_L, IH1|]. intros sid.
      rewrite elem_of_difference, elem_of_singleton, elem_of_filter, IH2. cbn [fst]. tauto.
Qed.

Lemma inbox_ext s s' sid (es : list Emission) :
  (∀ r, (sid, r) ∈ rooms s ↔ (sid, r) ∈ rooms s') → inbox s sid es = inbox s' sid es.
Proof.
  intros Hr. unfold inbox. f_equal. apply list_filter_iff. intros e.
  by rewrite !elem_of_membersOf.
Qed.

Lemma inbox_no_rooms s sid (es : list Emission) :
  (∀ r, (sid, r) ∉ rooms s) → inbox s sid es = [].
Proof.
  intros Hr. unfold inbox. rewrite filter_none; [done|].
  intros e _. rewrite elem_of_membersOf. apply Hr.
Qed.
End RegistryFacts.

(** X23.  After any history of client events the registered sockets are
    exactly the sockets holding a session and exactly the members of the
    authenticated room: [getConnectedUsersCount()] is the size of that room,
    and the two counts sent by [sendSystemStats] are equal. *)
Theorem registry_counts_agree (tr : list Service.ClientEvent) :
  let s := Service.after tr in
  Service.connectedUsers s = Service.membersOf s Service.authenticated_users
  ∧ Service.connectedUsers s = dom (Service.userSessions s)
  ∧ ServiceDirect.getConnectedUsersCount s
    = size (Service.membersOf s Service.authenticated_users)
  ∧ (ServiceDirect.statsCounts s).1 = (ServiceDirect.statsCounts s).2.
Proof.
  intros s. destruct (registry_invariant tr) as [Hdom Hin]. fold s in Hdom, Hin.
  assert (Heq : Service.connectedUsers s = Service.membersOf s Service.authenticated_users).
  { apply set_eq. intros sid. by rewrite elem_of_membersOf. }
  split_and!; [exact Heq | exact Hdom | |].
  - unfold ServiceDirect.getConnectedUsersCount. by rewrite <- Heq.
  - unfold ServiceDirect.statsCounts. cbn [fst snd]. by rewrite Hdom, size_dom.
Qed.

(** X24.  Events of other sockets never change what a socket receives: if
    no event of a later stretch of the history comes from socket [sid], its
    room memberships, and so its share of any emissions, are those it had
    before that stretch. *)
Theorem other_sockets_do_not_interfere (tr1 tr2 : list Service.ClientEvent)
    (sid : string) (es : list Service.Emission) :
  Forall (λ e, ServiceDirect.socketOf e ≠ sid) tr2 →
  (∀ r, sid ∈ Service.membersOf (Service.after (tr1 ++ tr2)) r
        ↔ sid ∈ Service.membersOf (Service.after tr1) r)
  ∧ Service.inbox (Service.after (tr1 ++ tr2)) sid es
    = Service.inbox (Service.after tr1) sid es.
Proof.
  intros Hfree.
  assert (Hr : ∀ r, (sid, r) ∈ Service.rooms (Service.after (tr1 ++ tr2))
                    ↔ (sid, r) ∈ Service.rooms (Service.after tr1)).
  { intros r. unfold Service.after. rewrite foldl_app.
    by apply foldl_handle_frame. }
  split; [|by apply inbox_ext]. intros r. by rewrite !elem_of_membersOf.
Qed.

Lemma other_sockets_do_not_interfere_witness :
  let tr2 := [ Service.connection "s3"; Service.join_order_room "s3" "o3";
               Service.disconnect "s2" ] in
  let es := Service.broadcastOrderUpdate "id-1" "2024-01-01T00:00:01.000Z" Samples.o3_update in
  Forall (λ e, ServiceDirect.socketOf e ≠ "s1") tr2
  ∧ Service.inbox (Service.after (Samples.two_sockets ++ tr2)) "s1" es
    = Service.inbox (Service.after Samples.two_sockets) "s1" es.
Proof.
  intros tr2 es.
  assert (Hfree : Forall (λ e, ServiceDirect.socketOf e ≠ "s1") tr2).
  { unfold tr2. repeat (apply Forall_cons; split; [cbn; discriminate|]). apply Forall_nil_2. }
  split; [exact Hfree|].
  exact (proj2 (other_sockets_do_not_interfere Samples.two_sockets tr2 "s1" es Hfree)).
Defined.

(** X25.  Once a socket has disconnected, and until it sends an event
    again, it is in no room and not registered: it receives nothing from any
    broadcast, [sendNotificationToUser] for it sends nothing, and it is not
    counted among the members of any room. *)
Theorem disconnected_socket_receives_nothing (tr1 tr2 : list Service.ClientEvent)
    (sid : string) (es : list Service.Emission) (n : Wire.NotificationMessage) :
  Forall (λ e, ServiceDirect.socketOf e ≠ sid) tr2 →
  let s := Service.after (tr1 ++ Service.disconnect sid :: tr2) in
  (∀ r, sid ∉ Service.membersOf s r)
  ∧ Service.inbox s sid es = []
  ∧ ServiceDirect.sendNotificationToUser s sid n = [].
Proof.
  intros Hfree s.
  assert (Hr : ∀ r, (sid, r) ∉ Service.rooms s).
  { intros r. unfold s. rewrite after_split.
    rewrite (proj1 (foldl_handle_frame _ tr2 sid r Hfree)).
    cbn [Service.handle Service.rooms]. rewrite elem_of_filter. cbn [fst]. tauto. }
  split_and!.
  - intros r. rewrite elem_of_membersOf. apply Hr.
  - by apply inbox_no_rooms.
  - unfold ServiceDirect.sendNotificationToUser. rewrite decide_False; [done|].
    unfold s. rewrite after_split.
    rewrite (proj2 (foldl_handle_frame _ tr2 sid "" Hfree)).
    cbn [Service.handle Service.connectedUsers]. set_solver.
Qed.

Lemma disconnected_socket_receives_nothing_witness :
  let tr2 := [ Service.join_order_room "s2" "o3" ] in
  let es := Service.broadcastOrderUpdate "id-1" "2024-01-01T00:00:01.000Z" Samples.o3_update in
  Forall (λ e, ServiceDirect.socketOf e ≠ "s1") tr2
  ∧ Service.inbox (Service.after (Samples.two_sockets ++ Service.disconnect "s1" :: tr2))
      "s1" es = [].
Proof.
  intros tr2 es.
  assert (Hfree : Forall (λ e, ServiceDirect.socketOf e ≠ "s1") tr2).
  { unfold tr2. repeat (apply Forall_cons; split; [cbn; discriminate|]). apply Forall_nil_2. }
  split; [exact Hfree|].
  exact (proj1 (proj2 (disconnected_socket_receives_nothing Samples.two_sockets tr2 "s1" es
                         (Service.orderNotification "" "" Samples.o3_update) Hfree))).
Defined.

(** X26.  For the room of an order the last word of a socket counts: if its
    last event is [join_order_room] for that order, it receives the detail
    copy of every update of the order; if its last event is
    [leave_order_room] for that order, it receives no detail copy of
    them. *)
Theorem order_room_last_word (tr1 tr2 : list Service.ClientEvent) (sid : string)
    (uuid isoNow : string) (u : Wire.OrderUpdate) :
  Forall (λ e, ServiceDirect.socketOf e ≠ sid) tr2 →
  let es := Service.broadcastOrderUpdate uuid isoNow u in
  let joined := Service.after (tr1 ++ Service.join_order_room sid (Wire.orderId u) :: tr2) in
  let left := Service.after (tr1 ++ Service.leave_order_room sid (Wire.orderId u) :: tr2) in
  Wire.order_detail_update u true ∈ Service.inbox joined sid es
  ∧ (∀ u' b, Wire.order_detail_update u' b ∉ Service.inbox left sid es).
Proof.
  intros Hfree es joined left. split.
  - unfold es. rewrite inbox_broadcastOrderUpdate.
    rewrite (decide_True (P := sid ∈ Service.membersOf joined (Service.orderRoom _))).
    + apply elem_of_app. right. apply elem_of_app. left. left.
    + rewrite elem_of_membersOf. unfold joined. rewrite after_split.
      rewrite (proj1 (foldl_handle_frame _ tr2 sid _ Hfree)).
      cbn [Service.handle Service.join Service.rooms]. set_solver.
  - intros u' b. unfold es. rewrite inbox_broadcastOrderUpdate.
    rewrite (decide_False (P := sid ∈ Service.membersOf left (Service.orderRoom _))).
    + destruct (decide _); cbn [app]; intros Hin;
        repeat (apply elem_of_cons in Hin as [Hin|Hin]; [discriminate|]);
        by apply elem_of_nil in Hin.
    + rewrite elem_of_membersOf. unfold left. rewrite after_split.
      rewrite (proj1 (foldl_handle_frame _ tr2 sid _ Hfree)).
      cbn [Service.handle Service.leave Service.rooms]. set_solver.
Qed.

Lemma order_room_last_word_witness :
  let tr2 := [ Service.connection "s3"; Service.authenticate "s3" "u3" "Cy" ] in
  let es := Service.broadcastOrderUpdate "id-1" "2024-01-01T00:00:01.000Z" Samples.o3_update in
  Forall (λ e, ServiceDirect.socketOf e ≠ "s1") tr2
  ∧ (∀ u' b, Wire.order_detail_update u' b
       ∉ Service.inbox (Service.after (Samples.two_sockets
                                         ++ Service.leave_order_room "s1" "o3" :: tr2))
           "s1" es).
Proof.
  intros tr2 es.
  assert (Hfree : Forall (λ e, ServiceDirect.socketOf e ≠ "s1") tr2).
  { unfold tr2. repeat (apply Forall_cons; split; [cbn; discriminate|]). apply Forall_nil_2. }
  split; [exact Hfree|].
  exact (proj2 (order_room_last_word Samples.two_sockets tr2 "s1" "id-1"
                  "2024-01-01T00:00:01.000Z" Samples.o3_update Hfree)).
Defined.

(** X27.  After any history of client events, [sendNotificationToUser]
    reaches a socket exactly when [broadcastNotification] would reach it:
    both deliver the notification to the socket if it is registered and
    nothing otherwise. *)
Theorem direct_and_broadcast_notification_agree (tr : list Service.ClientEvent)
    (sid : string) (n : Wire.NotificationMessage) :
  let s := Service.after tr in
  ServiceDirect.sendNotificationToUser s sid n
  = (λ m, (sid, m)) <$> Service.inbox s sid (Service.broadcastNotification n).
Proof.
  intros s. destruct (registry_invariant tr) as [_ Hin]. fold s in Hin.
  unfold ServiceDirect.sendNotificationToUser, Service.inbox, Service.broadcastNotification.
  rewrite filter_cons, filter_nil. cbn [Service.room].
  destruct (decide (sid ∈ Service.connectedUsers s)) as [Hc|Hc];
    destruct (decide (sid ∈ Service.membersOf s Service.authenticated_users)) as [Hm|Hm];
    try done; exfalso; rewrite elem_of_membersOf, <- Hin in Hm; done.
Qed.

(** X28.  A typing indicator for an order reaches only other sockets, and
    only sockets that have sent [join_order_room] for that order; the sender
    never gets its own indicator back. *)
Theorem typing_reaches_other_watchers (tr : list Service.ClientEvent)
    (sender orderId sid : string) :
  sid ∈ ServiceDirect.typingRecipients (Service.after tr) sender orderId →
  sid ≠ sender ∧ Service.join_order_room sid orderId ∈ tr.
Proof.
  unfold ServiceDirect.typingRecipients.
  rewrite elem_of_difference, elem_of_singleton, elem_of_membersOf.
  intros [Hin Hne]. split; [done|]. by apply order_room_joined.
Qed.

Lemma typing_reaches_other_watchers_witness :
  "s1" ∈ ServiceDirect.typingRecipients (Service.after Samples.two_sockets) "s2" "o3"
  ∧ "s1" ≠ "s2".
Proof.
  assert (Hin : "s1" ∈ ServiceDirect.typingRecipients
                        (Service.after Samples.two_sockets) "s2" "o3").
  { unfold ServiceDirect.typingRecipients.
    rewrite elem_of_difference, elem_of_singleton, elem_of_membersOf.
    split; [vm_compute; reflexivity | discriminate]. }
  split; [exact Hin|].
  exact (proj1 (typing_reaches_other_watchers Samples.two_sockets "s2" "o3" "s1" Hin)).
Defined.

(** ** Texts built from an order update *)

Section TextFacts.

(** [s.split(sep)[0]] is the part of [s] before its first [sep]. *)
Lemma splitFirst_prefix (sep : ascii) (s : string) :
  (sep ∉ list_ascii_of_string (Js.splitFirst sep s))
  ∧ (s = Js.splitFirst sep s
     ∨ ∃ rest, s = Js.splitFirst sep s +:+ String sep rest).
Proof.
  induction s as [|a s [IH1 IH2]]; cbn [Js.splitFirst].
  - split; [apply not_elem_of_nil | by left].
  - destruct (decide (a = sep)) as [->|Hne].
    + split; [apply not_elem_of_nil|]. right. by exists s.
    + cbn [list_ascii_of_string]. split.
      * rewrite not_elem_of_cons. split; [congruence | done].
      * destruct IH2 as [Heq|[rest Heq]].
        -- left. by f_equal.
        -- right. exists rest. rewrite Heq at 1. reflexivity.
Qed.
End TextFacts.

(** X29.  The notification built for an order update has the title
    ["Order "] followed by the kind in capitals, with a space for the
    underscore of [status_changed], and the message
    ["Order <short>... has been <kind>"], where [<short>] is the order id up
    to its first ["-"] (the whole id when it has none) and so contains no
    ["-"]; it carries the order id and no user id. *)
Theorem order_notification_text (uuid isoNow : string) (u : Wire.OrderUpdate) :
  let n := Service.orderNotification uuid isoNow u in
  let short := Js.splitFirst "-"%char (Wire.orderId u) in
  let kind := match Wire.type u with
              | Wire.created => ("CREATED", "created")
              | Wire.updated => ("UPDATED", "updated")
              | Wire.deleted => ("DELETED", "deleted")
              | Wire.status_changed => ("STATUS CHANGED", "status changed")
              end in
  Wire.n_title n = "Order " +:+ kind.1
  ∧ Wire.n_message n = "Order " +:+ short +:+ "... has been " +:+ kind.2
  ∧ ("-"%char ∉ list_ascii_of_string short)
  ∧ (Wire.orderId u = short ∨ ∃ rest, Wire.orderId u = short +:+ String "-"%char rest)
  ∧ Wire.n_id n = uuid ∧ Wire.n_timestamp n = isoNow
  ∧ Wire.n_orderId n = Some (Wire.orderId u) ∧ Wire.n_userId n = None.
Proof.
  intros n short kind. destruct (splitFirst_prefix "-"%char (Wire.orderId u)) as [H1 H2].
  unfold n, kind, Service.orderNotification.
  cbn [Wire.n_title Wire.n_message Wire.n_id Wire.n_timestamp Wire.n_orderId Wire.n_userId].
  split_and!; try done; by destruct (Wire.type u).
Qed.
